(** * GeMM kernels (src/src/gemm.cpp): a shallow embedding and its properties

    The seventeen kernels of [GeMM] ([Origin], [Optimize1] .. [Optimize16]),
    the parameter validator [CheckParam] and the comparator [CheckResult]
    are transcribed as state-passing functions over a flat memory of
    single-precision cells.

    - A [float *] is an address (a [Z], counted in [float] cells); the null
      pointer is address [0].  [p[idx]] is the cell at [p + idx].
    - [int] values are unbounded integers: the index expressions of the
      source are evaluated without overflow ([b.w & ~3] is [Z.land _ (-4)],
      which is what two's complement computes).
    - The arithmetic of [float] is a parameter ([FloatOps]) with the IEEE-754
      binary32 instance [binary32] built on [SpecFloat].
    - The code guarded by [#ifdef __ARM_NEON] is selected by a boolean
      argument [neon] of the kernels that contain such code. *)

From Stdlib Require Import ZArith List Bool Lia Znumtheory.
From Stdlib Require Import Floats.SpecFloat.
Import ListNotations.
Local Open Scope Z_scope.

(** ** Arithmetic of [float] *)

Class FloatOps (F : Type) := {
  fadd : F -> F -> F;            (* x + y *)
  fsub : F -> F -> F;            (* x - y *)
  fmul : F -> F -> F;            (* x * y *)
  fabs : F -> F;                 (* std::abs(x) *)
  fgt  : F -> F -> bool;         (* x > y *)
  fma  : F -> F -> F -> F;       (* one lane of vfmaq_f32: acc + x * y, fused *)
  EPSILON : F                    (* constexpr float EPSILON = 1e-5 *)
}.

(** *** IEEE-754 binary32 *)

Module B32.
Definition prec : Z := 24.
Definition emax : Z := 128.

Definition float := spec_float.

Definition of_Z (n : Z) : float := binary_normalize prec emax n 0 false.

Definition add : float -> float -> float := SFadd prec emax.
Definition sub : float -> float -> float := SFsub prec emax.
Definition mul : float -> float -> float := SFmul prec emax.
Definition abs : float -> float := SFabs.
Definition gt (x y : float) : bool := SFltb y x.
Definition le (x y : float) : bool := SFleb x y.

(** Modelled from the spec: the fused multiply-add of the vector unit
    (arm_neon.h is not part of the repository).  The product [x * y] is
    kept exact and the sum [acc + x * y] is rounded once. *)
Definition fmadd (acc x y : float) : float :=
  match x, y with
  | S754_finite sx mx ex, S754_finite sy my ey =>
      match acc with
      | S754_zero _ => mul x y
      | _ => add acc (S754_finite (xorb sx sy) (mx * my) (ex + ey))
      end
  | _, _ => add acc (mul x y)
  end.

(** The [float] nearest to 1e-5: 10995116 * 2^-40 (bit pattern 0x3727C5AC). *)
Definition eps : float := S754_finite false 10995116 (-40).

Definition zero : float := S754_zero false.
End B32.

#[export] Instance binary32 : FloatOps B32.float := {
  fadd := B32.add;
  fsub := B32.sub;
  fmul := B32.mul;
  fabs := B32.abs;
  fgt := B32.gt;
  fma := B32.fmadd;
  EPSILON := B32.eps
}.

(** ** Memory, pointers and loops *)

Section Memory.
Context {F : Type}.

Definition mem := Z -> F.

(** [p[0] = v] *)
Definition store (m : mem) (p : Z) (v : F) : mem :=
  fun q => if q =? p then v else m q.

(** The cells [p, p+1, ..] hold the elements of [l]. *)
Fixpoint poke (m : mem) (p : Z) (l : list F) : mem :=
  match l with
  | [] => m
  | x :: l' => poke (store m p x) (p + 1) l'
  end.
End Memory.
Arguments mem : clear implicits.

Section Loops.
Context {S : Type}.

(** [for (; i < bound; i += step) s = body i s], returning the final value
    of the loop variable together with the final state. *)
Fixpoint for_loop (fuel : nat) (i bound step : Z) (body : Z -> S -> S) (s : S)
  : Z * S :=
  match fuel with
  | O => (i, s)
  | Datatypes.S fuel' =>
      if i <? bound
      then for_loop fuel' (i + step) bound step body (body i s)
      else (i, s)
  end.

Definition For (i0 bound step : Z) (body : Z -> S -> S) (s : S) : Z * S :=
  for_loop (Z.to_nat (bound - i0)) i0 bound step body s.

(** A loop whose body may [return r]: [None] means the loop ran to its end. *)
Fixpoint for_return_loop {R : Type} (fuel : nat) (i bound : Z)
  (body : Z -> option R) : option R :=
  match fuel with
  | O => None
  | Datatypes.S fuel' =>
      if i <? bound
      then match body i with
           | Some r => Some r
           | None => for_return_loop fuel' (i + 1) bound body
           end
      else None
  end.

Definition ForReturn {R : Type} (i0 bound : Z) (body : Z -> option R) : option R :=
  for_return_loop (Z.to_nat (bound - i0)) i0 bound body.
End Loops.

(** ** Matrix views (include/gemm.h) *)

Record Matrix := { data : Z; h : Z; w : Z }.

Definition null : Z := 0.

Section GeMM.
Context {F : Type} {FO : FloatOps F}.

Local Abbreviation mem := (mem F).

(** [p[0] += v] *)
Definition add_assign (m : mem) (p : Z) (v : F) : mem :=
  store m p (fadd (m p) v).

(** *** The four-lane vector type and the intrinsics the kernels use

    Modelled from the spec: arm_neon.h is not part of the repository; the
    intrinsics act lane by lane, [vfmaq_f32 c x y] being [c + x * y] fused
    and [vfmaq_laneq_f32 c x v n] being [c + x * v[n]] fused. *)
Record float32x4_t := { lane0 : F; lane1 : F; lane2 : F; lane3 : F }.

Definition vld1q_f32 (m : mem) (p : Z) : float32x4_t :=
  {| lane0 := m p; lane1 := m (p + 1); lane2 := m (p + 2); lane3 := m (p + 3) |}.

Definition vst1q_f32 (m : mem) (p : Z) (v : float32x4_t) : mem :=
  store (store (store (store m p (lane0 v)) (p + 1) (lane1 v))
               (p + 2) (lane2 v)) (p + 3) (lane3 v).

Definition vdupq_n_f32 (x : F) : float32x4_t :=
  {| lane0 := x; lane1 := x; lane2 := x; lane3 := x |}.

Definition vgetq_lane_f32 (v : float32x4_t) (n : Z) : F :=
  match n with
  | 0 => lane0 v
  | 1 => lane1 v
  | 2 => lane2 v
  | _ => lane3 v
  end.

Definition vdupq_laneq_f32 (v : float32x4_t) (n : Z) : float32x4_t :=
  vdupq_n_f32 (vgetq_lane_f32 v n).

Definition vfmaq_f32 (c x y : float32x4_t) : float32x4_t :=
  {| lane0 := fma (lane0 c) (lane0 x) (lane0 y);
     lane1 := fma (lane1 c) (lane1 x) (lane1 y);
     lane2 := fma (lane2 c) (lane2 x) (lane2 y);
     lane3 := fma (lane3 c) (lane3 x) (lane3 y) |}.

Definition vfmaq_laneq_f32 (c x v : float32x4_t) (n : Z) : float32x4_t :=
  vfmaq_f32 c x (vdupq_laneq_f32 v n).

(** *** GeMM::CheckParam *)
Definition CheckParam (a b c : Matrix) : bool :=
  if negb (w a =? h b) then false
  else if negb (h a =? h c) then false
  else if negb (w b =? w c) then false
  else if (data a =? null) || (data b =? null) || (data c =? null) then false
  else true.

(** *** GeMM::CheckResult *)
Definition CheckResult (a b : Matrix) (m : mem) : bool :=
  if negb (w a =? w b) then false
  else if negb (h a =? h b) then false
  else if (data a =? null) || (data b =? null) then false
  else
    match
      ForReturn 0 (h a) (fun i =>
        ForReturn 0 (w a) (fun j =>
          if fgt (fabs (fsub (m (data a + (i * w a + j)))
                             (m (data b + (i * w a + j))))) EPSILON
          then Some false
          else None))
    with
    | Some r => r
    | None => true
    end.

(** *** GeMM::Origin -- loop order ijk *)
Definition Origin (a b c : Matrix) (m : mem) : mem :=
  if negb (CheckParam a b c) then m
  else
    let pA := data a in
    let pB := data b in
    let pC := data c in
    snd (For 0 (h a) 1 (fun i m =>
      snd (For 0 (w b) 1 (fun j m =>
        snd (For 0 (w a) 1 (fun k m =>
          add_assign m (pC + (i * w c + j))
            (fmul (m (pA + (i * w a + k))) (m (pB + (k * w b + j)))))
        m))
      m))
    m).

(** *** GeMM::Optimize1 -- loop order ikj *)
Definition Optimize1 (a b c : Matrix) (m : mem) : mem :=
  if negb (CheckParam a b c) then m
  else
    let pA := data a in
    let pB := data b in
    let pC := data c in
    snd (For 0 (h a) 1 (fun i m =>
      snd (For 0 (w a) 1 (fun k m =>
        let a0 := m (pA + (i * w a + k)) in
        snd (For 0 (w b) 1 (fun j m =>
          add_assign m (pC + (i * w c + j)) (fmul a0 (m (pB + (k * w b + j)))))
        m))
      m))
    m).

(** *** GeMM::Optimize2 -- loop order kij *)
Definition Optimize2 (a b c : Matrix) (m : mem) : mem :=
  if negb (CheckParam a b c) then m
  else
    let pA := data a in
    let pB := data b in
    let pC := data c in
    snd (For 0 (w a) 1 (fun k m =>
      snd (For 0 (h a) 1 (fun i m =>
        let a0 := m (pA + (i * w a + k)) in
        snd (For 0 (w b) 1 (fun j m =>
          add_assign m (pC + (i * w c + j)) (fmul a0 (m (pB + (k * w b + j)))))
        m))
      m))
    m).

(** *** GeMM::Optimize3 -- loop order ikj, j unrolled by four *)
Definition Optimize3 (a b c : Matrix) (m : mem) : mem :=
  if negb (CheckParam a b c) then m
  else
    let pA := data a in
    let pB := data b in
    let pC := data c in
    snd (For 0 (h a) 1 (fun i m =>
      snd (For 0 (w a) 1 (fun k m =>
        let a0 := m (pA + (i * w a + k)) in
        let j := 0 in
        let '(j, m) := For j (Z.land (w b) (-4)) 4 (fun j m =>
          let m := add_assign m (pC + (i * w c + j)) (fmul a0 (m (pB + (k * w b + j)))) in
          let m := add_assign m (pC + (i * w c + j + 1)) (fmul a0 (m (pB + (k * w b + j + 1)))) in
          let m := add_assign m (pC + (i * w c + j + 2)) (fmul a0 (m (pB + (k * w b + j + 2)))) in
          let m := add_assign m (pC + (i * w c + j + 3)) (fmul a0 (m (pB + (k * w b + j + 3)))) in
          m) m in
        snd (For j (w b) 1 (fun j m =>
          add_assign m (pC + (i * w c + j)) (fmul a0 (m (pB + (k * w b + j)))))
        m))
      m))
    m).

(** *** GeMM::Optimize4 -- loop order kij, j unrolled by four *)
Definition Optimize4 (a b c : Matrix) (m : mem) : mem :=
  if negb (CheckParam a b c) then m
  else
    let pA := data a in
    let pB := data b in
    let pC := data c in
    snd (For 0 (w a) 1 (fun k m =>
      snd (For 0 (h a) 1 (fun i m =>
        let a0 := m (pA + (i * w a + k)) in
        let j := 0 in
        let '(j, m) := For j (Z.land (w b) (-4)) 4 (fun j m =>
          let m := add_assign m (pC + (i * w c + j)) (fmul a0 (m (pB + (k * w b + j)))) in
          let m := add_assign m (pC + (i * w c + j + 1)) (fmul a0 (m (pB + (k * w b + j + 1)))) in
          let m := add_assign m (pC + (i * w c + j + 2)) (fmul a0 (m (pB + (k * w b + j + 2)))) in
          let m := add_assign m (pC + (i * w c + j + 3)) (fmul a0 (m (pB + (k * w b + j + 3)))) in
          m) m in
        snd (For j (w b) 1 (fun j m =>
          add_assign m (pC + (i * w c + j)) (fmul a0 (m (pB + (k * w b + j)))))
        m))
      m))
    m).

(** *** GeMM::Optimize5 -- loop order ikj, j vectorised *)
Definition Optimize5 (neon : bool) (a b c : Matrix) (m : mem) : mem :=
  if negb (CheckParam a b c) then m
  else
    let pA := data a in
    let pB := data b in
    let pC := data c in
    snd (For 0 (h a) 1 (fun i m =>
      snd (For 0 (w a) 1 (fun k m =>
        let a0 := m (pA + (i * w a + k)) in
        let vA0 := vdupq_n_f32 a0 in
        let j := 0 in
        let '(j, m) :=
          if neon then
            For j (Z.land (w b) (-4)) 4 (fun j m =>
              let vB := vld1q_f32 m (pB + k * w b + j) in
              let vC := vld1q_f32 m (pC + i * w c + j) in
              let vC := vfmaq_f32 vC vA0 vB in
              vst1q_f32 m (pC + i * w c + j) vC) m
          else (j, m) in
        snd (For j (w b) 1 (fun j m =>
          add_assign m (pC + (i * w c + j)) (fmul a0 (m (pB + (k * w b + j)))))
        m))
      m))
    m).

(** *** GeMM::Optimize6 -- loop order kij, j vectorised *)
Definition Optimize6 (neon : bool) (a b c : Matrix) (m : mem) : mem :=
  if negb (CheckParam a b c) then m
  else
    let pA := data a in
    let pB := data b in
    let pC := data c in
    snd (For 0 (w a) 1 (fun k m =>
      snd (For 0 (h a) 1 (fun i m =>
        let a0 := m (pA + (i * w a + k)) in
        let vA0 := vdupq_n_f32 a0 in
        let j := 0 in
        let '(j, m) :=
          if neon then
            For j (Z.land (w b) (-4)) 4 (fun j m =>
              let vB := vld1q_f32 m (pB + k * w b + j) in
              let vC := vld1q_f32 m (pC + i * w c + j) in
              let vC := vfmaq_f32 vC vA0 vB in
              vst1q_f32 m (pC + i * w c + j) vC) m
          else (j, m) in
        snd (For j (w b) 1 (fun j m =>
          add_assign m (pC + (i * w c + j)) (fmul a0 (m (pB + (k * w b + j)))))
        m))
      m))
    m).

(** *** GeMM::Optimize7 -- loop order ikj, k and j unrolled by four *)
Definition Optimize7 (a b c : Matrix) (m : mem) : mem :=
  if negb (CheckParam a b c) then m
  else
    let pA := data a in
    let pB := data b in
    let pC := data c in
    snd (For 0 (h a) 1 (fun i m =>
      let k := 0 in
      let '(k, m) := For k (Z.land (w a) (-4)) 4 (fun k m =>
        let a0 := m (pA + (i * w a + k)) in
        let a1 := m (pA + (i * w a + k + 1)) in
        let a2 := m (pA + (i * w a + k + 2)) in
        let a3 := m (pA + (i * w a + k + 3)) in
        let j := 0 in
        let '(j, m) := For j (Z.land (w b) (-4)) 4 (fun j m =>
          let m := add_assign m (pC + (i * w c + j)) (fmul a0 (m (pB + (k * w b + j)))) in
          let m := add_assign m (pC + (i * w c + j)) (fmul a1 (m (pB + ((k + 1) * w b + j)))) in
          let m := add_assign m (pC + (i * w c + j)) (fmul a2 (m (pB + ((k + 2) * w b + j)))) in
          let m := add_assign m (pC + (i * w c + j)) (fmul a3 (m (pB + ((k + 3) * w b + j)))) in

          let m := add_assign m (pC + (i * w c + j + 1)) (fmul a0 (m (pB + (k * w b + j + 1)))) in
          let m := add_assign m (pC + (i * w c + j + 1)) (fmul a1 (m (pB + ((k + 1) * w b + j + 1)))) in
          let m := add_assign m (pC + (i * w c + j + 1)) (fmul a2 (m (pB + ((k + 2) * w b + j + 1)))) in
          let m := add_assign m (pC + (i * w c + j + 1)) (fmul a3 (m (pB + ((k + 3) * w b + j + 1)))) in

          let m := add_assign m (pC + (i * w c + j + 2)) (fmul a0 (m (pB + (k * w b + j + 2)))) in
          let m := add_assign m (pC + (i * w c + j + 2)) (fmul a1 (m (pB + ((k + 1) * w b + j + 2)))) in
          let m := add_assign m (pC + (i * w c + j + 2)) (fmul a2 (m (pB + ((k + 2) * w b + j + 2)))) in
          let m := add_assign m (pC + (i * w c + j + 2)) (fmul a3 (m (pB + ((k + 3) * w b + j + 2)))) in

          let m := add_assign m (pC + (i * w c + j + 3)) (fmul a0 (m (pB + (k * w b + j + 3)))) in
          let m := add_assign m (pC + (i * w c + j + 3)) (fmul a1 (m (pB + ((k + 1) * w b + j + 3)))) in
          let m := add_assign m (pC + (i * w c + j + 3)) (fmul a2 (m (pB + ((k + 2) * w b + j + 3)))) in
          let m := add_assign m (pC + (i * w c + j + 3)) (fmul a3 (m (pB + ((k + 3) * w b + j + 3)))) in
          m) m in
        snd (For j (w b) 1 (fun j m =>
          let m := add_assign m (pC + (i * w c + j)) (fmul a0 (m (pB + (k * w b + j)))) in
          let m := add_assign m (pC + (i * w c + j)) (fmul a1 (m (pB + ((k + 1) * w b + j)))) in
          let m := add_assign m (pC + (i * w c + j)) (fmul a2 (m (pB + ((k + 2) * w b + j)))) in
          let m := add_assign m (pC + (i * w c + j)) (fmul a3 (m (pB + ((k + 3) * w b + j)))) in
          m) m)) m in
      snd (For k (w a) 1 (fun k m =>
        let a0 := m (pA + (i * w a + k)) in
        let j := 0 in
        let '(j, m) := For j (Z.land (w b) (-4)) 4 (fun j m =>
          let m := add_assign m (pC + (i * w c + j)) (fmul a0 (m (pB + (k * w b + j)))) in
          let m := add_assign m (pC + (i * w c + j + 1)) (fmul a0 (m (pB + (k * w b + j + 1)))) in
          let m := add_assign m (pC + (i * w c + j + 2)) (fmul a0 (m (pB + (k * w b + j + 2)))) in
          let m := add_assign m (pC + (i * w c + j + 3)) (fmul a0 (m (pB + (k * w b + j + 3)))) in
          m) m in
        snd (For j (w b) 1 (fun j m =>
          add_assign m (pC + (i * w c + j)) (fmul a0 (m (pB + (k * w b + j)))))
        m))
      m))
    m).

(** *** GeMM::Optimize8 -- loop order kij, k and j unrolled by four *)
Definition Optimize8 (a b c : Matrix) (m : mem) : mem :=
  if negb (CheckParam a b c) then m
  else
    let pA := data a in
    let pB := data b in
    let pC := data c in
    let k := 0 in
    let '(k, m) := For k (Z.land (w a) (-4)) 4 (fun k m =>
      snd (For 0 (h a) 1 (fun i m =>
        let a0 := m (pA + (i * w a + k)) in
        let a1 := m (pA + (i * w a + k + 1)) in
        let a2 := m (pA + (i * w a + k + 2)) in
        let a3 := m (pA + (i * w a + k + 3)) in
        let j := 0 in
        let '(j, m) := For j (Z.land (w b) (-4)) 4 (fun j m =>
          let m := add_assign m (pC + (i * w c + j)) (fmul a0 (m (pB + (k * w b + j)))) in
          let m := add_assign m (pC + (i * w c + j)) (fmul a1 (m (pB + ((k + 1) * w b + j)))) in
          let m := add_assign m (pC + (i * w c + j)) (fmul a2 (m (pB + ((k + 2) * w b + j)))) in
          let m := add_assign m (pC + (i * w c + j)) (fmul a3 (m (pB + ((k + 3) * w b + j)))) in

          let m := add_assign m (pC + (i * w c + j + 1)) (fmul a0 (m (pB + (k * w b + j + 1)))) in
          let m := add_assign m (pC + (i * w c + j + 1)) (fmul a1 (m (pB + ((k + 1) * w b + j + 1)))) in
          let m := add_assign m (pC + (i * w c + j + 1)) (fmul a2 (m (pB + ((k + 2) * w b + j + 1)))) in
          let m := add_assign m (pC + (i * w c + j + 1)) (fmul a3 (m (pB + ((k + 3) * w b + j + 1)))) in

          let m := add_assign m (pC + (i * w c + j + 2)) (fmul a0 (m (pB + (k * w b + j + 2)))) in
          let m := add_assign m (pC + (i * w c + j + 2)) (fmul a1 (m (pB + ((k + 1) * w b + j + 2)))) in
          let m := add_assign m (pC + (i * w c + j + 2)) (fmul a2 (m (pB + ((k + 2) * w b + j + 2)))) in
          let m := add_assign m (pC + (i * w c + j + 2)) (fmul a3 (m (pB + ((k + 3) * w b + j + 2)))) in

          let m := add_assign m (pC + (i * w c + j + 3)) (fmul a0 (m (pB + (k * w b + j + 3)))) in
          let m := add_assign m (pC + (i * w c + j + 3)) (fmul a1 (m (pB + ((k + 1) * w b + j + 3)))) in
          let m := add_assign m (pC + (i * w c + j + 3)) (fmul a2 (m (pB + ((k + 2) * w b + j + 3)))) in
          let m := add_assign m (pC + (i * w c + j + 3)) (fmul a3 (m (pB + ((k + 3) * w b + j + 3)))) in
          m) m in
        snd (For j (w b) 1 (fun j m =>
          let m := add_assign m (pC + (i * w c + j)) (fmul a0 (m (pB + (k * w b + j)))) in
          let m := add_assign m (pC + (i * w c + j)) (fmul a1 (m (pB + ((k + 1) * w b + j)))) in
          let m := add_assign m (pC + (i * w c + j)) (fmul a2 (m (pB + ((k + 2) * w b + j)))) in
          let m := add_assign m (pC + (i * w c + j)) (fmul a3 (m (pB + ((k + 3) * w b + j)))) in
          m) m)) m)) m in
    snd (For k (w a) 1 (fun k m =>
      snd (For 0 (h a) 1 (fun i m =>
        let a0 := m (pA + (i * w a + k)) in
        let j := 0 in
        let '(j, m) := For j (Z.land (w b) (-4)) 4 (fun j m =>
          let m := add_assign m (pC + (i * w c + j)) (fmul a0 (m (pB + (k * w b + j)))) in
          let m := add_assign m (pC + (i * w c + j + 1)) (fmul a0 (m (pB + (k * w b + j + 1)))) in
          let m := add_assign m (pC + (i * w c + j + 2)) (fmul a0 (m (pB + (k * w b + j + 2)))) in
          let m := add_assign m (pC + (i * w c + j + 3)) (fmul a0 (m (pB + (k * w b + j + 3)))) in
          m) m in
        snd (For j (w b) 1 (fun j m =>
          add_assign m (pC + (i * w c + j)) (fmul a0 (m (pB + (k * w b + j)))))
        m))
      m))
    m).

(** *** GeMM::Optimize9 -- loop order ikj, k unrolled by four, j vectorised *)
Definition Optimize9 (neon : bool) (a b c : Matrix) (m : mem) : mem :=
  if negb (CheckParam a b c) then m
  else
    let pA := data a in
    let pB := data b in
    let pC := data c in
    snd (For 0 (h a) 1 (fun i m =>
      let k := 0 in
      let '(k, m) := For k (Z.land (w a) (-4)) 4 (fun k m =>
        let a0 := m (pA + (i * w a + k)) in
        let a1 := m (pA + (i * w a + k + 1)) in
        let a2 := m (pA + (i * w a + k + 2)) in
        let a3 := m (pA + (i * w a + k + 3)) in
        let vA0 := vdupq_n_f32 a0 in
        let vA1 := vdupq_n_f32 a1 in
        let vA2 := vdupq_n_f32 a2 in
        let vA3 := vdupq_n_f32 a3 in
        let j := 0 in
        let '(j, m) :=
          if neon then
            For j (Z.land (w b) (-4)) 4 (fun j m =>
              let vB0 := vld1q_f32 m (pB + k * w b + j) in
              let vB1 := vld1q_f32 m (pB + (k + 1) * w b + j) in
              let vB2 := vld1q_f32 m (pB + (k + 2) * w b + j) in
              let vB3 := vld1q_f32 m (pB + (k + 3) * w b + j) in

              let vC := vld1q_f32 m (pC + i * w c + j) in
              let vC := vfmaq_f32 vC vA0 vB0 in
              let vC := vfmaq_f32 vC vA1 vB1 in
              let vC := vfmaq_f32 vC vA2 vB2 in
              let vC := vfmaq_f32 vC vA3 vB3 in
              vst1q_f32 m (pC + i * w c + j) vC) m
          else (j, m) in
        snd (For j (w b) 1 (fun j m =>
          let m := add_assign m (pC + (i * w c + j)) (fmul a0 (m (pB + (k * w b + j)))) in
          let m := add_assign m (pC + (i * w c + j)) (fmul a1 (m (pB + ((k + 1) * w b + j)))) in
          let m := add_assign m (pC + (i * w c + j)) (fmul a2 (m (pB + ((k + 2) * w b + j)))) in
          let m := add_assign m (pC + (i * w c + j)) (fmul a3 (m (pB + ((k + 3) * w b + j)))) in
          m) m)) m in
      snd (For k (w a) 1 (fun k m =>
        let a0 := m (pA + (i * w a + k)) in
        let vA0 := vdupq_n_f32 a0 in
        let j := 0 in
        let '(j, m) :=
          if neon then
            For j (Z.land (w b) (-4)) 4 (fun j m =>
              let vB := vld1q_f32 m (pB + k * w b + j) in
              let vC := vld1q_f32 m (pC + i * w c + j) in
              let vC := vfmaq_f32 vC vA0 vB in
              vst1q_f32 m (pC + i * w c + j) vC) m
          else (j, m) in
        snd (For j (w b) 1 (fun j m =>
          add_assign m (pC + (i * w c + j)) (fmul a0 (m (pB + (k * w b + j)))))
        m))
      m))
    m).

(** *** GeMM::Optimize10 -- loop order kij, k unrolled by four, j vectorised *)
Definition Optimize10 (neon : bool) (a b c : Matrix) (m : mem) : mem :=
  if negb (CheckParam a b c) then m
  else
    let pA := data a in
    let pB := data b in
    let pC := data c in
    let k := 0 in
    let '(k, m) := For k (Z.land (w a) (-4)) 4 (fun k m =>
      snd (For 0 (h a) 1 (fun i m =>
        let a0 := m (pA + (i * w a + k)) in
        let a1 := m (pA + (i * w a + k + 1)) in
        let a2 := m (pA + (i * w a + k + 2)) in
        let a3 := m (pA + (i * w a + k + 3)) in
        let vA0 := vdupq_n_f32 a0 in
        let vA1 := vdupq_n_f32 a1 in
        let vA2 := vdupq_n_f32 a2 in
        let vA3 := vdupq_n_f32 a3 in
        let j := 0 in
        let '(j, m) :=
          if neon then
            For j (Z.land (w b) (-4)) 4 (fun j m =>
              let vB0 := vld1q_f32 m (pB + k * w b + j) in
              let vB1 := vld1q_f32 m (pB + (k + 1) * w b + j) in
              let vB2 := vld1q_f32 m (pB + (k + 2) * w b + j) in
              let vB3 := vld1q_f32 m (pB + (k + 3) * w b + j) in

              let vC := vld1q_f32 m (pC + i * w c + j) in
              let vC := vfmaq_f32 vC vA0 vB0 in
              let vC := vfmaq_f32 vC vA1 vB1 in
              let vC := vfmaq_f32 vC vA2 vB2 in
              let vC := vfmaq_f32 vC vA3 vB3 in
              vst1q_f32 m (pC + i * w c + j) vC) m
          else (j, m) in
        snd (For j (w b) 1 (fun j m =>
          let m := add_assign m (pC + (i * w c + j)) (fmul a0 (m (pB + (k * w b + j)))) in
          let m := add_assign m (pC + (i * w c + j + 1)) (fmul a1 (m (pB + ((k + 1) * w b + j)))) in
          let m := add_assign m (pC + (i * w c + j + 2)) (fmul a2 (m (pB + ((k + 2) * w b + j)))) in
          let m := add_assign m (pC + (i * w c + j + 3)) (fmul a3 (m (pB + ((k + 3) * w b + j)))) in
          m) m)) m)) m in
    snd (For k (w a) 1 (fun k m =>
      snd (For 0 (h a) 1 (fun i m =>
        let a0 := m (pA + (i * w a + k)) in
        let vA := vdupq_n_f32 a0 in
        let j := 0 in
        let '(j, m) :=
          if neon then
            For j (Z.land (w b) (-4)) 4 (fun j m =>
              let vB := vld1q_f32 m (pB + k * w b + j) in
              let vC := vld1q_f32 m (pC + i * w c + j) in
              let vC := vfmaq_f32 vC vA vB in
              vst1q_f32 m (pC + i * w c + j) vC) m
          else (j, m) in
        snd (For j (w b) 1 (fun j m =>
          add_assign m (pC + (i * w c + j)) (fmul a0 (m (pB + (k * w b + j)))))
        m))
      m))
    m).

(** *** GeMM::Optimize11 -- loop order ikj, vectorised, k and j aligned to four *)
Definition Optimize11 (neon : bool) (a b c : Matrix) (m : mem) : mem :=
  if negb (CheckParam a b c) then m
  else
    let pA := data a in
    let pB := data b in
    let pC := data c in
    if neon then
      snd (For 0 (h a) 1 (fun i m =>
        let k := 0 in
        snd (For k (Z.land (w a) (-4)) 4 (fun k m =>
          let vA := vld1q_f32 m (pA + i * w a + k) in
          let vA0 := vdupq_laneq_f32 vA 0 in
          let vA1 := vdupq_laneq_f32 vA 1 in
          let vA2 := vdupq_laneq_f32 vA 2 in
          let vA3 := vdupq_laneq_f32 vA 3 in
          let j := 0 in
          snd (For j (Z.land (w b) (-4)) 4 (fun j m =>
            let vB0 := vld1q_f32 m (pB + k * w b + j) in
            let vB1 := vld1q_f32 m (pB + (k + 1) * w b + j) in
            let vB2 := vld1q_f32 m (pB + (k + 2) * w b + j) in
            let vB3 := vld1q_f32 m (pB + (k + 3) * w b + j) in
            let vC := vld1q_f32 m (pC + i * w c + j) in
            let vC := vfmaq_f32 vC vA0 vB0 in
            let vC := vfmaq_f32 vC vA1 vB1 in
            let vC := vfmaq_f32 vC vA2 vB2 in
            let vC := vfmaq_f32 vC vA3 vB3 in
            vst1q_f32 m (pC + i * w c + j) vC) m))
        m))
      m)
    else m.

(** *** GeMM::Optimize12 -- loop order kij, vectorised, k and j aligned to four *)
Definition Optimize12 (neon : bool) (a b c : Matrix) (m : mem) : mem :=
  if negb (CheckParam a b c) then m
  else
    let pA := data a in
    let pB := data b in
    let pC := data c in
    if neon then
      let k := 0 in
      snd (For k (Z.land (w a) (-4)) 4 (fun k m =>
        snd (For 0 (h a) 1 (fun i m =>
          let vA := vld1q_f32 m (pA + i * w a + k) in
          let vA0 := vdupq_laneq_f32 vA 0 in
          let vA1 := vdupq_laneq_f32 vA 1 in
          let vA2 := vdupq_laneq_f32 vA 2 in
          let vA3 := vdupq_laneq_f32 vA 3 in
          let j := 0 in
          snd (For j (Z.land (w b) (-4)) 4 (fun j m =>
            let vB0 := vld1q_f32 m (pB + k * w b + j) in
            let vB1 := vld1q_f32 m (pB + (k + 1) * w b + j) in
            let vB2 := vld1q_f32 m (pB + (k + 2) * w b + j) in
            let vB3 := vld1q_f32 m (pB + (k + 3) * w b + j) in
            let vC := vld1q_f32 m (pC + i * w c + j) in
            let vC := vfmaq_f32 vC vA0 vB0 in
            let vC := vfmaq_f32 vC vA1 vB1 in
            let vC := vfmaq_f32 vC vA2 vB2 in
            let vC := vfmaq_f32 vC vA3 vB3 in
            vst1q_f32 m (pC + i * w c + j) vC) m))
        m))
      m)
    else m.

(** *** GeMM::Optimize13 -- loop order ikj, 4x4 register block, i, k and j aligned to four *)
Definition Optimize13 (neon : bool) (a b c : Matrix) (m : mem) : mem :=
  if negb (CheckParam a b c) then m
  else
    let pA := data a in
    let pB := data b in
    let pC := data c in
    if neon then
      snd (For 0 (Z.land (h a) (-4)) 4 (fun i m =>
        snd (For 0 (Z.land (w a) (-4)) 4 (fun k m =>
          let aIdx := i * w a + k in
          let vA0 := vld1q_f32 m (pA + aIdx) in
          let vA1 := vld1q_f32 m (pA + aIdx + w a) in
          let vA2 := vld1q_f32 m (pA + aIdx + w a * 2) in
          let vA3 := vld1q_f32 m (pA + aIdx + w a * 3) in
          snd (For 0 (Z.land (w b) (-4)) 4 (fun j m =>
              let bIdx := k * w b + j in
              let vB0 := vld1q_f32 m (pB + bIdx) in
              let vB1 := vld1q_f32 m (pB + bIdx + w b) in
              let vB2 := vld1q_f32 m (pB + bIdx + w b * 2) in
              let vB3 := vld1q_f32 m (pB + bIdx + w b * 3) in
              let cIdx := i * w c + j in
              let vC0 := vld1q_f32 m (pC + cIdx) in
              let vC0 := vfmaq_laneq_f32 vC0 vB0 vA0 0 in
              let vC0 := vfmaq_laneq_f32 vC0 vB1 vA0 1 in
              let vC0 := vfmaq_laneq_f32 vC0 vB2 vA0 2 in
              let vC0 := vfmaq_laneq_f32 vC0 vB3 vA0 3 in
              let m := vst1q_f32 m (pC + cIdx) vC0 in
              let vC1 := vld1q_f32 m (pC + cIdx + w c) in
              let vC1 := vfmaq_laneq_f32 vC1 vB0 vA1 0 in
              let vC1 := vfmaq_laneq_f32 vC1 vB1 vA1 1 in
              let vC1 := vfmaq_laneq_f32 vC1 vB2 vA1 2 in
              let vC1 := vfmaq_laneq_f32 vC1 vB3 vA1 3 in
              let m := vst1q_f32 m (pC + cIdx + w c) vC1 in
              let vC2 := vld1q_f32 m (pC + cIdx + w c * 2) in
              let vC2 := vfmaq_laneq_f32 vC2 vB0 vA2 0 in
              let vC2 := vfmaq_laneq_f32 vC2 vB1 vA2 1 in
              let vC2 := vfmaq_laneq_f32 vC2 vB2 vA2 2 in
              let vC2 := vfmaq_laneq_f32 vC2 vB3 vA2 3 in
              let m := vst1q_f32 m (pC + cIdx + w c * 2) vC2 in
              let vC3 := vld1q_f32 m (pC + cIdx + w c * 3) in
              let vC3 := vfmaq_laneq_f32 vC3 vB0 vA3 0 in
              let vC3 := vfmaq_laneq_f32 vC3 vB1 vA3 1 in
              let vC3 := vfmaq_laneq_f32 vC3 vB2 vA3 2 in
              let vC3 := vfmaq_laneq_f32 vC3 vB3 vA3 3 in
              let m := vst1q_f32 m (pC + cIdx + w c * 3) vC3 in
              m) m))
        m))
      m)
    else m.

(** *** GeMM::Optimize14 -- loop order kij, 4x4 register block, i, k and j aligned to four *)
Definition Optimize14 (neon : bool) (a b c : Matrix) (m : mem) : mem :=
  if negb (CheckParam a b c) then m
  else
    let pA := data a in
    let pB := data b in
    let pC := data c in
    if neon then
      snd (For 0 (Z.land (w a) (-4)) 4 (fun k m =>
        snd (For 0 (Z.land (h a) (-4)) 4 (fun i m =>
          let aIdx := i * w a + k in
          let vA0 := vld1q_f32 m (pA + aIdx) in
          let vA1 := vld1q_f32 m (pA + aIdx + w a) in
          let vA2 := vld1q_f32 m (pA + aIdx + w a * 2) in
          let vA3 := vld1q_f32 m (pA + aIdx + w a * 3) in
          snd (For 0 (Z.land (w b) (-4)) 4 (fun j m =>
              let bIdx := k * w b + j in
              let vB0 := vld1q_f32 m (pB + bIdx) in
              let vB1 := vld1q_f32 m (pB + bIdx + w b) in
              let vB2 := vld1q_f32 m (pB + bIdx + w b * 2) in
              let vB3 := vld1q_f32 m (pB + bIdx + w b * 3) in
              let cIdx := i * w c + j in
              let vC0 := vld1q_f32 m (pC + cIdx) in
              let vC0 := vfmaq_laneq_f32 vC0 vB0 vA0 0 in
              let vC0 := vfmaq_laneq_f32 vC0 vB1 vA0 1 in
              let vC0 := vfmaq_laneq_f32 vC0 vB2 vA0 2 in
              let vC0 := vfmaq_laneq_f32 vC0 vB3 vA0 3 in
              let m := vst1q_f32 m (pC + cIdx) vC0 in
              let vC1 := vld1q_f32 m (pC + cIdx + w c) in
              let vC1 := vfmaq_laneq_f32 vC1 vB0 vA1 0 in
              let vC1 := vfmaq_laneq_f32 vC1 vB1 vA1 1 in
              let vC1 := vfmaq_laneq_f32 vC1 vB2 vA1 2 in
              let vC1 := vfmaq_laneq_f32 vC1 vB3 vA1 3 in
              let m := vst1q_f32 m (pC + cIdx + w c) vC1 in
              let vC2 := vld1q_f32 m (pC + cIdx + w c * 2) in
              let vC2 := vfmaq_laneq_f32 vC2 vB0 vA2 0 in
              let vC2 := vfmaq_laneq_f32 vC2 vB1 vA2 1 in
              let vC2 := vfmaq_laneq_f32 vC2 vB2 vA2 2 in
              let vC2 := vfmaq_laneq_f32 vC2 vB3 vA2 3 in
              let m := vst1q_f32 m (pC + cIdx + w c * 2) vC2 in
              let vC3 := vld1q_f32 m (pC + cIdx + w c * 3) in
              let vC3 := vfmaq_laneq_f32 vC3 vB0 vA3 0 in
              let vC3 := vfmaq_laneq_f32 vC3 vB1 vA3 1 in
              let vC3 := vfmaq_laneq_f32 vC3 vB2 vA3 2 in
              let vC3 := vfmaq_laneq_f32 vC3 vB3 vA3 3 in
              let m := vst1q_f32 m (pC + cIdx + w c * 3) vC3 in
              m) m))
        m))
      m)
    else m.

(** *** GeMM::Optimize15 -- loop order ikj, 4x4 register block, i, k and j aligned to four, index bases hoisted *)
Definition Optimize15 (neon : bool) (a b c : Matrix) (m : mem) : mem :=
  if negb (CheckParam a b c) then m
  else
    let pA := data a in
    let pB := data b in
    let pC := data c in
    if neon then
      let aHAlign := Z.land (h a) (-4) in
      let aWAlign := Z.land (w a) (-4) in
      let bWAlign := Z.land (w b) (-4) in
      snd (For 0 aHAlign 4 (fun i m =>
        let aIdxBase := i * w a in
        let cIdxBase := i * w c in
        snd (For 0 aWAlign 4 (fun k m =>
          let aIdx := aIdxBase + k in
          let vA0 := vld1q_f32 m (pA + aIdx) in
          let vA1 := vld1q_f32 m (pA + aIdx + w a) in
          let vA2 := vld1q_f32 m (pA + aIdx + w a * 2) in
          let vA3 := vld1q_f32 m (pA + aIdx + w a * 3) in
          let bIdxBase := k * w b in
          snd (For 0 bWAlign 4 (fun j m =>
              let bIdx := bIdxBase + j in
              let vB0 := vld1q_f32 m (pB + bIdx) in
              let vB1 := vld1q_f32 m (pB + bIdx + w b) in
              let vB2 := vld1q_f32 m (pB + bIdx + w b * 2) in
              let vB3 := vld1q_f32 m (pB + bIdx + w b * 3) in
              let cIdx := cIdxBase + j in
              let vC0 := vld1q_f32 m (pC + cIdx) in
              let vC0 := vfmaq_laneq_f32 vC0 vB0 vA0 0 in
              let vC0 := vfmaq_laneq_f32 vC0 vB1 vA0 1 in
              let vC0 := vfmaq_laneq_f32 vC0 vB2 vA0 2 in
              let vC0 := vfmaq_laneq_f32 vC0 vB3 vA0 3 in
              let m := vst1q_f32 m (pC + cIdx) vC0 in
              let vC1 := vld1q_f32 m (pC + cIdx + w c) in
              let vC1 := vfmaq_laneq_f32 vC1 vB0 vA1 0 in
              let vC1 := vfmaq_laneq_f32 vC1 vB1 vA1 1 in
              let vC1 := vfmaq_laneq_f32 vC1 vB2 vA1 2 in
              let vC1 := vfmaq_laneq_f32 vC1 vB3 vA1 3 in
              let m := vst1q_f32 m (pC + cIdx + w c) vC1 in
              let vC2 := vld1q_f32 m (pC + cIdx + w c * 2) in
              let vC2 := vfmaq_laneq_f32 vC2 vB0 vA2 0 in
              let vC2 := vfmaq_laneq_f32 vC2 vB1 vA2 1 in
              let vC2 := vfmaq_laneq_f32 vC2 vB2 vA2 2 in
              let vC2 := vfmaq_laneq_f32 vC2 vB3 vA2 3 in
              let m := vst1q_f32 m (pC + cIdx + w c * 2) vC2 in
              let vC3 := vld1q_f32 m (pC + cIdx + w c * 3) in
              let vC3 := vfmaq_laneq_f32 vC3 vB0 vA3 0 in
              let vC3 := vfmaq_laneq_f32 vC3 vB1 vA3 1 in
              let vC3 := vfmaq_laneq_f32 vC3 vB2 vA3 2 in
              let vC3 := vfmaq_laneq_f32 vC3 vB3 vA3 3 in
              let m := vst1q_f32 m (pC + cIdx + w c * 3) vC3 in
              m) m))
        m))
      m)
    else m.

(** *** GeMM::Optimize16 -- loop order kij, 4x4 register block, i, k and j aligned to four, index bases hoisted *)
Definition Optimize16 (neon : bool) (a b c : Matrix) (m : mem) : mem :=
  if negb (CheckParam a b c) then m
  else
    let pA := data a in
    let pB := data b in
    let pC := data c in
    if neon then
      let aHAlign := Z.land (h a) (-4) in
      let aWAlign := Z.land (w a) (-4) in
      let bWAlign := Z.land (w b) (-4) in
      snd (For 0 aWAlign 4 (fun k m =>
        let bIdxBase := k * w b in
        snd (For 0 aHAlign 4 (fun i m =>
          let aIdxBase := i * w a in
          let cIdxBase := i * w c in
          let aIdx := aIdxBase + k in
          let vA0 := vld1q_f32 m (pA + aIdx) in
          let vA1 := vld1q_f32 m (pA + aIdx + w a) in
          let vA2 := vld1q_f32 m (pA + aIdx + w a * 2) in
          let vA3 := vld1q_f32 m (pA + aIdx + w a * 3) in
          snd (For 0 bWAlign 4 (fun j m =>
              let bIdx := bIdxBase + j in
              let vB0 := vld1q_f32 m (pB + bIdx) in
              let vB1 := vld1q_f32 m (pB + bIdx + w b) in
              let vB2 := vld1q_f32 m (pB + bIdx + w b * 2) in
              let vB3 := vld1q_f32 m (pB + bIdx + w b * 3) in
              let cIdx := cIdxBase + j in
              let vC0 := vld1q_f32 m (pC + cIdx) in
              let vC0 := vfmaq_laneq_f32 vC0 vB0 vA0 0 in
              let vC0 := vfmaq_laneq_f32 vC0 vB1 vA0 1 in
              let vC0 := vfmaq_laneq_f32 vC0 vB2 vA0 2 in
              let vC0 := vfmaq_laneq_f32 vC0 vB3 vA0 3 in
              let m := vst1q_f32 m (pC + cIdx) vC0 in
              let vC1 := vld1q_f32 m (pC + cIdx + w c) in
              let vC1 := vfmaq_laneq_f32 vC1 vB0 vA1 0 in
              let vC1 := vfmaq_laneq_f32 vC1 vB1 vA1 1 in
              let vC1 := vfmaq_laneq_f32 vC1 vB2 vA1 2 in
              let vC1 := vfmaq_laneq_f32 vC1 vB3 vA1 3 in
              let m := vst1q_f32 m (pC + cIdx + w c) vC1 in
              let vC2 := vld1q_f32 m (pC + cIdx + w c * 2) in
              let vC2 := vfmaq_laneq_f32 vC2 vB0 vA2 0 in
              let vC2 := vfmaq_laneq_f32 vC2 vB1 vA2 1 in
              let vC2 := vfmaq_laneq_f32 vC2 vB2 vA2 2 in
              let vC2 := vfmaq_laneq_f32 vC2 vB3 vA2 3 in
              let m := vst1q_f32 m (pC + cIdx + w c * 2) vC2 in
              let vC3 := vld1q_f32 m (pC + cIdx + w c * 3) in
              let vC3 := vfmaq_laneq_f32 vC3 vB0 vA3 0 in
              let vC3 := vfmaq_laneq_f32 vC3 vB1 vA3 1 in
              let vC3 := vfmaq_laneq_f32 vC3 vB2 vA3 2 in
              let vC3 := vfmaq_laneq_f32 vC3 vB3 vA3 3 in
              let m := vst1q_f32 m (pC + cIdx + w c * 3) vC3 in
              m) m))
        m))
      m)
    else m.

(** *** The table of optimized kernels of the driver (src/main.cpp, [tests]) *)
Definition tests (neon : bool) : list (Matrix -> Matrix -> Matrix -> mem -> mem) :=
  [ Optimize1; Optimize2; Optimize3; Optimize4;
    Optimize5 neon; Optimize6 neon; Optimize7; Optimize8;
    Optimize9 neon; Optimize10 neon; Optimize11 neon; Optimize12 neon;
    Optimize13 neon; Optimize14 neon; Optimize15 neon; Optimize16 neon ].
End GeMM.

(** ** Facts about the loop combinators *)

Section LoopFacts.
Context {S : Type}.

Lemma for_loop_fuel (body : Z -> S -> S) (bound step : Z) :
  0 < step ->
  forall (fuel fuel' : nat) (i : Z) (s : S),
    (Z.to_nat (bound - i) <= fuel)%nat ->
    (Z.to_nat (bound - i) <= fuel')%nat ->
    for_loop fuel i bound step body s = for_loop fuel' i bound step body s.
Proof.
  intros Hstep fuel.
  induction fuel as [|fuel IH]; intros [|fuel'] i s Hle Hle'; simpl;
    try reflexivity.
  - destruct (Z.ltb_spec i bound); [lia|reflexivity].
  - destruct (Z.ltb_spec i bound); [lia|reflexivity].
  - destruct (Z.ltb_spec i bound); [|reflexivity].
    apply IH; lia.
Qed.

Lemma For_unfold (body : Z -> S -> S) (i0 bound step : Z) (s : S) :
  0 < step ->
  For i0 bound step body s =
  if i0 <? bound then For (i0 + step) bound step body (body i0 s) else (i0, s).
Proof.
  intros Hstep. unfold For.
  destruct (Z.ltb_spec i0 bound) as [Hlt|Hge].
  - destruct (Z.to_nat (bound - i0)) as [|n] eqn:En; [lia|].
    simpl. destruct (Z.ltb_spec i0 bound); [|lia].
    apply for_loop_fuel; lia.
  - replace (Z.to_nat (bound - i0)) with O by lia. reflexivity.
Qed.

(** The invariant rule: the loop terminates (the fuel of [For] suffices),
    the invariant holds at exit and the exit test has failed. *)
Lemma For_inv (P : Z -> S -> Prop) (body : Z -> S -> S) (bound step : Z) :
  0 < step ->
  (forall i s, i < bound -> P i s -> P (i + step) (body i s)) ->
  forall i0 s, P i0 s ->
    P (fst (For i0 bound step body s)) (snd (For i0 bound step body s)) /\
    bound <= fst (For i0 bound step body s).
Proof.
  intros Hstep Hbody i0 s.
  remember (Z.to_nat (bound - i0)) as n eqn:En.
  revert i0 s En.
  induction n as [n IH] using lt_wf_ind; intros i0 s En HP.
  rewrite For_unfold by assumption.
  destruct (Z.ltb_spec i0 bound) as [Hlt|Hge].
  - apply (IH (Z.to_nat (bound - (i0 + step)))); [lia|reflexivity|].
    apply Hbody; assumption.
  - simpl. split; [assumption|lia].
Qed.

Lemma For_nop (body : Z -> S -> S) (i0 bound step : Z) (s : S) :
  bound <= i0 -> For i0 bound step body s = (i0, s).
Proof.
  intros Hge. unfold For.
  replace (Z.to_nat (bound - i0)) with O by lia. reflexivity.
Qed.

(** A loop whose bound is reached exactly: it stops at [Z.max i0 bound]. *)
Lemma For_exact (P : Z -> S -> Prop) (body : Z -> S -> S) (i0 bound step : Z) (s : S) :
  0 < step -> (step | bound - i0) ->
  P i0 s ->
  (forall x s', i0 <= x -> x + step <= bound -> P x s' -> P (x + step) (body x s')) ->
  fst (For i0 bound step body s) = Z.max i0 bound /\
  P (Z.max i0 bound) (snd (For i0 bound step body s)).
Proof.
  intros Hstep Hdiv HP Hbody.
  pose (Q := fun x s' => (x = i0 \/ x <= bound) /\ i0 <= x /\ (step | x - i0) /\ P x s').
  destruct (For_inv Q body bound step Hstep) with (i0 := i0) (s := s)
    as [(Hx & Hle & _ & HPx) Hexit].
  - intros x s' Hlt (Hx & Hle & Hdx & HPx).
    assert (Hnext : x + step <= bound).
    { destruct Hdiv as [q Hq]. destruct Hdx as [r Hr].
      assert (Hqr : (q - r) * step = bound - x) by lia.
      assert (0 < q - r) by nia. nia. }
    repeat split; try lia.
    + destruct Hdx as [r Hr]. exists (r + 1). lia.
    + apply Hbody; assumption.
  - repeat split; try lia; [exists 0; lia|assumption].
  - assert (E : fst (For i0 bound step body s) = Z.max i0 bound) by lia.
    split; [exact E|]. rewrite <- E. exact HPx.
Qed.

Lemma ForReturn_unfold {R : Type} (body : Z -> option R) (i0 bound : Z) :
  ForReturn i0 bound body =
  if i0 <? bound
  then match body i0 with
       | Some r => Some r
       | None => ForReturn (i0 + 1) bound body
       end
  else None.
Proof.
  unfold ForReturn.
  destruct (Z.ltb_spec i0 bound) as [Hlt|Hge].
  - destruct (Z.to_nat (bound - i0)) as [|n] eqn:En; [lia|].
    simpl. destruct (Z.ltb_spec i0 bound); [|lia].
    replace (Z.to_nat (bound - (i0 + 1))) with n by lia. reflexivity.
  - replace (Z.to_nat (bound - i0)) with O by lia. reflexivity.
Qed.

(** The loop runs to its end exactly when no iteration returns. *)
Lemma ForReturn_None {R : Type} (body : Z -> option R) (bound : Z) :
  forall i0,
    ForReturn i0 bound body = None <->
    (forall i, i0 <= i < bound -> body i = None).
Proof.
  intros i0.
  remember (Z.to_nat (bound - i0)) as n eqn:En.
  revert i0 En.
  induction n as [|n IH]; intros i0 En; rewrite ForReturn_unfold.
  - destruct (Z.ltb_spec i0 bound); [lia|].
    split; [intros _ i Hi; lia|reflexivity].
  - destruct (Z.ltb_spec i0 bound); [|lia].
    destruct (body i0) as [r|] eqn:Eb.
    + split; [discriminate|].
      intros Hall. rewrite <- Eb. apply Hall. lia.
    + rewrite (IH (i0 + 1)) by lia.
      split; intros Hall i Hi.
      * destruct (Z.eq_dec i i0) as [->|Hne]; [assumption|].
        apply Hall. lia.
      * apply Hall. lia.
Qed.

(** A returned value comes from the first iteration that returns. *)
Lemma ForReturn_Some {R : Type} (body : Z -> option R) (bound : Z) (r : R) :
  forall i0,
    ForReturn i0 bound body = Some r ->
    exists i, i0 <= i < bound /\ body i = Some r.
Proof.
  intros i0.
  remember (Z.to_nat (bound - i0)) as n eqn:En.
  revert i0 En.
  induction n as [|n IH]; intros i0 En; rewrite ForReturn_unfold.
  - destruct (Z.ltb_spec i0 bound); [lia|discriminate].
  - destruct (Z.ltb_spec i0 bound); [|lia].
    destruct (body i0) as [r'|] eqn:Eb.
    + intros [= ->]. exists i0. split; [lia|assumption].
    + intros Hr. destruct (IH (i0 + 1) ltac:(lia) Hr) as (i & Hi & Hbi).
      exists i. split; [lia|assumption].
Qed.
End LoopFacts.

(** ** What a kernel computes: blocks of accumulation steps *)

Section Accumulate.
Context {F : Type}.

(** [accumulate op A B k0 n c0]: starting from [c0], the [n] steps
    [c = op c (A k) (B k)] for [k = k0, k0+1, ..] in this order. *)
Fixpoint accumulate (op : F -> F -> F -> F) (A B : Z -> F)
  (k0 : Z) (n : nat) (c0 : F) : F :=
  match n with
  | O => c0
  | S n' => accumulate op A B (k0 + 1) n' (op c0 (A k0) (B k0))
  end.

Lemma accumulate_app op A B n1 : forall n2 k0 c0,
  accumulate op A B k0 (n1 + n2) c0 =
  accumulate op A B (k0 + Z.of_nat n1) n2 (accumulate op A B k0 n1 c0).
Proof.
  induction n1 as [|n1 IH]; intros n2 k0 c0.
  - simpl. rewrite Z.add_0_r. reflexivity.
  - cbn [Nat.add accumulate]. rewrite IH. f_equal. lia.
Qed.

Lemma accumulate_ext op op' A A' B B' n : forall k0 c0,
  (forall k x, k0 <= k < k0 + Z.of_nat n ->
               op x (A k) (B k) = op' x (A' k) (B' k)) ->
  accumulate op A B k0 n c0 = accumulate op' A' B' k0 n c0.
Proof.
  induction n as [|n IH]; intros k0 c0 Hext; [reflexivity|].
  cbn [accumulate]. rewrite Hext by lia.
  apply IH. intros k x Hk. apply Hext. lia.
Qed.
End Accumulate.

Lemma land_m4 (x : Z) : Z.land x (-4) = 4 * (x / 4).
Proof.
  change (-4) with (Z.lnot (Z.ones 2)).
  rewrite <- Z.ldiff_land, Z.ldiff_ones_r by lia.
  rewrite Z.shiftl_mul_pow2, Z.shiftr_div_pow2 by lia.
  change (2 ^ 2) with 4. lia.
Qed.

Lemma land_m4_bounds (x : Z) :
  Z.land x (-4) <= x < Z.land x (-4) + 4 /\ Z.land x (-4) mod 4 = 0.
Proof.
  rewrite land_m4.
  pose proof (Z.mod_pos_bound x 4 ltac:(lia)).
  pose proof (Z.div_mod x 4 ltac:(lia)).
  split; [lia|].
  rewrite Z.mul_comm. apply Z.mod_mul. lia.
Qed.

Lemma index_bounds (i j hh ww : Z) :
  0 <= i < hh -> 0 <= j < ww -> 0 <= i * ww + j < hh * ww.
Proof. intros Hi Hj. nia. Qed.

Ltac destruct_cmp :=
  repeat (match goal with
          | |- context [Z.eqb ?x ?y] => destruct (Z.eqb_spec x y)
          | |- context [Z.leb ?x ?y] => destruct (Z.leb_spec x y)
          | |- context [Z.ltb ?x ?y] => destruct (Z.ltb_spec x y)
          end; try (exfalso; lia); cbn [andb]).

(** Two buffers that do not overlap. *)
Definition separate (x y : Matrix) : Prop :=
  data x + h x * w x <= data y \/ data y + h y * w y <= data x.

Section Progress.
Context {F : Type} {FO : FloatOps F}.
Variables a b c : Matrix.

(** The memory before the call; [A[i,k]] and [B[k,j]] are read from it. *)
Variable m0 : mem F.

(** The accumulation step of the kernel at hand, for column [j]. *)
Variable op : Z -> F -> F -> F -> F.

Definition Aval (i k : Z) : F := m0 (data a + (i * w a + k)).
Definition Bval (k j : Z) : F := m0 (data b + (k * w b + j)).

(** The cells of the buffer of [c]. *)
Definition inC (p : Z) : Prop := data c <= p < data c + h c * w c.

(** [cell N p]: the content of cell [p] once [N i j] accumulation steps
    [C[i,j] = op j C[i,j] A[i,k] B[k,j]], [k = 0, 1, ..], have been
    applied to each element [C[i,j]]; a cell outside the buffer of [c] is
    as before the call. *)
Definition cell (N : Z -> Z -> Z) (p : Z) : F :=
  let i := (p - data c) / w c in
  let j := (p - data c) mod w c in
  if (0 <? w c) && (0 <=? i) && (i <? h c)
  then accumulate (op j) (Aval i) (fun k => Bval k j) 0 (Z.to_nat (N i j)) (m0 p)
  else m0 p.

Definition state (N : Z -> Z -> Z) (m : mem F) : Prop :=
  forall p, m p = cell N p.

Definition bump (N : Z -> Z -> Z) (i j d : Z) : Z -> Z -> Z :=
  fun i' j' => if (i' =? i) && (j' =? j) then N i' j' + d else N i' j'.

Lemma decode_enc (i j : Z) :
  0 <= j < w c ->
  (data c + (i * w c + j) - data c) / w c = i /\
  (data c + (i * w c + j) - data c) mod w c = j.
Proof.
  intros Hj.
  replace (data c + (i * w c + j) - data c) with (j + i * w c) by lia.
  rewrite Z.div_add, Z.mod_add by lia.
  rewrite Z.div_small, Z.mod_small by lia. lia.
Qed.

Lemma cell_at N (i j p : Z) :
  0 <= i < h c -> 0 <= j < w c -> p = data c + (i * w c + j) ->
  cell N p =
  accumulate (op j) (Aval i) (fun k => Bval k j) 0 (Z.to_nat (N i j)) (m0 p).
Proof.
  intros Hi Hj ->. unfold cell.
  destruct (decode_enc i j Hj) as [-> ->].
  destruct (Z.ltb_spec 0 (w c)); [|lia].
  destruct (Z.leb_spec 0 i); [|lia].
  destruct (Z.ltb_spec i (h c)); [|lia].
  reflexivity.
Qed.

(** Every cell that [cell] may change is an element of [c]. *)
Lemma cell_cases N (p : Z) :
  cell N p = m0 p \/
  exists i j, 0 <= i < h c /\ 0 <= j < w c /\ p = data c + (i * w c + j).
Proof.
  unfold cell.
  destruct (Z.ltb_spec 0 (w c)) as [Hw|Hw]; [|left; reflexivity].
  pose proof (Z.mod_pos_bound (p - data c) (w c) Hw) as Hmod.
  pose proof (Z.div_mod (p - data c) (w c) ltac:(lia)) as Hdm.
  set (i := (p - data c) / w c) in *.
  set (j := (p - data c) mod w c) in *.
  destruct (Z.leb_spec 0 i); [|left; reflexivity].
  destruct (Z.ltb_spec i (h c)); [|left; reflexivity].
  right. exists i, j. repeat split; lia.
Qed.

Lemma cell_notinC N (p : Z) : ~ inC p -> cell N p = m0 p.
Proof.
  intros Hout.
  destruct (cell_cases N p) as [E|(i & j & Hi & Hj & ->)]; [exact E|].
  exfalso. apply Hout. unfold inC.
  pose proof (index_bounds i j (h c) (w c) Hi Hj). lia.
Qed.

Lemma cell_ext N N' (p : Z) :
  (forall i j, 0 <= i < h c -> 0 <= j < w c -> N i j = N' i j) ->
  cell N p = cell N' p.
Proof.
  intros Hext.
  destruct (cell_cases N p) as [E|(i & j & Hi & Hj & ->)].
  - unfold cell in *.
    destruct ((0 <? w c) && (0 <=? (p - data c) / w c) &&
              ((p - data c) / w c <? h c)) eqn:Eb; [|reflexivity].
    rewrite !andb_true_iff in Eb. destruct Eb as ((Eb1 & Eb2) & Eb3).
    apply Z.ltb_lt in Eb1, Eb3. apply Z.leb_le in Eb2.
    rewrite <- Hext; [reflexivity|lia|].
    apply Z.mod_pos_bound. assumption.
  - rewrite !(cell_at _ i j) by (assumption || reflexivity).
    rewrite Hext by assumption. reflexivity.
Qed.

Lemma state_init : state (fun _ _ => 0) m0.
Proof.
  intros p. unfold cell.
  destruct ((0 <? w c) && (0 <=? (p - data c) / w c) &&
            ((p - data c) / w c <? h c)); reflexivity.
Qed.

Lemma state_ext N N' m :
  (forall i j, 0 <= i < h c -> 0 <= j < w c -> N i j = N' i j) ->
  state N m -> state N' m.
Proof.
  intros Hext Hst p. rewrite Hst. apply cell_ext, Hext.
Qed.

Lemma state_at N m (i j : Z) :
  state N m -> 0 <= i < h c -> 0 <= j < w c ->
  m (data c + (i * w c + j)) =
  accumulate (op j) (Aval i) (fun k => Bval k j) 0 (Z.to_nat (N i j))
    (m0 (data c + (i * w c + j))).
Proof.
  intros Hst Hi Hj. rewrite Hst. apply cell_at; auto.
Qed.

Lemma state_frame N m (p : Z) : state N m -> ~ inC p -> m p = m0 p.
Proof. intros Hst Hout. rewrite Hst. apply cell_notinC, Hout. Qed.

(** The store of [n] further steps into element [C[i,j]]. *)
Lemma state_store N m (i j k e : Z) (n : nat) (v : F) :
  state N m ->
  0 <= i < h c -> 0 <= j < w c -> 0 <= k -> N i j = k ->
  e = data c + (i * w c + j) ->
  v = accumulate (op j) (Aval i) (fun k' => Bval k' j) k n (m e) ->
  state (bump N i j (Z.of_nat n)) (store m e v).
Proof.
  intros Hst Hi Hj Hk HN -> -> p. unfold store.
  destruct (Z.eqb_spec p (data c + (i * w c + j))) as [->|Hne].
  - rewrite (cell_at _ i j) by (assumption || reflexivity).
    rewrite (state_at N m i j Hst Hi Hj).
    unfold bump. rewrite !Z.eqb_refl. simpl.
    replace (Z.to_nat (N i j + Z.of_nat n)) with (Z.to_nat (N i j) + n)%nat by lia.
    rewrite accumulate_app. f_equal. lia.
  - rewrite Hst.
    destruct (cell_cases N p) as [E|(i' & j' & Hi' & Hj' & ->)].
    + destruct (cell_cases (bump N i j (Z.of_nat n)) p)
        as [E'|(i' & j' & Hi' & Hj' & ->)]; [congruence|].
      rewrite !(cell_at _ i' j') by (assumption || reflexivity).
      unfold bump.
      destruct (Z.eqb_spec i' i) as [->|]; [|reflexivity].
      destruct (Z.eqb_spec j' j) as [->|]; [congruence|reflexivity].
    + rewrite !(cell_at _ i' j') by (assumption || reflexivity).
      unfold bump.
      destruct (Z.eqb_spec i' i) as [->|]; [|reflexivity].
      destruct (Z.eqb_spec j' j) as [->|]; [congruence|reflexivity].
Qed.

(** *** Reads of [A] and [B] during the call *)

Hypothesis Hwa : w a = h b.
Hypothesis HsepA : separate c a.
Hypothesis HsepB : separate c b.

Lemma readA N m (q i k : Z) :
  state N m -> q = data a + (i * w a + k) ->
  0 <= i < h a -> 0 <= k < w a ->
  m q = Aval i k.
Proof.
  intros Hst -> Hi Hk. unfold Aval. apply (state_frame N); [assumption|].
  unfold inC. pose proof (index_bounds i k (h a) (w a) Hi Hk).
  destruct HsepA; lia.
Qed.

Lemma readB N m (q k j : Z) :
  state N m -> q = data b + (k * w b + j) ->
  0 <= k < w a -> 0 <= j < w b ->
  m q = Bval k j.
Proof.
  intros Hst -> Hk Hj. unfold Bval. apply (state_frame N); [assumption|].
  unfold inC. pose proof (index_bounds k j (h b) (w b) ltac:(lia) Hj).
  destruct HsepB; lia.
Qed.

Hypothesis Hha : h a = h c.
Hypothesis Hwb : w b = w c.

(** [d] more steps on the elements of rows [i0..i1) and columns [j0..j1). *)
Definition addN (N : Z -> Z -> Z) (i0 i1 j0 j1 d : Z) : Z -> Z -> Z :=
  fun i j =>
    if (i0 <=? i) && (i <? i1) && (j0 <=? j) && (j <? j1)
    then N i j + d else N i j.

(** The three accumulation steps found in the kernels. *)
Definition scalar_at (j : Z) : Prop :=
  forall z x y, op j z x y = fadd z (fmul x y).
Definition fused_at (j : Z) : Prop :=
  forall z x y, op j z x y = fma z x y.
Definition lane_at (j : Z) : Prop :=
  forall z x y, op j z x y = fma z y x.

(** Steps added to the four columns [j .. j+3] of row [i]. *)
Definition cols (N : Z -> Z -> Z) (i j d0 d1 d2 d3 : Z) : Z -> Z -> Z :=
  fun i' j' =>
    if i' =? i then
      if j' =? j then N i' j' + d0
      else if j' =? j + 1 then N i' j' + d1
      else if j' =? j + 2 then N i' j' + d2
      else if j' =? j + 3 then N i' j' + d3
      else N i' j'
    else N i' j'.

Ltac Nsolve := intros; unfold addN, bump, cols; destruct_cmp; try lia.

(** [pC[i * c.w + j] += x * pB[k * b.w + j]] with [x] the value of [A[i,k]]. *)
Lemma state_add_assign N m (i j k e q : Z) (x : F) :
  state N m ->
  0 <= i < h c -> 0 <= j < w c -> 0 <= k < w a -> N i j = k ->
  e = data c + (i * w c + j) -> x = Aval i k -> q = data b + (k * w b + j) ->
  scalar_at j ->
  state (bump N i j 1) (add_assign m e (fmul x (m q))).
Proof.
  intros Hst Hi Hj Hk HN He Hx Hq Hop. unfold add_assign.
  apply (state_store N m i j k e 1); try assumption; try lia.
  cbn [accumulate]. rewrite Hop, Hx.
  rewrite (readB N m q k j); auto; lia.
Qed.

(** **** Origin *)

Lemma Origin_k_loop N m (i j : Z) :
  state N m -> 0 <= i < h c -> 0 <= j < w c -> N i j = 0 -> scalar_at j ->
  state (bump N i j (Z.max 0 (w a)))
    (snd (For 0 (w a) 1 (fun k m =>
            add_assign m (data c + (i * w c + j))
              (fmul (m (data a + (i * w a + k))) (m (data b + (k * w b + j)))))
          m)).
Proof.
  intros Hst Hi Hj HN Hop.
  apply (For_exact (fun k m' => state (bump N i j k) m')); try lia.
  - exists (w a). lia.
  - eapply state_ext; [|exact Hst]. Nsolve.
  - intros k m' Hk0 Hk1 Hst'.
    eapply state_ext;
      [|eapply (state_add_assign _ m' i j k); eauto; try lia].
    + Nsolve.
    + unfold bump. rewrite !Z.eqb_refl. cbn [andb]. lia.
    + eapply readA; eauto; lia.
Qed.

Lemma Origin_j_loop N m (i : Z) :
  state N m -> 0 <= i < h c ->
  (forall j, 0 <= j < w c -> N i j = 0) -> (forall j, scalar_at j) ->
  state (addN N i (i + 1) 0 (w b) (Z.max 0 (w a)))
    (snd (For 0 (w b) 1 (fun j m =>
       snd (For 0 (w a) 1 (fun k m =>
              add_assign m (data c + (i * w c + j))
                (fmul (m (data a + (i * w a + k))) (m (data b + (k * w b + j)))))
            m)) m)).
Proof.
  intros Hst Hi HN Hop.
  eapply state_ext;
    [|apply (For_exact (fun j m' => state (addN N i (i + 1) 0 j (Z.max 0 (w a))) m'));
      try lia].
  - Nsolve.
  - exists (w b). lia.
  - eapply state_ext; [|exact Hst]. Nsolve.
  - intros j m' Hj0 Hj1 Hst'.
    eapply state_ext; [|apply Origin_k_loop; eauto; try lia].
    + Nsolve.
    + unfold addN. destruct_cmp; cbn [andb]; try lia. apply HN; lia.
Qed.

Lemma Origin_state :
  CheckParam a b c = true -> (forall j, scalar_at j) ->
  state (addN (fun _ _ => 0) 0 (h a) 0 (w b) (Z.max 0 (w a))) (Origin a b c m0).
Proof.
  intros Hck Hop. unfold Origin. rewrite Hck. cbn [negb].
  eapply state_ext;
    [|apply (For_exact (fun i m' =>
               state (addN (fun _ _ => 0) 0 i 0 (w b) (Z.max 0 (w a))) m'));
      try lia].
  - Nsolve.
  - exists (h a). lia.
  - eapply state_ext; [|exact state_init]. Nsolve.
  - intros i m' Hi0 Hi1 Hst'.
    eapply state_ext; [|apply Origin_j_loop; eauto; try lia].
    + Nsolve.
    + Nsolve.
Qed.

(** *** Loops over passes

    A pass adds [d] steps to a block of elements that all stand at step
    [k]; the three lemmas below iterate a pass along the columns, along
    the contraction index and along the rows. *)

Lemma loop_j (pass : Z -> mem F -> mem F) (i0 i1 j0 Jb s k d : Z) N m :
  0 < s -> (s | Jb - j0) -> 0 <= j0 -> Jb <= w c ->
  (forall N m j, j0 <= j -> j + s <= Jb -> state N m ->
     (forall i' j', i0 <= i' < i1 -> j <= j' < j + s -> N i' j' = k) ->
     state (addN N i0 i1 j (j + s) d) (pass j m)) ->
  state N m ->
  (forall i' j', i0 <= i' < i1 -> j0 <= j' < Jb -> N i' j' = k) ->
  fst (For j0 Jb s pass m) = Z.max j0 Jb /\
  state (addN N i0 i1 j0 (Z.max j0 Jb) d) (snd (For j0 Jb s pass m)).
Proof.
  intros Hs Hdiv Hj0 HJb Hpass Hst HN.
  apply (For_exact (fun j m' => state (addN N i0 i1 j0 j d) m')); try assumption.
  - eapply state_ext; [|exact Hst]. Nsolve.
  - intros j m' Hj Hj' Hst'.
    eapply state_ext; [|apply Hpass; [exact Hj|exact Hj'|exact Hst'|]].
    + Nsolve.
    + intros i' j' Hi' Hjj. unfold addN. destruct_cmp; cbn [andb]; try lia.
      all: apply HN; lia.
Qed.

Lemma loop_k (pass : Z -> mem F -> mem F) (i0 i1 W' k0 Kb d : Z) N m :
  0 < d -> (d | Kb - k0) ->
  (forall N m k, k0 <= k -> k + d <= Kb -> state N m ->
     (forall i' j', i0 <= i' < i1 -> 0 <= j' < W' -> N i' j' = k) ->
     state (addN N i0 i1 0 W' d) (pass k m)) ->
  state N m ->
  (forall i' j', i0 <= i' < i1 -> 0 <= j' < W' -> N i' j' = k0) ->
  fst (For k0 Kb d pass m) = Z.max k0 Kb /\
  state (addN N i0 i1 0 W' (Z.max k0 Kb - k0)) (snd (For k0 Kb d pass m)).
Proof.
  intros Hd Hdiv Hpass Hst HN.
  apply (For_exact (fun k m' => state (addN N i0 i1 0 W' (k - k0)) m')); try assumption.
  - eapply state_ext; [|exact Hst]. Nsolve.
  - intros k m' Hk Hk' Hst'.
    eapply state_ext; [|apply Hpass; [exact Hk|exact Hk'|exact Hst'|]].
    + Nsolve.
    + intros i' j' Hi' Hjj. unfold addN. destruct_cmp; cbn [andb]; try lia.
      rewrite HN by lia. lia.
Qed.

Lemma loop_i (pass : Z -> mem F -> mem F) (Hb e W' k d : Z) N m :
  0 < e -> (e | Hb - 0) ->
  (forall N m i, 0 <= i -> i + e <= Hb -> state N m ->
     (forall i' j', i <= i' < i + e -> 0 <= j' < W' -> N i' j' = k) ->
     state (addN N i (i + e) 0 W' d) (pass i m)) ->
  state N m ->
  (forall i' j', 0 <= i' < Hb -> 0 <= j' < W' -> N i' j' = k) ->
  state (addN N 0 Hb 0 W' d) (snd (For 0 Hb e pass m)).
Proof.
  intros He Hdiv Hpass Hst HN.
  eapply state_ext;
    [|apply (For_exact (fun i m' => state (addN N 0 i 0 W' d) m')); try assumption].
  - Nsolve.
  - eapply state_ext; [|exact Hst]. Nsolve.
  - intros i m' Hi Hi' Hst'.
    eapply state_ext; [|apply Hpass; [exact Hi|exact Hi'|exact Hst'|]].
    + Nsolve.
    + intros i' j' Hii Hjj. unfold addN. destruct_cmp; cbn [andb]; try lia.
      all: apply HN; lia.
Qed.

(** *** The loop bodies of the scalar kernels *)

Ltac side HN :=
  first
    [ assumption
    | reflexivity
    | lia
    | match goal with
      | H : forall j', _ -> scalar_at j' |- scalar_at _ => apply H; lia
      | H : forall j', _ -> fused_at j' |- fused_at _ => apply H; lia
      | H : forall j', _ -> lane_at j' |- lane_at _ => apply H; lia
      end
    | solve [unfold bump, cols; destruct_cmp; try lia;
             try (rewrite HN by lia); lia] ].

(** One statement [pC[..] += x * pB[..]] at the head of a body; [N1] is
    the progress after it. *)
Ltac peel_update i j k HN N1 :=
  lazymatch goal with
  | |- state ?N' (let x := add_assign ?m ?e ?v in @?body x) =>
      lazymatch goal with
      | Hst : state ?N m |- _ =>
          let Hn := fresh "Hst" in
          assert (Hn : state N1 (add_assign m e v))
            by (eapply state_ext;
                [|eapply (state_add_assign N m i j k); side HN]; Nsolve);
          change (state N' (body (add_assign m e v)));
          revert Hn; generalize (add_assign m e v);
          let y := fresh "m" in intros y Hn; cbv beta;
          clear Hst
      end
  end.

(** Column [j] of row [i], one step. *)
Definition upd1 (i k : Z) (a0 : F) : Z -> mem F -> mem F := fun j m =>
  add_assign m (data c + (i * w c + j)) (fmul a0 (m (data b + (k * w b + j)))).

Lemma upd1_pass (i k : Z) (a0 : F) N m (j : Z) :
  0 <= i < h c -> 0 <= k < w a -> a0 = Aval i k ->
  0 <= j -> j + 1 <= w b -> (forall j', j <= j' < j + 1 -> scalar_at j') ->
  state N m ->
  (forall i' j', i <= i' < i + 1 -> j <= j' < j + 1 -> N i' j' = k) ->
  state (addN N i (i + 1) j (j + 1) 1) (upd1 i k a0 j m).
Proof.
  intros Hi Hk Ha Hj Hjw Hop Hst HN. unfold upd1.
  eapply state_ext;
    [|eapply (state_add_assign N m i j k); try eassumption; try lia].
  - Nsolve.
  - apply HN; lia.
  - apply Hop; lia.
Qed.

(** Columns [j .. j+3] of row [i], one step each. *)
Definition upd4 (i k : Z) (a0 : F) : Z -> mem F -> mem F := fun j m =>
  let m := add_assign m (data c + (i * w c + j)) (fmul a0 (m (data b + (k * w b + j)))) in
  let m := add_assign m (data c + (i * w c + j + 1)) (fmul a0 (m (data b + (k * w b + j + 1)))) in
  let m := add_assign m (data c + (i * w c + j + 2)) (fmul a0 (m (data b + (k * w b + j + 2)))) in
  let m := add_assign m (data c + (i * w c + j + 3)) (fmul a0 (m (data b + (k * w b + j + 3)))) in
  m.

Lemma upd4_pass (i k : Z) (a0 : F) N m (j : Z) :
  0 <= i < h c -> 0 <= k < w a -> a0 = Aval i k ->
  0 <= j -> j + 4 <= w b -> (forall j', j <= j' < j + 4 -> scalar_at j') ->
  state N m ->
  (forall i' j', i <= i' < i + 1 -> j <= j' < j + 4 -> N i' j' = k) ->
  state (addN N i (i + 1) j (j + 4) 1) (upd4 i k a0 j m).
Proof.
  intros Hi Hk Ha Hj Hjw Hop Hst HN. cbv beta delta [upd4].
  assert (HN' : forall j', j <= j' < j + 4 -> N i j' = k)
    by (intros; apply HN; lia).
  peel_update i j k HN' (cols N i j 1 0 0 0).
  peel_update i (j + 1) k HN' (cols N i j 1 1 0 0).
  peel_update i (j + 2) k HN' (cols N i j 1 1 1 0).
  peel_update i (j + 3) k HN' (cols N i j 1 1 1 1).
  eapply state_ext; [|eassumption]. Nsolve.
Qed.

(** Column [j] of row [i], the four steps [k .. k+3]. *)
Definition upd1x4 (i k : Z) (a0 a1 a2 a3 : F) : Z -> mem F -> mem F := fun j m =>
  let m := add_assign m (data c + (i * w c + j)) (fmul a0 (m (data b + (k * w b + j)))) in
  let m := add_assign m (data c + (i * w c + j)) (fmul a1 (m (data b + ((k + 1) * w b + j)))) in
  let m := add_assign m (data c + (i * w c + j)) (fmul a2 (m (data b + ((k + 2) * w b + j)))) in
  let m := add_assign m (data c + (i * w c + j)) (fmul a3 (m (data b + ((k + 3) * w b + j)))) in
  m.

Lemma upd1x4_pass (i k : Z) (a0 a1 a2 a3 : F) N m (j : Z) :
  0 <= i < h c -> 0 <= k -> k + 4 <= w a ->
  a0 = Aval i k -> a1 = Aval i (k + 1) -> a2 = Aval i (k + 2) -> a3 = Aval i (k + 3) ->
  0 <= j -> j + 1 <= w b -> (forall j', j <= j' < j + 1 -> scalar_at j') ->
  state N m ->
  (forall i' j', i <= i' < i + 1 -> j <= j' < j + 1 -> N i' j' = k) ->
  state (addN N i (i + 1) j (j + 1) 4) (upd1x4 i k a0 a1 a2 a3 j m).
Proof.
  intros Hi Hk Hk' Ha0 Ha1 Ha2 Ha3 Hj Hjw Hop Hst HN. cbv beta delta [upd1x4].
  assert (HN' : forall j', j <= j' < j + 1 -> N i j' = k)
    by (intros; apply HN; lia).
  peel_update i j k HN' (bump N i j 1).
  peel_update i j (k + 1) HN' (bump N i j 2).
  peel_update i j (k + 2) HN' (bump N i j 3).
  peel_update i j (k + 3) HN' (bump N i j 4).
  eapply state_ext; [|eassumption]. Nsolve.
Qed.

(** Columns [j .. j+3] of row [i], the four steps [k .. k+3] each. *)
Definition upd16 (i k : Z) (a0 a1 a2 a3 : F) : Z -> mem F -> mem F := fun j m =>
  let m := add_assign m (data c + (i * w c + j)) (fmul a0 (m (data b + (k * w b + j)))) in
  let m := add_assign m (data c + (i * w c + j)) (fmul a1 (m (data b + ((k + 1) * w b + j)))) in
  let m := add_assign m (data c + (i * w c + j)) (fmul a2 (m (data b + ((k + 2) * w b + j)))) in
  let m := add_assign m (data c + (i * w c + j)) (fmul a3 (m (data b + ((k + 3) * w b + j)))) in

  let m := add_assign m (data c + (i * w c + j + 1)) (fmul a0 (m (data b + (k * w b + j + 1)))) in
  let m := add_assign m (data c + (i * w c + j + 1)) (fmul a1 (m (data b + ((k + 1) * w b + j + 1)))) in
  let m := add_assign m (data c + (i * w c + j + 1)) (fmul a2 (m (data b + ((k + 2) * w b + j + 1)))) in
  let m := add_assign m (data c + (i * w c + j + 1)) (fmul a3 (m (data b + ((k + 3) * w b + j + 1)))) in

  let m := add_assign m (data c + (i * w c + j + 2)) (fmul a0 (m (data b + (k * w b + j + 2)))) in
  let m := add_assign m (data c + (i * w c + j + 2)) (fmul a1 (m (data b + ((k + 1) * w b + j + 2)))) in
  let m := add_assign m (data c + (i * w c + j + 2)) (fmul a2 (m (data b + ((k + 2) * w b + j + 2)))) in
  let m := add_assign m (data c + (i * w c + j + 2)) (fmul a3 (m (data b + ((k + 3) * w b + j + 2)))) in

  let m := add_assign m (data c + (i * w c + j + 3)) (fmul a0 (m (data b + (k * w b + j + 3)))) in
  let m := add_assign m (data c + (i * w c + j + 3)) (fmul a1 (m (data b + ((k + 1) * w b + j + 3)))) in
  let m := add_assign m (data c + (i * w c + j + 3)) (fmul a2 (m (data b + ((k + 2) * w b + j + 3)))) in
  let m := add_assign m (data c + (i * w c + j + 3)) (fmul a3 (m (data b + ((k + 3) * w b + j + 3)))) in
  m.

Lemma upd16_pass (i k : Z) (a0 a1 a2 a3 : F) N m (j : Z) :
  0 <= i < h c -> 0 <= k -> k + 4 <= w a ->
  a0 = Aval i k -> a1 = Aval i (k + 1) -> a2 = Aval i (k + 2) -> a3 = Aval i (k + 3) ->
  0 <= j -> j + 4 <= w b -> (forall j', j <= j' < j + 4 -> scalar_at j') ->
  state N m ->
  (forall i' j', i <= i' < i + 1 -> j <= j' < j + 4 -> N i' j' = k) ->
  state (addN N i (i + 1) j (j + 4) 4) (upd16 i k a0 a1 a2 a3 j m).
Proof.
  intros Hi Hk Hk' Ha0 Ha1 Ha2 Ha3 Hj Hjw Hop Hst HN. cbv beta delta [upd16].
  assert (HN' : forall j', j <= j' < j + 4 -> N i j' = k)
    by (intros; apply HN; lia).
  peel_update i j k HN' (cols N i j 1 0 0 0).
  peel_update i j (k + 1) HN' (cols N i j 2 0 0 0).
  peel_update i j (k + 2) HN' (cols N i j 3 0 0 0).
  peel_update i j (k + 3) HN' (cols N i j 4 0 0 0).
  peel_update i (j + 1) k HN' (cols N i j 4 1 0 0).
  peel_update i (j + 1) (k + 1) HN' (cols N i j 4 2 0 0).
  peel_update i (j + 1) (k + 2) HN' (cols N i j 4 3 0 0).
  peel_update i (j + 1) (k + 3) HN' (cols N i j 4 4 0 0).
  peel_update i (j + 2) k HN' (cols N i j 4 4 1 0).
  peel_update i (j + 2) (k + 1) HN' (cols N i j 4 4 2 0).
  peel_update i (j + 2) (k + 2) HN' (cols N i j 4 4 3 0).
  peel_update i (j + 2) (k + 3) HN' (cols N i j 4 4 4 0).
  peel_update i (j + 3) k HN' (cols N i j 4 4 4 1).
  peel_update i (j + 3) (k + 1) HN' (cols N i j 4 4 4 2).
  peel_update i (j + 3) (k + 2) HN' (cols N i j 4 4 4 3).
  peel_update i (j + 3) (k + 3) HN' (cols N i j 4 4 4 4).
  eapply state_ext; [|eassumption]. Nsolve.
Qed.

(** *** The loop bodies of the vectorised kernels *)

(** [vst1q_f32] of four lanes that each hold [n] further steps. *)
Lemma state_vst N m (i j k e : Z) (n : nat) (v : float32x4_t) :
  state N m ->
  0 <= i < h c -> 0 <= j -> j + 4 <= w c -> 0 <= k ->
  (forall j', j <= j' < j + 4 -> N i j' = k) ->
  e = data c + (i * w c + j) ->
  lane0 v = accumulate (op j) (Aval i) (fun k' => Bval k' j) k n (m e) ->
  lane1 v = accumulate (op (j + 1)) (Aval i) (fun k' => Bval k' (j + 1)) k n (m (e + 1)) ->
  lane2 v = accumulate (op (j + 2)) (Aval i) (fun k' => Bval k' (j + 2)) k n (m (e + 2)) ->
  lane3 v = accumulate (op (j + 3)) (Aval i) (fun k' => Bval k' (j + 3)) k n (m (e + 3)) ->
  state (addN N i (i + 1) j (j + 4) (Z.of_nat n)) (vst1q_f32 m e v).
Proof.
  intros Hst Hi Hj Hjw Hk HN He H0 H1 H2 H3. unfold vst1q_f32.
  set (d := Z.of_nat n).
  assert (S0 : state (cols N i j d 0 0 0) (store m e (lane0 v))).
  { eapply state_ext; [|eapply (state_store N m i j k e n); side HN]. Nsolve. }
  assert (S1 : state (cols N i j d d 0 0)
                 (store (store m e (lane0 v)) (e + 1) (lane1 v))).
  { eapply state_ext;
      [|eapply (state_store _ _ i (j + 1) k (e + 1) n); [exact S0|try (side HN)..]].
    - Nsolve.
    - rewrite H1. f_equal. unfold store. destruct_cmp. reflexivity. }
  assert (S2 : state (cols N i j d d d 0)
                 (store (store (store m e (lane0 v)) (e + 1) (lane1 v))
                    (e + 2) (lane2 v))).
  { eapply state_ext;
      [|eapply (state_store _ _ i (j + 2) k (e + 2) n); [exact S1|try (side HN)..]].
    - Nsolve.
    - rewrite H2. f_equal. unfold store. destruct_cmp. reflexivity. }
  eapply state_ext;
    [|eapply (state_store _ _ i (j + 3) k (e + 3) n); [exact S2|try (side HN)..]].
  - Nsolve.
  - rewrite H3. f_equal. unfold store. destruct_cmp. reflexivity.
Qed.

(** Columns [j .. j+3] of row [i], one fused step each. *)
Definition vec1 (i k : Z) (vA0 : float32x4_t) : Z -> mem F -> mem F := fun j m =>
  let vB := vld1q_f32 m (data b + k * w b + j) in
  let vC := vld1q_f32 m (data c + i * w c + j) in
  let vC := vfmaq_f32 vC vA0 vB in
  vst1q_f32 m (data c + i * w c + j) vC.

Lemma vec1_pass (i k : Z) (a0 : F) (vA0 : float32x4_t) N m (j : Z) :
  0 <= i < h c -> 0 <= k < w a -> a0 = Aval i k -> vA0 = vdupq_n_f32 a0 ->
  0 <= j -> j + 4 <= w b -> (forall j', j <= j' < j + 4 -> fused_at j') ->
  state N m ->
  (forall i' j', i <= i' < i + 1 -> j <= j' < j + 4 -> N i' j' = k) ->
  state (addN N i (i + 1) j (j + 4) 1) (vec1 i k vA0 j m).
Proof.
  intros Hi Hk Ha HvA Hj Hjw Hop Hst HN. unfold vec1. subst vA0 a0.
  assert (HN' : forall j', j <= j' < j + 4 -> N i j' = k)
    by (intros; apply HN; lia).
  apply (state_vst N m i j k _ 1); try assumption; try lia;
    cbn [accumulate vfmaq_f32 vld1q_f32 vdupq_n_f32 lane0 lane1 lane2 lane3];
    rewrite Hop by lia; f_equal; eapply readB; eauto; lia.
Qed.

(** Columns [j .. j+3] of row [i], the four fused steps [k .. k+3] each. *)
Definition vec4 (i k : Z) (vA0 vA1 vA2 vA3 : float32x4_t)
  : Z -> mem F -> mem F := fun j m =>
  let vB0 := vld1q_f32 m (data b + k * w b + j) in
  let vB1 := vld1q_f32 m (data b + (k + 1) * w b + j) in
  let vB2 := vld1q_f32 m (data b + (k + 2) * w b + j) in
  let vB3 := vld1q_f32 m (data b + (k + 3) * w b + j) in
  let vC := vld1q_f32 m (data c + i * w c + j) in
  let vC := vfmaq_f32 vC vA0 vB0 in
  let vC := vfmaq_f32 vC vA1 vB1 in
  let vC := vfmaq_f32 vC vA2 vB2 in
  let vC := vfmaq_f32 vC vA3 vB3 in
  vst1q_f32 m (data c + i * w c + j) vC.

Lemma vec4_pass (i k : Z) (a0 a1 a2 a3 : F) (vA0 vA1 vA2 vA3 : float32x4_t) N m (j : Z) :
  0 <= i < h c -> 0 <= k -> k + 4 <= w a ->
  a0 = Aval i k -> a1 = Aval i (k + 1) -> a2 = Aval i (k + 2) -> a3 = Aval i (k + 3) ->
  vA0 = vdupq_n_f32 a0 -> vA1 = vdupq_n_f32 a1 ->
  vA2 = vdupq_n_f32 a2 -> vA3 = vdupq_n_f32 a3 ->
  0 <= j -> j + 4 <= w b -> (forall j', j <= j' < j + 4 -> fused_at j') ->
  state N m ->
  (forall i' j', i <= i' < i + 1 -> j <= j' < j + 4 -> N i' j' = k) ->
  state (addN N i (i + 1) j (j + 4) 4) (vec4 i k vA0 vA1 vA2 vA3 j m).
Proof.
  intros Hi Hk Hk' Ha0 Ha1 Ha2 Ha3 HvA0 HvA1 HvA2 HvA3 Hj Hjw Hop Hst HN.
  unfold vec4. subst vA0 vA1 vA2 vA3 a0 a1 a2 a3.
  assert (HN' : forall j', j <= j' < j + 4 -> N i j' = k)
    by (intros; apply HN; lia).
  apply (state_vst N m i j k _ 4); try assumption; try lia;
    cbn [accumulate vfmaq_f32 vld1q_f32 vdupq_n_f32 lane0 lane1 lane2 lane3];
    rewrite !Hop by lia;
    replace (k + 1 + 1) with (k + 2) by lia;
    replace (k + 2 + 1) with (k + 3) by lia;
    repeat f_equal; eapply readB; eauto; lia.
Qed.

(** The 4x4 register block: rows [i .. i+3], columns [j .. j+3], the four
    fused steps [k .. k+3] each. *)
Definition micro (i k : Z) (vA0 vA1 vA2 vA3 : float32x4_t)
  : Z -> mem F -> mem F := fun j m =>
  let bIdx := k * w b + j in
  let vB0 := vld1q_f32 m (data b + bIdx) in
  let vB1 := vld1q_f32 m (data b + bIdx + w b) in
  let vB2 := vld1q_f32 m (data b + bIdx + w b * 2) in
  let vB3 := vld1q_f32 m (data b + bIdx + w b * 3) in
  let cIdx := i * w c + j in
  let vC0 := vld1q_f32 m (data c + cIdx) in
  let vC0 := vfmaq_laneq_f32 vC0 vB0 vA0 0 in
  let vC0 := vfmaq_laneq_f32 vC0 vB1 vA0 1 in
  let vC0 := vfmaq_laneq_f32 vC0 vB2 vA0 2 in
  let vC0 := vfmaq_laneq_f32 vC0 vB3 vA0 3 in
  let m := vst1q_f32 m (data c + cIdx) vC0 in
  let vC1 := vld1q_f32 m (data c + cIdx + w c) in
  let vC1 := vfmaq_laneq_f32 vC1 vB0 vA1 0 in
  let vC1 := vfmaq_laneq_f32 vC1 vB1 vA1 1 in
  let vC1 := vfmaq_laneq_f32 vC1 vB2 vA1 2 in
  let vC1 := vfmaq_laneq_f32 vC1 vB3 vA1 3 in
  let m := vst1q_f32 m (data c + cIdx + w c) vC1 in
  let vC2 := vld1q_f32 m (data c + cIdx + w c * 2) in
  let vC2 := vfmaq_laneq_f32 vC2 vB0 vA2 0 in
  let vC2 := vfmaq_laneq_f32 vC2 vB1 vA2 1 in
  let vC2 := vfmaq_laneq_f32 vC2 vB2 vA2 2 in
  let vC2 := vfmaq_laneq_f32 vC2 vB3 vA2 3 in
  let m := vst1q_f32 m (data c + cIdx + w c * 2) vC2 in
  let vC3 := vld1q_f32 m (data c + cIdx + w c * 3) in
  let vC3 := vfmaq_laneq_f32 vC3 vB0 vA3 0 in
  let vC3 := vfmaq_laneq_f32 vC3 vB1 vA3 1 in
  let vC3 := vfmaq_laneq_f32 vC3 vB2 vA3 2 in
  let vC3 := vfmaq_laneq_f32 vC3 vB3 vA3 3 in
  let m := vst1q_f32 m (data c + cIdx + w c * 3) vC3 in
  m.

(** A [let] that does not bind a memory is substituted. *)
Ltac peel_let :=
  lazymatch goal with
  | |- state ?N' (let x := ?t in @?body x) =>
      change (state N' (body t)); cbv beta
  end.

(** The vector [v] holds row [i] of [A] at columns [k .. k+3]. *)
Definition holds_A (v : float32x4_t) (i k : Z) : Prop :=
  lane0 v = Aval i k /\ lane1 v = Aval i (k + 1) /\
  lane2 v = Aval i (k + 2) /\ lane3 v = Aval i (k + 3).

(** One row of the block: [vld1q_f32], four [vfmaq_laneq_f32], [vst1q_f32]. *)
Lemma micro_row N Nb m mb (i j k e : Z) (vA : float32x4_t) :
  state N m -> state Nb mb ->
  0 <= i < h c -> 0 <= j -> j + 4 <= w c -> 0 <= k -> k + 4 <= w a ->
  holds_A vA i k ->
  (forall j', j <= j' < j + 4 -> lane_at j') ->
  (forall j', j <= j' < j + 4 -> N i j' = k) ->
  e = data c + (i * w c + j) ->
  state (addN N i (i + 1) j (j + 4) 4)
    (vst1q_f32 m e
       (vfmaq_laneq_f32
          (vfmaq_laneq_f32
             (vfmaq_laneq_f32
                (vfmaq_laneq_f32 (vld1q_f32 m e)
                   (vld1q_f32 mb (data b + (k * w b + j))) vA 0)
                (vld1q_f32 mb (data b + (k * w b + j) + w b)) vA 1)
             (vld1q_f32 mb (data b + (k * w b + j) + w b * 2)) vA 2)
          (vld1q_f32 mb (data b + (k * w b + j) + w b * 3)) vA 3)).
Proof.
  intros Hst Hstb Hi Hj Hjw Hk Hk' (HA0 & HA1 & HA2 & HA3) Hop HN He.
  apply (state_vst N m i j k e 4); try assumption; try lia;
    cbn [accumulate vfmaq_laneq_f32 vfmaq_f32 vld1q_f32 vdupq_laneq_f32
         vdupq_n_f32 vgetq_lane_f32 lane0 lane1 lane2 lane3];
    rewrite !Hop by lia;
    replace (k + 1 + 1) with (k + 2) by lia;
    replace (k + 2 + 1) with (k + 3) by lia;
    rewrite HA0, HA1, HA2, HA3;
    repeat f_equal; eapply readB; eauto; lia.
Qed.

Ltac peel_row mb Hb i' j k N1 :=
  lazymatch goal with
  | |- state ?N' (let x := vst1q_f32 ?m ?e ?v in @?body x) =>
      lazymatch goal with
      | Hst : state ?N m |- _ =>
          let Hn := fresh "Hrow" in
          assert (Hn : state N1 (vst1q_f32 m e v));
          [ eapply state_ext;
            [|eapply (micro_row N _ m mb i' j k e); [exact Hst|exact Hb|..]]
          | change (state N' (body (vst1q_f32 m e v)));
            revert Hn; generalize (vst1q_f32 m e v);
            let y := fresh "m" in intros y Hn; cbv beta ]
      end
  end.

Lemma micro_pass (i k : Z) (vA0 vA1 vA2 vA3 : float32x4_t) N m (j : Z) :
  0 <= i -> i + 4 <= h c -> 0 <= k -> k + 4 <= w a ->
  holds_A vA0 i k -> holds_A vA1 (i + 1) k ->
  holds_A vA2 (i + 2) k -> holds_A vA3 (i + 3) k ->
  0 <= j -> j + 4 <= w b -> (forall j', j <= j' < j + 4 -> lane_at j') ->
  state N m ->
  (forall i' j', i <= i' < i + 4 -> j <= j' < j + 4 -> N i' j' = k) ->
  state (addN N i (i + 4) j (j + 4) 4) (micro i k vA0 vA1 vA2 vA3 j m).
Proof.
  intros Hi Hi' Hk Hk' HA0 HA1 HA2 HA3 Hj Hjw Hop Hst HN.
  cbv beta delta [micro].
  assert (HN' : forall i' j' d, 0 <= d -> i + d <= i' < i + 4 -> j <= j' < j + 4 ->
                  addN N i (i + d) j (j + 4) 4 i' j' = k).
  { intros i' j' d Hd Hi'' Hj''. unfold addN. destruct_cmp; apply HN; lia. }
  do 11 peel_let.
  peel_row m Hst i j k (addN N i (i + 1) j (j + 4) 4);
    [Nsolve|try assumption; try lia ..|];
    [intros; apply HN; lia|].
  do 5 peel_let.
  peel_row m Hst (i + 1) j k (addN N i (i + 2) j (j + 4) 4);
    [Nsolve|try assumption; try lia ..|];
    [intros; apply HN'; lia|].
  do 5 peel_let.
  peel_row m Hst (i + 2) j k (addN N i (i + 3) j (j + 4) 4);
    [Nsolve|try assumption; try lia ..|];
    [intros; apply HN'; lia|].
  do 5 peel_let.
  peel_row m Hst (i + 3) j k (addN N i (i + 4) j (j + 4) 4);
    [Nsolve|try assumption; try lia ..|];
    [intros; apply HN'; lia|].
  assumption.
Qed.

(** *** Passes over a whole row *)

Lemma land_m4_divide (x : Z) : (4 | Z.land x (-4) - 0).
Proof. exists (x / 4). rewrite land_m4. lia. Qed.

(** The remainder loop [for (; j < b.w; j++)] after the columns below [J]. *)
Lemma loop_j_tail (pass : Z -> mem F -> mem F) (i0 i1 J k d : Z) N m :
  0 <= J ->
  (forall N m j, J <= j -> j + 1 <= w b -> state N m ->
     (forall i' j', i0 <= i' < i1 -> j <= j' < j + 1 -> N i' j' = k) ->
     state (addN N i0 i1 j (j + 1) d) (pass j m)) ->
  state (addN N i0 i1 0 J d) m ->
  (forall i' j', i0 <= i' < i1 -> 0 <= j' < w b -> N i' j' = k) ->
  state (addN N i0 i1 0 (Z.max J (w b)) d) (snd (For J (w b) 1 pass m)).
Proof.
  intros HJ Hpass Hst HN.
  eapply state_ext;
    [|eapply (loop_j pass i0 i1 J (w b) 1 k d); try eassumption; try lia].
  - Nsolve.
  - exists (w b - J). lia.
  - intros i' j' Hi' Hj'. unfold addN. destruct_cmp. apply HN; lia.
Qed.

(** Optimize1, Optimize2: [for (j = 0; j < b.w; j++)]. *)
Lemma row_scalar (i k : Z) (a0 : F) N m :
  0 <= i < h c -> 0 <= k < w a -> a0 = Aval i k ->
  (forall j, scalar_at j) ->
  state N m ->
  (forall i' j', i <= i' < i + 1 -> 0 <= j' < w b -> N i' j' = k) ->
  state (addN N i (i + 1) 0 (w b) 1) (snd (For 0 (w b) 1 (upd1 i k a0) m)).
Proof.
  intros Hi Hk Ha Hop Hst HN.
  eapply state_ext;
    [|eapply (loop_j_tail (upd1 i k a0) i (i + 1) 0 k 1 N m); try eassumption; try lia].
  - Nsolve.
  - intros N' m' j Hj Hj' Hst' HN'. apply upd1_pass; auto; lia.
  - eapply state_ext; [|exact Hst]. Nsolve.
Qed.

(** Optimize3, Optimize4 and the remainder rows of Optimize7, Optimize8. *)
Lemma row_unroll4 (i k : Z) (a0 : F) N m :
  0 <= i < h c -> 0 <= k < w a -> a0 = Aval i k ->
  (forall j, scalar_at j) ->
  state N m ->
  (forall i' j', i <= i' < i + 1 -> 0 <= j' < w b -> N i' j' = k) ->
  state (addN N i (i + 1) 0 (w b) 1)
    (let '(j, m) := For 0 (Z.land (w b) (-4)) 4 (upd4 i k a0) m in
     snd (For j (w b) 1 (upd1 i k a0) m)).
Proof.
  intros Hi Hk Ha Hop Hst HN.
  pose proof (land_m4_bounds (w b)) as Hb4.
  destruct (loop_j (upd4 i k a0) i (i + 1) 0 (Z.land (w b) (-4)) 4 k 1 N m)
    as [Hfst Hsnd]; try assumption; try lia.
  - apply land_m4_divide.
  - intros N' m' j Hj Hj' Hst' HN'. apply upd4_pass; auto; lia.
  - intros i' j' Hi' Hj'. apply HN; lia.
  - destruct (For 0 (Z.land (w b) (-4)) 4 (upd4 i k a0) m) as [j1 m1].
    cbn [fst snd] in Hfst, Hsnd. subst j1.
    eapply state_ext;
      [|eapply (loop_j_tail (upd1 i k a0) i (i + 1) _ k 1 N m1);
        try eassumption; try lia].
    + Nsolve.
    + intros N' m' j Hj Hj' Hst' HN'. apply upd1_pass; auto; lia.
Qed.

(** The four-step rows of Optimize7, Optimize8. *)
Lemma row_unroll16 (i k : Z) (a0 a1 a2 a3 : F) N m :
  0 <= i < h c -> 0 <= k -> k + 4 <= w a ->
  a0 = Aval i k -> a1 = Aval i (k + 1) -> a2 = Aval i (k + 2) -> a3 = Aval i (k + 3) ->
  (forall j, scalar_at j) ->
  state N m ->
  (forall i' j', i <= i' < i + 1 -> 0 <= j' < w b -> N i' j' = k) ->
  state (addN N i (i + 1) 0 (w b) 4)
    (let '(j, m) := For 0 (Z.land (w b) (-4)) 4 (upd16 i k a0 a1 a2 a3) m in
     snd (For j (w b) 1 (upd1x4 i k a0 a1 a2 a3) m)).
Proof.
  intros Hi Hk Hk' Ha0 Ha1 Ha2 Ha3 Hop Hst HN.
  pose proof (land_m4_bounds (w b)) as Hb4.
  destruct (loop_j (upd16 i k a0 a1 a2 a3) i (i + 1) 0 (Z.land (w b) (-4)) 4 k 4 N m)
    as [Hfst Hsnd]; try assumption; try lia.
  - apply land_m4_divide.
  - intros N' m' j Hj Hj' Hst' HN'. apply upd16_pass; auto; lia.
  - intros i' j' Hi' Hj'. apply HN; lia.
  - destruct (For 0 (Z.land (w b) (-4)) 4 (upd16 i k a0 a1 a2 a3) m) as [j1 m1].
    cbn [fst snd] in Hfst, Hsnd. subst j1.
    eapply state_ext;
      [|eapply (loop_j_tail (upd1x4 i k a0 a1 a2 a3) i (i + 1) _ k 4 N m1);
        try eassumption; try lia].
    + Nsolve.
    + intros N' m' j Hj Hj' Hst' HN'. apply upd1x4_pass; auto; lia.
Qed.

(** The columns that the vector loop of a [neon] build covers. *)
Definition simd_cols (neon : bool) : Z :=
  if neon then Z.max 0 (Z.land (w b) (-4)) else 0.

(** Optimize5, Optimize6 and the remainder rows of Optimize9. *)
Lemma row_simd (neon : bool) (i k : Z) (a0 : F) (vA0 : float32x4_t) N m :
  0 <= i < h c -> 0 <= k < w a -> a0 = Aval i k -> vA0 = vdupq_n_f32 a0 ->
  (forall j, 0 <= j < simd_cols neon -> fused_at j) ->
  (forall j, simd_cols neon <= j -> scalar_at j) ->
  state N m ->
  (forall i' j', i <= i' < i + 1 -> 0 <= j' < w b -> N i' j' = k) ->
  state (addN N i (i + 1) 0 (w b) 1)
    (let '(j, m) :=
       if neon then For 0 (Z.land (w b) (-4)) 4 (vec1 i k vA0) m else (0, m) in
     snd (For j (w b) 1 (upd1 i k a0) m)).
Proof.
  intros Hi Hk Ha HvA Hopf Hops Hst HN.
  pose proof (land_m4_bounds (w b)) as Hb4.
  assert (Hstage : forall r,
            r = (if neon then For 0 (Z.land (w b) (-4)) 4 (vec1 i k vA0) m else (0, m)) ->
            fst r = simd_cols neon /\
            state (addN N i (i + 1) 0 (simd_cols neon) 1) (snd r)).
  { intros r ->. unfold simd_cols in *. destruct neon.
    - apply (loop_j (vec1 i k vA0) i (i + 1) 0 (Z.land (w b) (-4)) 4 k 1 N m);
        try assumption; try lia.
      + apply land_m4_divide.
      + intros N' m' j Hj Hj' Hst' HN'.
        apply (vec1_pass i k a0); auto; try lia.
        intros j' Hjj. apply Hopf. lia.
      + intros i' j' Hi' Hj'. apply HN; lia.
    - split; [reflexivity|]. cbn [snd].
      eapply state_ext; [|exact Hst]. Nsolve. }
  specialize (Hstage _ eq_refl).
  destruct (if neon then For 0 (Z.land (w b) (-4)) 4 (vec1 i k vA0) m else (0, m))
    as [j1 m1].
  cbn [fst snd] in Hstage. destruct Hstage as [-> Hsnd].
  assert (0 <= simd_cols neon <= Z.max 0 (w b))
    by (unfold simd_cols; destruct neon; lia).
  eapply state_ext;
    [|eapply (loop_j_tail (upd1 i k a0) i (i + 1) _ k 1 N m1);
      try eassumption; try lia].
  - Nsolve.
  - intros N' m' j Hj Hj' Hst' HN'. apply upd1_pass; auto; try lia.
    intros j' Hjj. apply Hops. lia.
Qed.

(** The four-step rows of Optimize9. *)
Lemma row_simd4 (neon : bool) (i k : Z) (a0 a1 a2 a3 : F)
  (vA0 vA1 vA2 vA3 : float32x4_t) N m :
  0 <= i < h c -> 0 <= k -> k + 4 <= w a ->
  a0 = Aval i k -> a1 = Aval i (k + 1) -> a2 = Aval i (k + 2) -> a3 = Aval i (k + 3) ->
  vA0 = vdupq_n_f32 a0 -> vA1 = vdupq_n_f32 a1 ->
  vA2 = vdupq_n_f32 a2 -> vA3 = vdupq_n_f32 a3 ->
  (forall j, 0 <= j < simd_cols neon -> fused_at j) ->
  (forall j, simd_cols neon <= j -> scalar_at j) ->
  state N m ->
  (forall i' j', i <= i' < i + 1 -> 0 <= j' < w b -> N i' j' = k) ->
  state (addN N i (i + 1) 0 (w b) 4)
    (let '(j, m) :=
       if neon
       then For 0 (Z.land (w b) (-4)) 4 (vec4 i k vA0 vA1 vA2 vA3) m
       else (0, m) in
     snd (For j (w b) 1 (upd1x4 i k a0 a1 a2 a3) m)).
Proof.
  intros Hi Hk Hk' Ha0 Ha1 Ha2 Ha3 HvA0 HvA1 HvA2 HvA3 Hopf Hops Hst HN.
  pose proof (land_m4_bounds (w b)) as Hb4.
  assert (Hstage : forall r,
            r = (if neon
                 then For 0 (Z.land (w b) (-4)) 4 (vec4 i k vA0 vA1 vA2 vA3) m
                 else (0, m)) ->
            fst r = simd_cols neon /\
            state (addN N i (i + 1) 0 (simd_cols neon) 4) (snd r)).
  { intros r ->. unfold simd_cols in *. destruct neon.
    - apply (loop_j (vec4 i k vA0 vA1 vA2 vA3) i (i + 1) 0 (Z.land (w b) (-4)) 4 k 4 N m);
        try assumption; try lia.
      + apply land_m4_divide.
      + intros N' m' j Hj Hj' Hst' HN'.
        apply (vec4_pass i k a0 a1 a2 a3); auto; try lia.
        intros j' Hjj. apply Hopf. lia.
      + intros i' j' Hi' Hj'. apply HN; lia.
    - split; [reflexivity|]. cbn [snd].
      eapply state_ext; [|exact Hst]. Nsolve. }
  specialize (Hstage _ eq_refl).
  destruct (if neon
            then For 0 (Z.land (w b) (-4)) 4 (vec4 i k vA0 vA1 vA2 vA3) m
            else (0, m)) as [j1 m1].
  cbn [fst snd] in Hstage. destruct Hstage as [-> Hsnd].
  assert (0 <= simd_cols neon <= Z.max 0 (w b))
    by (unfold simd_cols; destruct neon; lia).
  eapply state_ext;
    [|eapply (loop_j_tail (upd1x4 i k a0 a1 a2 a3) i (i + 1) _ k 4 N m1);
      try eassumption; try lia].
  - Nsolve.
  - intros N' m' j Hj Hj' Hst' HN'. apply upd1x4_pass; auto; try lia.
    intros j' Hjj. apply Hops. lia.
Qed.

(** Optimize11, Optimize12: only the columns below [b.w & ~3]. *)
Lemma row_vec4 (i k : Z) (a0 a1 a2 a3 : F) (vA0 vA1 vA2 vA3 : float32x4_t) N m :
  0 <= i < h c -> 0 <= k -> k + 4 <= w a ->
  a0 = Aval i k -> a1 = Aval i (k + 1) -> a2 = Aval i (k + 2) -> a3 = Aval i (k + 3) ->
  vA0 = vdupq_n_f32 a0 -> vA1 = vdupq_n_f32 a1 ->
  vA2 = vdupq_n_f32 a2 -> vA3 = vdupq_n_f32 a3 ->
  (forall j, fused_at j) ->
  state N m ->
  (forall i' j', i <= i' < i + 1 -> 0 <= j' < Z.max 0 (Z.land (w b) (-4)) -> N i' j' = k) ->
  state (addN N i (i + 1) 0 (Z.max 0 (Z.land (w b) (-4))) 4)
    (snd (For 0 (Z.land (w b) (-4)) 4 (vec4 i k vA0 vA1 vA2 vA3) m)).
Proof.
  intros Hi Hk Hk' Ha0 Ha1 Ha2 Ha3 HvA0 HvA1 HvA2 HvA3 Hop Hst HN.
  pose proof (land_m4_bounds (w b)) as Hb4.
  apply (loop_j (vec4 i k vA0 vA1 vA2 vA3) i (i + 1) 0 (Z.land (w b) (-4)) 4 k 4 N m);
    try assumption; try lia.
  - apply land_m4_divide.
  - intros N' m' j Hj Hj' Hst' HN'.
    apply (vec4_pass i k a0 a1 a2 a3); auto; lia.
  - intros i' j' Hi' Hj'. apply HN; lia.
Qed.

(** Optimize13 .. Optimize16: four rows, the columns below [b.w & ~3]. *)
Lemma row_micro (i k : Z) (vA0 vA1 vA2 vA3 : float32x4_t) N m :
  0 <= i -> i + 4 <= h c -> 0 <= k -> k + 4 <= w a ->
  holds_A vA0 i k -> holds_A vA1 (i + 1) k ->
  holds_A vA2 (i + 2) k -> holds_A vA3 (i + 3) k ->
  (forall j, lane_at j) ->
  state N m ->
  (forall i' j', i <= i' < i + 4 -> 0 <= j' < Z.max 0 (Z.land (w b) (-4)) -> N i' j' = k) ->
  state (addN N i (i + 4) 0 (Z.max 0 (Z.land (w b) (-4))) 4)
    (snd (For 0 (Z.land (w b) (-4)) 4 (micro i k vA0 vA1 vA2 vA3) m)).
Proof.
  intros Hi Hi' Hk Hk' HA0 HA1 HA2 HA3 Hop Hst HN.
  pose proof (land_m4_bounds (w b)) as Hb4.
  apply (loop_j (micro i k vA0 vA1 vA2 vA3) i (i + 4) 0 (Z.land (w b) (-4)) 4 k 4 N m);
    try assumption; try lia.
  - apply land_m4_divide.
  - intros N' m' j Hj Hj' Hst' HN'.
    apply micro_pass; auto; lia.
  - intros i' j' Hii Hjj. apply HN; lia.
Qed.

(** *** The kernels *)

(** All the steps of a full product. *)
Definition full : Z -> Z -> Z :=
  addN (fun _ _ => 0) 0 (h a) 0 (w b) (Z.max 0 (w a)).

Hypothesis Hck : CheckParam a b c = true.

Lemma divide_1 (x : Z) : (1 | x).
Proof. exists x. lia. Qed.

Theorem Optimize1_state :
  (forall j, scalar_at j) -> state full (Optimize1 a b c m0).
Proof.
  intros Hop. cbv beta delta [Optimize1]. rewrite Hck. cbv beta iota delta [negb]. do 3 peel_let.
  apply (loop_i _ (h a) 1 (w b) 0 (Z.max 0 (w a)) (fun _ _ => 0) m0);
    [lia|apply divide_1| |apply state_init|reflexivity].
  intros N m i Hi Hi' Hst HN. cbv beta.
  eapply state_ext;
    [|eapply loop_k with (i0 := i) (i1 := i + 1) (W' := w b) (k0 := 0) (d := 1);
      [lia|apply divide_1| |exact Hst|exact HN]].
  - Nsolve.
  - intros N' m' k Hk Hk' Hst' HN'. cbv beta. peel_let.
    apply (row_scalar i k _ N' m'); auto; try lia.
    eapply readA; eauto; lia.
Qed.

Theorem Optimize2_state :
  (forall j, scalar_at j) -> state full (Optimize2 a b c m0).
Proof.
  intros Hop. cbv beta delta [Optimize2]. rewrite Hck. cbv beta iota delta [negb]. do 3 peel_let.
  eapply state_ext;
    [|eapply loop_k with (i0 := 0) (i1 := h a) (W' := w b) (k0 := 0) (d := 1);
      [lia|apply divide_1| |apply state_init|reflexivity]].
  - unfold full. Nsolve.
  - intros N m k Hk Hk' Hst HN. cbv beta.
    apply (loop_i _ (h a) 1 (w b) k 1 N m);
      [lia|apply divide_1| |exact Hst|exact HN].
    intros N' m' i Hi Hi' Hst' HN'. cbv beta. peel_let.
    apply (row_scalar i k _ N' m'); auto; try lia.
    eapply readA; eauto; lia.
Qed.

Theorem Optimize3_state :
  (forall j, scalar_at j) -> state full (Optimize3 a b c m0).
Proof.
  intros Hop. cbv beta delta [Optimize3]. rewrite Hck.
  cbv beta iota delta [negb]. do 3 peel_let.
  apply (loop_i _ (h a) 1 (w b) 0 (Z.max 0 (w a)) (fun _ _ => 0) m0);
    [lia|apply divide_1| |apply state_init|reflexivity].
  intros N m i Hi Hi' Hst HN. cbv beta.
  eapply state_ext;
    [|eapply loop_k with (i0 := i) (i1 := i + 1) (W' := w b) (k0 := 0) (d := 1);
      [lia|apply divide_1| |exact Hst|exact HN]].
  - Nsolve.
  - intros N' m' k Hk Hk' Hst' HN'. cbv beta. do 2 peel_let.
    apply (row_unroll4 i k _ N' m'); auto; try lia.
    eapply readA; eauto; lia.
Qed.

Theorem Optimize4_state :
  (forall j, scalar_at j) -> state full (Optimize4 a b c m0).
Proof.
  intros Hop. cbv beta delta [Optimize4]. rewrite Hck.
  cbv beta iota delta [negb]. do 3 peel_let.
  eapply state_ext;
    [|eapply loop_k with (i0 := 0) (i1 := h a) (W' := w b) (k0 := 0) (d := 1);
      [lia|apply divide_1| |apply state_init|reflexivity]].
  - unfold full. Nsolve.
  - intros N m k Hk Hk' Hst HN. cbv beta.
    apply (loop_i _ (h a) 1 (w b) k 1 N m);
      [lia|apply divide_1| |exact Hst|exact HN].
    intros N' m' i Hi Hi' Hst' HN'. cbv beta. do 2 peel_let.
    apply (row_unroll4 i k _ N' m'); auto; try lia.
    eapply readA; eauto; lia.
Qed.

(** The first of two consecutive loops over [k]: name its result. *)
Ltac first_k_loop i0 i1 N m Hf Hs :=
  lazymatch goal with
  | |- context [@For ?S 0 (Z.land (w a) (-4)) 4 ?p m] =>
      let T := constr:(@For S 0 (Z.land (w a) (-4)) 4 p m) in
      let Hfs := fresh "Hfs" in
      assert (Hfs : fst T = Z.max 0 (Z.land (w a) (-4)) /\
                    state (addN N i0 i1 0 (w b) (Z.max 0 (Z.land (w a) (-4)) - 0))
                      (snd T));
      [ apply (loop_k p i0 i1 (w b) 0 (Z.land (w a) (-4)) 4 N m);
        [lia|apply land_m4_divide| | | ]
      | revert Hfs; generalize T;
        let k1 := fresh "k" in let m1 := fresh "m" in
        intros [k1 m1] [Hf Hs]; cbn [fst snd] in Hf, Hs; subst k1;
        cbv beta iota ]
  end.

Theorem Optimize7_state :
  (forall j, scalar_at j) -> state full (Optimize7 a b c m0).
Proof.
  intros Hop. cbv beta delta [Optimize7]. rewrite Hck.
  cbv beta iota delta [negb]. do 3 peel_let.
  pose proof (land_m4_bounds (w a)) as Ha4.
  apply (loop_i _ (h a) 1 (w b) 0 (Z.max 0 (w a)) (fun _ _ => 0) m0);
    [lia|apply divide_1| |apply state_init|reflexivity].
  intros N m i Hi Hi' Hst HN. cbv beta. peel_let.
  first_k_loop i (i + 1) N m Hf Hs; [|exact Hst|exact HN|].
  - intros N' m' k Hk Hk' Hst' HN'. cbv beta. do 5 peel_let.
    apply (row_unroll16 i k (m' (data a + (i * w a + k)))
             (m' (data a + (i * w a + k + 1))) (m' (data a + (i * w a + k + 2)))
             (m' (data a + (i * w a + k + 3))) N' m'); auto; try lia;
      eapply readA; eauto; lia.
  - eapply state_ext;
      [|eapply loop_k with (i0 := i) (i1 := i + 1) (W' := w b)
          (k0 := Z.max 0 (Z.land (w a) (-4))) (d := 1);
        [lia|apply divide_1| |exact Hs|]].
    + Nsolve.
    + intros N' m' k Hk Hk' Hst' HN'. cbv beta. do 2 peel_let.
      apply (row_unroll4 i k _ N' m'); auto; try lia.
      eapply readA; eauto; lia.
    + intros i' j' Hii Hjj. unfold addN. destruct_cmp.
      rewrite HN by lia. lia.
Qed.

Theorem Optimize8_state :
  (forall j, scalar_at j) -> state full (Optimize8 a b c m0).
Proof.
  intros Hop. cbv beta delta [Optimize8]. rewrite Hck.
  cbv beta iota delta [negb]. do 4 peel_let.
  pose proof (land_m4_bounds (w a)) as Ha4.
  first_k_loop 0 (h a) (fun (_ _ : Z) => 0) m0 Hf Hs;
    [|apply state_init|reflexivity|].
  - intros N m k Hk Hk' Hst HN. cbv beta.
    apply (loop_i _ (h a) 1 (w b) k 4 N m);
      [lia|apply divide_1| |exact Hst|exact HN].
    intros N' m' i Hi Hi' Hst' HN'. cbv beta. do 5 peel_let.
    apply (row_unroll16 i k (m' (data a + (i * w a + k)))
             (m' (data a + (i * w a + k + 1))) (m' (data a + (i * w a + k + 2)))
             (m' (data a + (i * w a + k + 3))) N' m'); auto; try lia;
      eapply readA; eauto; lia.
  - eapply state_ext;
      [|eapply loop_k with (i0 := 0) (i1 := h a) (W' := w b)
          (k0 := Z.max 0 (Z.land (w a) (-4))) (d := 1);
        [lia|apply divide_1| |exact Hs|]].
    + unfold full. Nsolve.
    + intros N mk k Hk Hk' Hst HN. cbv beta.
      apply (loop_i _ (h a) 1 (w b) k 1 N mk);
        [lia|apply divide_1| |exact Hst|exact HN].
      intros N' m' i Hi Hi' Hst' HN'. cbv beta. do 2 peel_let.
      apply (row_unroll4 i k _ N' m'); auto; try lia.
      eapply readA; eauto; lia.
    + intros i' j' Hii Hjj. unfold addN. destruct_cmp. lia.
Qed.

Section Neon.
Variable neon : bool.

(** In the columns of the vector loop the step is fused, in the
    remainder columns it is the scalar one. *)
Hypothesis Hopf : forall j, 0 <= j < simd_cols neon -> fused_at j.
Hypothesis Hops : forall j, simd_cols neon <= j -> scalar_at j.

Theorem Optimize5_state : state full (Optimize5 neon a b c m0).
Proof.
  cbv beta delta [Optimize5]. rewrite Hck.
  cbv beta iota delta [negb]. do 3 peel_let.
  apply (loop_i _ (h a) 1 (w b) 0 (Z.max 0 (w a)) (fun _ _ => 0) m0);
    [lia|apply divide_1| |apply state_init|reflexivity].
  intros N m i Hi Hi' Hst HN. cbv beta.
  eapply state_ext;
    [|eapply loop_k with (i0 := i) (i1 := i + 1) (W' := w b) (k0 := 0) (d := 1);
      [lia|apply divide_1| |exact Hst|exact HN]].
  - Nsolve.
  - intros N' m' k Hk Hk' Hst' HN'. cbv beta. do 3 peel_let.
    apply (row_simd neon i k (m' (data a + (i * w a + k))) _ N' m');
      auto; try lia.
    eapply readA; eauto; lia.
Qed.

Theorem Optimize6_state : state full (Optimize6 neon a b c m0).
Proof.
  cbv beta delta [Optimize6]. rewrite Hck.
  cbv beta iota delta [negb]. do 3 peel_let.
  eapply state_ext;
    [|eapply loop_k with (i0 := 0) (i1 := h a) (W' := w b) (k0 := 0) (d := 1);
      [lia|apply divide_1| |apply state_init|reflexivity]].
  - unfold full. Nsolve.
  - intros N m k Hk Hk' Hst HN. cbv beta.
    apply (loop_i _ (h a) 1 (w b) k 1 N m);
      [lia|apply divide_1| |exact Hst|exact HN].
    intros N' m' i Hi Hi' Hst' HN'. cbv beta. do 3 peel_let.
    apply (row_simd neon i k (m' (data a + (i * w a + k))) _ N' m');
      auto; try lia.
    eapply readA; eauto; lia.
Qed.

Theorem Optimize9_state : state full (Optimize9 neon a b c m0).
Proof.
  cbv beta delta [Optimize9]. rewrite Hck.
  cbv beta iota delta [negb]. do 3 peel_let.
  pose proof (land_m4_bounds (w a)) as Ha4.
  apply (loop_i _ (h a) 1 (w b) 0 (Z.max 0 (w a)) (fun _ _ => 0) m0);
    [lia|apply divide_1| |apply state_init|reflexivity].
  intros N m i Hi Hi' Hst HN. cbv beta. peel_let.
  first_k_loop i (i + 1) N m Hf Hs; [|exact Hst|exact HN|].
  - intros N' m' k Hk Hk' Hst' HN'. cbv beta. do 9 peel_let.
    apply (row_simd4 neon i k (m' (data a + (i * w a + k)))
             (m' (data a + (i * w a + k + 1))) (m' (data a + (i * w a + k + 2)))
             (m' (data a + (i * w a + k + 3))) _ _ _ _ N' m'); auto; try lia;
      eapply readA; eauto; lia.
  - eapply state_ext;
      [|eapply loop_k with (i0 := i) (i1 := i + 1) (W' := w b)
          (k0 := Z.max 0 (Z.land (w a) (-4))) (d := 1);
        [lia|apply divide_1| |exact Hs|]].
    + Nsolve.
    + intros N' m' k Hk Hk' Hst' HN'. cbv beta. do 3 peel_let.
      apply (row_simd neon i k (m' (data a + (i * w a + k))) _ N' m');
        auto; try lia.
      eapply readA; eauto; lia.
    + intros i' j' Hii Hjj. unfold addN. destruct_cmp.
      rewrite HN by lia. lia.
Qed.
End Neon.

(** *** The aligned kernels of a [neon] build *)

(** The steps of the aligned part: [rows] rows, the columns below
    [b.w & ~3], the contraction indices below [a.w & ~3]. *)
Definition aligned (rows : Z) : Z -> Z -> Z :=
  addN (fun _ _ => 0) 0 rows 0 (Z.max 0 (Z.land (w b) (-4)))
    (Z.max 0 (Z.land (w a) (-4))).

Lemma vdup_lanes (m : mem F) (p : Z) :
  vdupq_laneq_f32 (vld1q_f32 m p) 0 = vdupq_n_f32 (m p) /\
  vdupq_laneq_f32 (vld1q_f32 m p) 1 = vdupq_n_f32 (m (p + 1)) /\
  vdupq_laneq_f32 (vld1q_f32 m p) 2 = vdupq_n_f32 (m (p + 2)) /\
  vdupq_laneq_f32 (vld1q_f32 m p) 3 = vdupq_n_f32 (m (p + 3)).
Proof. repeat split; reflexivity. Qed.

Theorem Optimize11_state :
  (forall j, fused_at j) -> state (aligned (h a)) (Optimize11 true a b c m0).
Proof.
  intros Hop. cbv beta delta [Optimize11]. rewrite Hck.
  cbv beta iota delta [negb]. do 3 peel_let.
  pose proof (land_m4_bounds (w a)) as Ha4.
  apply (loop_i _ (h a) 1 (Z.max 0 (Z.land (w b) (-4))) 0
           (Z.max 0 (Z.land (w a) (-4))) (fun _ _ => 0) m0);
    [lia|apply divide_1| |apply state_init|reflexivity].
  intros N m i Hi Hi' Hst HN. cbv beta. peel_let.
  eapply state_ext;
    [|eapply loop_k with (i0 := i) (i1 := i + 1)
        (W' := Z.max 0 (Z.land (w b) (-4))) (k0 := 0) (d := 4);
      [lia|apply land_m4_divide| |exact Hst|exact HN]].
  - Nsolve.
  - intros N' m' k Hk Hk' Hst' HN'. cbv beta. do 6 peel_let.
    destruct (vdup_lanes m' (data a + i * w a + k)) as (E0 & E1 & E2 & E3).
    apply (row_vec4 i k (m' (data a + i * w a + k))
             (m' (data a + i * w a + k + 1)) (m' (data a + i * w a + k + 2))
             (m' (data a + i * w a + k + 3)) _ _ _ _ N' m'); auto; try lia;
      eapply readA; eauto; lia.
Qed.

Theorem Optimize12_state :
  (forall j, fused_at j) -> state (aligned (h a)) (Optimize12 true a b c m0).
Proof.
  intros Hop. cbv beta delta [Optimize12]. rewrite Hck.
  cbv beta iota delta [negb]. do 4 peel_let.
  pose proof (land_m4_bounds (w a)) as Ha4.
  eapply state_ext;
    [|eapply loop_k with (i0 := 0) (i1 := h a)
        (W' := Z.max 0 (Z.land (w b) (-4))) (k0 := 0) (d := 4);
      [lia|apply land_m4_divide| |apply state_init|reflexivity]].
  - unfold aligned. Nsolve.
  - intros N m k Hk Hk' Hst HN. cbv beta.
    apply (loop_i _ (h a) 1 (Z.max 0 (Z.land (w b) (-4))) k 4 N m);
      [lia|apply divide_1| |exact Hst|exact HN].
    intros N' m' i Hi Hi' Hst' HN'. cbv beta. do 6 peel_let.
    destruct (vdup_lanes m' (data a + i * w a + k)) as (E0 & E1 & E2 & E3).
    apply (row_vec4 i k (m' (data a + i * w a + k))
             (m' (data a + i * w a + k + 1)) (m' (data a + i * w a + k + 2))
             (m' (data a + i * w a + k + 3)) _ _ _ _ N' m'); auto; try lia;
      eapply readA; eauto; lia.
Qed.

Lemma holds_A_vld N m (p i k : Z) :
  state N m -> p = data a + (i * w a + k) ->
  0 <= i < h a -> 0 <= k -> k + 4 <= w a ->
  holds_A (vld1q_f32 m p) i k.
Proof.
  intros Hst -> Hi Hk Hk'. unfold holds_A, vld1q_f32. cbn [lane0 lane1 lane2 lane3].
  repeat split; eapply readA; eauto; lia.
Qed.

Theorem Optimize13_state :
  (forall j, lane_at j) ->
  state (aligned (Z.land (h a) (-4))) (Optimize13 true a b c m0).
Proof.
  intros Hop. cbv beta delta [Optimize13]. rewrite Hck.
  cbv beta iota delta [negb]. do 3 peel_let.
  pose proof (land_m4_bounds (w a)) as Ha4.
  pose proof (land_m4_bounds (h a)) as Hh4.
  apply (loop_i _ (Z.land (h a) (-4)) 4 (Z.max 0 (Z.land (w b) (-4))) 0
           (Z.max 0 (Z.land (w a) (-4))) (fun _ _ => 0) m0);
    [lia|apply land_m4_divide| |apply state_init|reflexivity].
  intros N m i Hi Hi' Hst HN. cbv beta.
  eapply state_ext;
    [|eapply loop_k with (i0 := i) (i1 := i + 4)
        (W' := Z.max 0 (Z.land (w b) (-4))) (k0 := 0) (d := 4);
      [lia|apply land_m4_divide| |exact Hst|exact HN]].
  - Nsolve.
  - intros N' m' k Hk Hk' Hst' HN'. cbv beta. do 5 peel_let.
    apply (row_micro i k _ _ _ _ N' m'); auto; try lia;
      eapply holds_A_vld; eauto; lia.
Qed.

Theorem Optimize14_state :
  (forall j, lane_at j) ->
  state (aligned (Z.land (h a) (-4))) (Optimize14 true a b c m0).
Proof.
  intros Hop. cbv beta delta [Optimize14]. rewrite Hck.
  cbv beta iota delta [negb]. do 3 peel_let.
  pose proof (land_m4_bounds (w a)) as Ha4.
  pose proof (land_m4_bounds (h a)) as Hh4.
  eapply state_ext;
    [|eapply loop_k with (i0 := 0) (i1 := Z.land (h a) (-4))
        (W' := Z.max 0 (Z.land (w b) (-4))) (k0 := 0) (d := 4);
      [lia|apply land_m4_divide| |apply state_init|reflexivity]].
  - unfold aligned. Nsolve.
  - intros N m k Hk Hk' Hst HN. cbv beta.
    apply (loop_i _ (Z.land (h a) (-4)) 4 (Z.max 0 (Z.land (w b) (-4))) k 4 N m);
      [lia|apply land_m4_divide| |exact Hst|exact HN].
    intros N' m' i Hi Hi' Hst' HN'. cbv beta. do 5 peel_let.
    apply (row_micro i k _ _ _ _ N' m'); auto; try lia;
      eapply holds_A_vld; eauto; lia.
Qed.

Theorem Optimize15_state :
  (forall j, lane_at j) ->
  state (aligned (Z.land (h a) (-4))) (Optimize15 true a b c m0).
Proof.
  intros Hop. cbv beta delta [Optimize15]. rewrite Hck.
  cbv beta iota delta [negb]. do 6 peel_let.
  pose proof (land_m4_bounds (w a)) as Ha4.
  pose proof (land_m4_bounds (h a)) as Hh4.
  apply (loop_i _ (Z.land (h a) (-4)) 4 (Z.max 0 (Z.land (w b) (-4))) 0
           (Z.max 0 (Z.land (w a) (-4))) (fun _ _ => 0) m0);
    [lia|apply land_m4_divide| |apply state_init|reflexivity].
  intros N m i Hi Hi' Hst HN. cbv beta. do 2 peel_let.
  eapply state_ext;
    [|eapply loop_k with (i0 := i) (i1 := i + 4)
        (W' := Z.max 0 (Z.land (w b) (-4))) (k0 := 0) (d := 4);
      [lia|apply land_m4_divide| |exact Hst|exact HN]].
  - Nsolve.
  - intros N' m' k Hk Hk' Hst' HN'. cbv beta. do 6 peel_let.
    apply (row_micro i k _ _ _ _ N' m'); auto; try lia;
      eapply holds_A_vld; eauto; lia.
Qed.

Theorem Optimize16_state :
  (forall j, lane_at j) ->
  state (aligned (Z.land (h a) (-4))) (Optimize16 true a b c m0).
Proof.
  intros Hop. cbv beta delta [Optimize16]. rewrite Hck.
  cbv beta iota delta [negb]. do 6 peel_let.
  pose proof (land_m4_bounds (w a)) as Ha4.
  pose proof (land_m4_bounds (h a)) as Hh4.
  eapply state_ext;
    [|eapply loop_k with (i0 := 0) (i1 := Z.land (h a) (-4))
        (W' := Z.max 0 (Z.land (w b) (-4))) (k0 := 0) (d := 4);
      [lia|apply land_m4_divide| |apply state_init|reflexivity]].
  - unfold aligned. Nsolve.
  - intros N m k Hk Hk' Hst HN. cbv beta. peel_let.
    apply (loop_i _ (Z.land (h a) (-4)) 4 (Z.max 0 (Z.land (w b) (-4))) k 4 N m);
      [lia|apply land_m4_divide| |exact Hst|exact HN].
    intros N' m' i Hi Hi' Hst' HN'. cbv beta. do 7 peel_let.
    apply (row_micro i k _ _ _ _ N' m'); auto; try lia;
      eapply holds_A_vld; eauto; lia.
Qed.
End Progress.

(** ** What each kernel computes *)

Lemma CheckParam_true (a b c : Matrix) :
  CheckParam a b c = true <->
  w a = h b /\ h a = h c /\ w b = w c /\
  data a <> null /\ data b <> null /\ data c <> null.
Proof.
  unfold CheckParam.
  destruct (Z.eqb_spec (w a) (h b)); cbn [negb];
    [|split; [discriminate|tauto]].
  destruct (Z.eqb_spec (h a) (h c)); cbn [negb];
    [|split; [discriminate|tauto]].
  destruct (Z.eqb_spec (w b) (w c)); cbn [negb];
    [|split; [discriminate|tauto]].
  destruct (Z.eqb_spec (data a) null); cbn [orb];
    [split; [discriminate|tauto]|].
  destruct (Z.eqb_spec (data b) null); cbn [orb];
    [split; [discriminate|tauto]|].
  destruct (Z.eqb_spec (data c) null); cbn [orb];
    [split; [discriminate|tauto]|].
  tauto.
Qed.

Section Results.
Context {F : Type} {FO : FloatOps F}.

Definition kernel : Type := Matrix -> Matrix -> Matrix -> mem F -> mem F.
Definition step : Type := F -> F -> F -> F.

(** The address of element [(i, j)] of a view. *)
Definition elem (x : Matrix) (i j : Z) : Z := data x + (i * w x + j).

(** [c + a * b] rounded twice, and fused. *)
Definition scalar_step : step := fun z x y => fadd z (fmul x y).
Definition fused_step : step := fun z x y => fma z x y.
(** [vfmaq_laneq_f32 c vB vA lane]: the operands are [B[k,j]] then [A[i,k]]. *)
Definition lane_step : step := fun z x y => fma z y x.

(** The step of the vectorised kernels with a remainder loop: fused in
    the columns below [b.w & ~3] of a [neon] build, scalar elsewhere. *)
Definition simd_step (neon : bool) (b : Matrix) (j : Z) : step :=
  if neon && (j <? Z.land (w b) (-4)) then fused_step else scalar_step.

(** [dot op m a b i j n z]: [z] after the [n] steps
    [z = op z A[i,k] B[k,j]], [k = 0 .. n-1], on the matrices held by [m]. *)
Definition dot (op : step) (m : mem F) (a b : Matrix) (i j n : Z) (z : F) : F :=
  accumulate op (fun k => m (elem a i k)) (fun k => m (elem b k j)) 0 (Z.to_nat n) z.

(** Valid parameters: [CheckParam] passes and the output buffer overlaps
    neither input buffer. *)
Definition valid (a b c : Matrix) : Prop :=
  CheckParam a b c = true /\ separate c a /\ separate c b.

(** [K] applies [N a b i j] steps [op b j] to every element [C[i,j]] and
    writes nothing else. *)
Definition implements (K : kernel) (op : Matrix -> Z -> step)
  (N : Matrix -> Matrix -> Z -> Z -> Z) : Prop :=
  forall a b c m, valid a b c -> state a b c m (op b) (N a b) (K a b c m).

Lemma implements_elem K op N a b c m (i j : Z) :
  implements K op N -> valid a b c ->
  0 <= i < h c -> 0 <= j < w c ->
  K a b c m (elem c i j) = dot (op b j) m a b i j (N a b i j) (m (elem c i j)).
Proof.
  intros HK Hv Hi Hj. apply (state_at a b c m (op b) (N a b)); auto.
Qed.

Lemma implements_frame K op N a b c m (p : Z) :
  implements K op N -> valid a b c -> ~ inC c p -> K a b c m p = m p.
Proof.
  intros HK Hv Hp. apply (state_frame a b c m (op b) (N a b)); auto.
Qed.

(** The aligned part of the aligned kernels. *)
Definition aligned_rows1 (a b : Matrix) : Z -> Z -> Z := aligned a b (h a).
Definition aligned_rows4 (a b : Matrix) : Z -> Z -> Z :=
  aligned a b (Z.land (h a) (-4)).

Ltac use_state L :=
  intros a b c m (Hck & HsA & HsB);
  destruct (proj1 (CheckParam_true a b c) Hck) as (Hwa & Hha & Hwb & _);
  apply L; auto.

Lemma Origin_implements : implements Origin (fun _ _ => scalar_step) full.
Proof. use_state @Origin_state; intros j z x y; reflexivity. Qed.

Lemma Optimize1_implements : implements Optimize1 (fun _ _ => scalar_step) full.
Proof. use_state @Optimize1_state; intros j z x y; reflexivity. Qed.

Lemma Optimize2_implements : implements Optimize2 (fun _ _ => scalar_step) full.
Proof. use_state @Optimize2_state; intros j z x y; reflexivity. Qed.

Lemma Optimize3_implements : implements Optimize3 (fun _ _ => scalar_step) full.
Proof. use_state @Optimize3_state; intros j z x y; reflexivity. Qed.

Lemma Optimize4_implements : implements Optimize4 (fun _ _ => scalar_step) full.
Proof. use_state @Optimize4_state; intros j z x y; reflexivity. Qed.

Lemma Optimize7_implements : implements Optimize7 (fun _ _ => scalar_step) full.
Proof. use_state @Optimize7_state; intros j z x y; reflexivity. Qed.

Lemma Optimize8_implements : implements Optimize8 (fun _ _ => scalar_step) full.
Proof. use_state @Optimize8_state; intros j z x y; reflexivity. Qed.

Lemma simd_step_fused neon b (j : Z) :
  0 <= j < simd_cols b neon -> simd_step neon b j = fused_step.
Proof.
  unfold simd_cols, simd_step. intros Hj. destruct neon; [|lia].
  destruct (Z.ltb_spec j (Z.land (w b) (-4))); [reflexivity|lia].
Qed.

Lemma simd_step_scalar neon b (j : Z) :
  simd_cols b neon <= j -> simd_step neon b j = scalar_step.
Proof.
  unfold simd_cols, simd_step. intros Hj. destruct neon; [|reflexivity].
  destruct (Z.ltb_spec j (Z.land (w b) (-4))); [lia|reflexivity].
Qed.

Ltac simd_steps :=
  [> intros j Hj z x y; rewrite simd_step_fused by assumption; reflexivity
   | intros j Hj z x y; rewrite simd_step_scalar by assumption; reflexivity ].

Lemma Optimize5_implements neon : implements (Optimize5 neon) (simd_step neon) full.
Proof. use_state @Optimize5_state; simd_steps. Qed.

Lemma Optimize6_implements neon : implements (Optimize6 neon) (simd_step neon) full.
Proof. use_state @Optimize6_state; simd_steps. Qed.

Lemma Optimize9_implements neon : implements (Optimize9 neon) (simd_step neon) full.
Proof. use_state @Optimize9_state; simd_steps. Qed.

Lemma Optimize11_implements :
  implements (Optimize11 true) (fun _ _ => fused_step) aligned_rows1.
Proof. use_state @Optimize11_state; intros j z x y; reflexivity. Qed.

Lemma Optimize12_implements :
  implements (Optimize12 true) (fun _ _ => fused_step) aligned_rows1.
Proof. use_state @Optimize12_state; intros j z x y; reflexivity. Qed.

Lemma Optimize13_implements :
  implements (Optimize13 true) (fun _ _ => lane_step) aligned_rows4.
Proof. use_state @Optimize13_state; intros j z x y; reflexivity. Qed.

Lemma Optimize14_implements :
  implements (Optimize14 true) (fun _ _ => lane_step) aligned_rows4.
Proof. use_state @Optimize14_state; intros j z x y; reflexivity. Qed.

Lemma Optimize15_implements :
  implements (Optimize15 true) (fun _ _ => lane_step) aligned_rows4.
Proof. use_state @Optimize15_state; intros j z x y; reflexivity. Qed.

Lemma Optimize16_implements :
  implements (Optimize16 true) (fun _ _ => lane_step) aligned_rows4.
Proof. use_state @Optimize16_state; intros j z x y; reflexivity. Qed.
End Results.

(** ** Facts about binary32 used by the comparator *)

Lemma SFcompare_antisym (x y : spec_float) :
  SFcompare y x = option_map CompOpp (SFcompare x y).
Proof.
  destruct x as [sx|sx| |sx mx ex], y as [sy|sy| |sy my ey]; cbn;
    try reflexivity;
    try (destruct sx; reflexivity);
    try (destruct sy; reflexivity);
    try (destruct sx, sy; reflexivity).
  destruct sx, sy; cbn; try reflexivity;
    rewrite (Z.compare_antisym ex ey);
    destruct (ex ?= ey)%Z; cbn; try reflexivity;
    rewrite ?CompOpp_involutive; f_equal;
    first [ exact (Pos.compare_cont_antisym my mx Eq)
          | symmetry; exact (Pos.compare_cont_antisym mx my Eq) ].
Qed.

(** [x <= y] excludes [x > y]. *)
Lemma B32_le_not_gt (x y : B32.float) :
  B32.le x y = true -> B32.gt x y = false.
Proof.
  unfold B32.le, B32.gt, SFleb, SFltb.
  rewrite (SFcompare_antisym x y).
  destruct (SFcompare x y) as [[ | | ]|]; cbn; congruence.
Qed.

(** [x - x] is zero or not a number: it never exceeds the tolerance. *)
Lemma B32_self_diff (x : B32.float) :
  B32.gt (B32.abs (B32.sub x x)) B32.eps = false.
Proof.
  destruct x as [s|s| |s m e]; try (destruct s; reflexivity); [reflexivity|].
  unfold B32.sub, SFsub.
  match goal with
  | |- context [binary_normalize _ _ (?f ?X ?X) _ _] =>
      replace (f X X) with 0 by (symmetry; apply Z.sub_diag)
  end.
  reflexivity.
Qed.

(** ** The comparator *)

Section Comparator.
Context {F : Type} {FO : FloatOps F}.

(** [std::abs(x - y) > EPSILON] *)
Definition exceeds (x y : F) : bool := fgt (fabs (fsub x y)) EPSILON.

Lemma CheckResult_loops (a b : Matrix) (m : mem F) :
  w a = w b -> h a = h b -> data a <> null -> data b <> null ->
  CheckResult a b m =
  match
    ForReturn 0 (h a) (fun i =>
      ForReturn 0 (w a) (fun j =>
        if exceeds (m (data a + (i * w a + j))) (m (data b + (i * w a + j)))
        then Some false else None))
  with
  | Some r => r
  | None => true
  end.
Proof.
  intros Hw Hh Ha Hb. unfold CheckResult.
  destruct (Z.eqb_spec (w a) (w b)); [|contradiction].
  destruct (Z.eqb_spec (h a) (h b)); [|contradiction].
  destruct (Z.eqb_spec (data a) null); [contradiction|].
  destruct (Z.eqb_spec (data b) null); [contradiction|].
  reflexivity.
Qed.

Lemma CheckResult_true_iff (a b : Matrix) (m : mem F) :
  CheckResult a b m = true <->
  w a = w b /\ h a = h b /\ data a <> null /\ data b <> null /\
  forall i j, 0 <= i < h a -> 0 <= j < w a ->
    exceeds (m (elem a i j)) (m (elem b i j)) = false.
Proof.
  split.
  - intros Hres. unfold CheckResult in Hres.
    destruct (Z.eqb_spec (w a) (w b)) as [Hw|]; [|discriminate].
    destruct (Z.eqb_spec (h a) (h b)) as [Hh|]; [|discriminate].
    destruct (Z.eqb_spec (data a) null) as [|Ha]; [discriminate|].
    destruct (Z.eqb_spec (data b) null) as [|Hb]; [discriminate|].
    cbn [negb orb] in Hres.
    repeat split; try assumption.
    intros i j Hi Hj.
    destruct (ForReturn 0 (h a) _) as [r|] eqn:Eout in Hres.
    + subst r. apply ForReturn_Some in Eout. destruct Eout as (i' & _ & Ein).
      apply ForReturn_Some in Ein. destruct Ein as (j' & _ & Eb).
      cbv beta in Eb. revert Eb. destruct (fgt _ _); discriminate.
    + pose proof (proj1 (ForReturn_None _ _ _) Eout i Hi) as Ein.
      pose proof (proj1 (ForReturn_None _ _ _) Ein j Hj) as Eb.
      unfold exceeds, elem. rewrite <- Hw.
      cbv beta in Eb. revert Eb. destruct (fgt _ _); [discriminate|reflexivity].
  - intros (Hw & Hh & Ha & Hb & Hall).
    rewrite CheckResult_loops by assumption.
    replace (ForReturn 0 (h a) _) with (@None bool); [reflexivity|].
    symmetry. apply ForReturn_None. intros i Hi.
    apply ForReturn_None. intros j Hj.
    specialize (Hall i j Hi Hj). unfold elem in Hall. rewrite <- Hw in Hall.
    rewrite Hall. reflexivity.
Qed.

Lemma CheckResult_false_iff (a b : Matrix) (m : mem F) :
  CheckResult a b m = false <->
  w a <> w b \/ h a <> h b \/ data a = null \/ data b = null \/
  exists i j, 0 <= i < h a /\ 0 <= j < w a /\
    exceeds (m (elem a i j)) (m (elem b i j)) = true.
Proof.
  split.
  - intros Hres.
    destruct (Z.eq_dec (w a) (w b)) as [Hw|]; [|tauto].
    destruct (Z.eq_dec (h a) (h b)) as [Hh|]; [|tauto].
    destruct (Z.eq_dec (data a) null) as [|Ha]; [tauto|].
    destruct (Z.eq_dec (data b) null) as [|Hb]; [tauto|].
    do 4 right.
    rewrite CheckResult_loops in Hres by assumption.
    destruct (ForReturn 0 (h a) _) as [r|] eqn:Eout in Hres; [|discriminate].
    apply ForReturn_Some in Eout. destruct Eout as (i & Hi & Ein).
    apply ForReturn_Some in Ein. destruct Ein as (j & Hj & Eb).
    exists i, j. repeat split; try lia.
    unfold elem. rewrite <- Hw.
    cbv beta in Eb. revert Eb. destruct (exceeds _ _); [reflexivity|discriminate].
  - intros Hcases.
    destruct (CheckResult a b m) eqn:Hres; [|reflexivity].
    apply CheckResult_true_iff in Hres.
    destruct Hres as (Hw & Hh & Ha & Hb & Hall).
    destruct Hcases as [H|[H|[H|[H|(i & j & Hi & Hj & H)]]]];
      try contradiction.
    rewrite Hall in H by assumption. discriminate.
Qed.
End Comparator.

(** ** Running a kernel after the reference kernel (the check mode of the driver) *)

Section CheckMode.
Context {F : Type} {FO : FloatOps F}.

Lemma elem_not_inC (c x : Matrix) (i j : Z) :
  separate c x -> 0 <= i < h x -> 0 <= j < w x -> ~ inC c (elem x i j).
Proof.
  intros Hsep Hi Hj. unfold inC, elem.
  pose proof (index_bounds i j (h x) (w x) Hi Hj).
  destruct Hsep; lia.
Qed.

Lemma separate_sym (x y : Matrix) : separate x y -> separate y x.
Proof. unfold separate. tauto. Qed.

Lemma dot_ext (op op' : step) (m m' : mem F) (a b : Matrix) (i j n : Z) (z : F) :
  (forall k x, 0 <= k < n ->
     op x (m (elem a i k)) (m (elem b k j)) =
     op' x (m' (elem a i k)) (m' (elem b k j))) ->
  dot op m a b i j n z = dot op' m' a b i j n z.
Proof.
  intros Hext. unfold dot. apply accumulate_ext.
  intros k x Hk. apply Hext. lia.
Qed.

Lemma full_in_range (a b : Matrix) (i j : Z) :
  0 <= i < h a -> 0 <= j < w b -> full a b i j = Z.max 0 (w a).
Proof. intros Hi Hj. unfold full, addN. destruct_cmp. lia. Qed.

(** The inputs are read as they were before the call. *)
Lemma dot_after (K : kernel) opK NK (op : step) (a b c : Matrix) (m : mem F)
  (i j n : Z) (z : F) :
  implements K opK NK -> valid a b c ->
  0 <= i < h a -> 0 <= j < w b -> n <= Z.max 0 (w a) ->
  dot op (K a b c m) a b i j n z = dot op m a b i j n z.
Proof.
  intros HK Hv Hi Hj Hn. apply dot_ext. intros k x Hk.
  pose proof Hv as (Hck & HsA & HsB).
  destruct (proj1 (CheckParam_true a b c) Hck) as (Hwa & Hha & Hwb & _).
  rewrite !(implements_frame K opK NK a b c m) by
    first [ assumption | apply elem_not_inC; first [assumption|lia] ].
  reflexivity.
Qed.

(** After [Origin(a, b, c0)] and [K(a, b, c1)]: what the two outputs hold. *)
Lemma outputs_after (K : kernel) op N (a b c0 c1 : Matrix) (m : mem F) (i j : Z) :
  implements K op N -> valid a b c0 -> valid a b c1 -> separate c0 c1 ->
  (forall i j, N a b i j <= Z.max 0 (w a)) ->
  0 <= i < h a -> 0 <= j < w b ->
  K a b c1 (Origin a b c0 m) (elem c0 i j) =
    dot scalar_step m a b i j (w a) (m (elem c0 i j)) /\
  K a b c1 (Origin a b c0 m) (elem c1 i j) =
    dot (op b j) m a b i j (N a b i j) (m (elem c1 i j)).
Proof.
  intros HK Hv0 Hv1 Hsep HN Hi Hj.
  pose proof Hv0 as (Hck0 & _). pose proof Hv1 as (Hck1 & _).
  destruct (proj1 (CheckParam_true a b c0) Hck0) as (Hwa & Hha0 & Hwb0 & _).
  destruct (proj1 (CheckParam_true a b c1) Hck1) as (_ & Hha1 & Hwb1 & _).
  split.
  - rewrite (implements_frame K op N a b c1) by
      first [ assumption
            | apply elem_not_inC; [apply separate_sym; assumption|lia|lia] ].
    rewrite (implements_elem Origin _ _ a b c0 m i j Origin_implements)
      by (try assumption; lia).
    rewrite full_in_range by lia.
    unfold dot. f_equal. lia.
  - rewrite (implements_elem K op N a b c1 _ i j HK) by (try assumption; lia).
    rewrite (dot_after Origin _ _ _ a b c0 m i j _ _ Origin_implements)
      by (try assumption; apply HN).
    f_equal.
    apply (implements_frame Origin _ _ a b c0 m _ Origin_implements);
      [assumption|].
    apply elem_not_inC; [assumption|lia|lia].
Qed.
End CheckMode.

(** ** The cells a kernel may write *)

Section Writes.
Context {F : Type} {FO : FloatOps F}.

(** [m'] differs from [m] only on cells of [S]. *)
Definition writes_within (S : Z -> Prop) (m m' : mem F) : Prop :=
  forall p, ~ S p -> m' p = m p.

Lemma writes_refl S m : writes_within S m m.
Proof. intros p _. reflexivity. Qed.

Lemma writes_trans S m m1 m2 :
  writes_within S m m1 -> writes_within S m1 m2 -> writes_within S m m2.
Proof. intros H1 H2 p Hp. rewrite H2, H1 by assumption. reflexivity. Qed.

Lemma For_writes S (body : Z -> mem F -> mem F) (lo hi stp : Z) (m : mem F) :
  0 < stp -> (stp | hi - lo) ->
  (forall x m', lo <= x -> x + stp <= hi -> writes_within S m' (body x m')) ->
  writes_within S m (snd (For lo hi stp body m)).
Proof.
  intros Hs Hdiv Hbody.
  apply (For_exact (fun _ m' => writes_within S m m')); try assumption.
  - apply writes_refl.
  - intros x m' Hx Hx' Hm'. eapply writes_trans; [exact Hm'|].
    apply Hbody; assumption.
Qed.

Lemma vst_writes S (m : mem F) (e : Z) (v : float32x4_t) :
  (forall t, 0 <= t < 4 -> S (e + t)) -> writes_within S m (vst1q_f32 m e v).
Proof.
  intros HS p Hp. unfold vst1q_f32, store.
  destruct (Z.eqb_spec p (e + 3)) as [->|_]; [exfalso; apply Hp, HS; lia|].
  destruct (Z.eqb_spec p (e + 2)) as [->|_]; [exfalso; apply Hp, HS; lia|].
  destruct (Z.eqb_spec p (e + 1)) as [->|_]; [exfalso; apply Hp, HS; lia|].
  destruct (Z.eqb_spec p e) as [->|_]; [|reflexivity].
  exfalso. apply Hp. replace e with (e + 0) by lia. apply HS. lia.
Qed.

(** The aligned part of a view: rows below [rows], columns below [cols]. *)
Definition block_cells (c : Matrix) (rows cols : Z) (p : Z) : Prop :=
  exists i j, 0 <= i < rows /\ 0 <= j < cols /\ p = elem c i j.

Lemma elem_inj (c : Matrix) (i j i' j' : Z) :
  0 <= j < w c -> 0 <= j' < w c -> elem c i j = elem c i' j' ->
  i = i' /\ j = j'.
Proof.
  intros Hj Hj' E.
  destruct (decode_enc c i j Hj) as [Ei Ej].
  destruct (decode_enc c i' j' Hj') as [Ei' Ej'].
  unfold elem in E. rewrite E in Ei, Ej. lia.
Qed.

Lemma outside_block (c : Matrix) (rows cols i j : Z) :
  cols <= w c -> 0 <= j < w c -> rows <= i \/ cols <= j ->
  ~ block_cells c rows cols (elem c i j).
Proof.
  intros Hc Hj Hout (i' & j' & Hi' & Hj' & E).
  apply elem_inj in E; lia.
Qed.

Variables b c : Matrix.

(** The vector loop over the columns of one row. *)
Lemma vec4_row_writes (i k rows : Z) (vA0 vA1 vA2 vA3 : float32x4_t) (m : mem F) :
  0 <= i < rows ->
  writes_within (block_cells c rows (Z.land (w b) (-4))) m
    (snd (For 0 (Z.land (w b) (-4)) 4 (vec4 b c i k vA0 vA1 vA2 vA3) m)).
Proof.
  intros Hi. apply For_writes; [lia|apply land_m4_divide|].
  intros j m' Hj Hj'. unfold vec4. apply vst_writes.
  intros t Ht. exists i, (j + t). unfold elem. repeat split; lia.
Qed.

(** The vector loop over the columns of a block of four rows. *)
Lemma micro_row_writes (i k rows : Z) (vA0 vA1 vA2 vA3 : float32x4_t) (m : mem F) :
  0 <= i -> i + 4 <= rows ->
  writes_within (block_cells c rows (Z.land (w b) (-4))) m
    (snd (For 0 (Z.land (w b) (-4)) 4 (micro b c i k vA0 vA1 vA2 vA3) m)).
Proof.
  intros Hi Hi'. apply For_writes; [lia|apply land_m4_divide|].
  intros j m' Hj Hj'. unfold micro.
  repeat (eapply writes_trans; [|apply vst_writes]); [apply writes_refl|..];
    intros t Ht.
  - exists i, (j + t). unfold elem. repeat split; lia.
  - exists (i + 1), (j + t). unfold elem. repeat split; lia.
  - exists (i + 2), (j + t). unfold elem. repeat split; lia.
  - exists (i + 3), (j + t). unfold elem. repeat split; lia.
Qed.
End Writes.

(** ** Properties of the kernels on binary32 *)

Definition range (n : Z) : list Z := map Z.of_nat (seq 0 (Z.to_nat n)).

Lemma In_range (n i : Z) : 0 <= i < n -> In i (range n).
Proof.
  intros Hi. unfold range. apply in_map_iff.
  exists (Z.to_nat i). split; [lia|]. apply in_seq. lia.
Qed.

Definition is_zero (x : B32.float) : bool :=
  match x with
  | S754_zero false => true
  | _ => false
  end.

(** Every element of the view is [+0.0], as in a fresh [std::vector<float>]. *)
Definition zeroed (c : Matrix) (m : mem B32.float) : bool :=
  forallb (fun i => forallb (fun j => is_zero (m (elem c i j))) (range (w c)))
    (range (h c)).

Lemma zeroed_elem (c : Matrix) (m : mem B32.float) (i j : Z) :
  zeroed c m = true -> 0 <= i < h c -> 0 <= j < w c -> m (elem c i j) = B32.zero.
Proof.
  intros Hz Hi Hj. unfold zeroed in Hz.
  rewrite forallb_forall in Hz. specialize (Hz i (In_range _ _ Hi)).
  rewrite forallb_forall in Hz. specialize (Hz j (In_range _ _ Hj)).
  destruct (m (elem c i j)) as [[|]| | |]; try discriminate. reflexivity.
Qed.

(** The check mode passes when the two outputs hold the same values. *)
Lemma passes_check (K : kernel) op N (a b c0 c1 : Matrix) (m : mem B32.float) :
  implements K op N -> valid a b c0 -> valid a b c1 -> separate c0 c1 ->
  (forall i j, N a b i j <= Z.max 0 (w a)) ->
  (forall i j, 0 <= i < h a -> 0 <= j < w b ->
     dot (op b j) m a b i j (N a b i j) (m (elem c1 i j)) =
     dot scalar_step m a b i j (w a) (m (elem c0 i j))) ->
  CheckResult c0 c1 (K a b c1 (Origin a b c0 m)) = true.
Proof.
  intros HK Hv0 Hv1 Hsep HN Hsame.
  pose proof Hv0 as (Hck0 & _). pose proof Hv1 as (Hck1 & _).
  destruct (proj1 (CheckParam_true a b c0) Hck0) as (Hwa & Hha0 & Hwb0 & _ & _ & Hc0).
  destruct (proj1 (CheckParam_true a b c1) Hck1) as (_ & Hha1 & Hwb1 & _ & _ & Hc1).
  apply CheckResult_true_iff. repeat split; try assumption; try lia.
  intros i j Hi Hj.
  destruct (outputs_after K op N a b c0 c1 m i j HK Hv0 Hv1 Hsep HN) as [E0 E1];
    try lia.
  rewrite E0, E1, Hsame by lia.
  apply B32_self_diff.
Qed.

Definition scalar_kernels : list kernel :=
  [Optimize1; Optimize2; Optimize3; Optimize4; Optimize7; Optimize8].

Lemma scalar_kernels_implement (K : kernel) :
  In K scalar_kernels -> implements K (fun _ _ => scalar_step) full.
Proof.
  intros HK. repeat (destruct HK as [<-|HK]); try contradiction;
    [ apply Optimize1_implements | apply Optimize2_implements
    | apply Optimize3_implements | apply Optimize4_implements
    | apply Optimize7_implements | apply Optimize8_implements ].
Qed.

Lemma full_le (a b : Matrix) (i j : Z) : full a b i j <= Z.max 0 (w a).
Proof. unfold full, addN. destruct_cmp; lia. Qed.

(** C1. For valid inputs (the dimensions agree, no buffer is null, the two
    output buffers overlap neither each other nor an input buffer), each of
    the scalar kernels Optimize1, Optimize2, Optimize3, Optimize4, Optimize7
    and Optimize8, run on a zeroed C after Origin was run on a zeroed C of
    its own, leaves a result that CheckResult accepts (every pair of elements
    within the tolerance 1e-5), whatever the dimensions, multiples of four
    or not. *)
Theorem scalar_kernels_agree_with_Origin (K : kernel) (a b c0 c1 : Matrix)
  (m : mem B32.float) :
  In K scalar_kernels ->
  valid a b c0 -> valid a b c1 -> separate c0 c1 ->
  zeroed c0 m = true -> zeroed c1 m = true ->
  CheckResult c0 c1 (K a b c1 (Origin a b c0 m)) = true.
Proof.
  intros HK Hv0 Hv1 Hsep Hz0 Hz1.
  pose proof Hv0 as (Hck0 & _). pose proof Hv1 as (Hck1 & _).
  destruct (proj1 (CheckParam_true a b c0) Hck0) as (Hwa & Hha0 & Hwb0 & _).
  destruct (proj1 (CheckParam_true a b c1) Hck1) as (_ & Hha1 & Hwb1 & _).
  apply (passes_check K _ _ a b c0 c1 m (scalar_kernels_implement K HK));
    try assumption.
  - intros i j. apply full_le.
  - intros i j Hi Hj. rewrite full_in_range by assumption.
    rewrite !zeroed_elem by (assumption || lia).
    unfold dot. f_equal. lia.
Qed.

(** *** Concrete inputs *)

(** A memory of zeros, and the elements of a view written from a list of
    integers. *)
Definition blank : mem B32.float := fun _ => B32.zero.

Definition fill (m : mem B32.float) (x : Matrix) (l : list Z) : mem B32.float :=
  poke m (data x) (map B32.of_Z l).

(** The 2x3 by 3x2 scenario. *)
Definition A23 : Matrix := {| data := 100; h := 2; w := 3 |}.
Definition B32m : Matrix := {| data := 200; h := 3; w := 2 |}.
Definition C22 : Matrix := {| data := 300; h := 2; w := 2 |}.
Definition D22 : Matrix := {| data := 400; h := 2; w := 2 |}.
Definition mem23 : mem B32.float :=
  fill (fill blank A23 [1; 2; 3; 4; 5; 6]) B32m [7; 8; 9; 10; 11; 12].

(** A 5x7 by 7x3 product of ones: no dimension is a multiple of four. *)
Definition A57 : Matrix := {| data := 1000; h := 5; w := 7 |}.
Definition B73 : Matrix := {| data := 2000; h := 7; w := 3 |}.
Definition C53 : Matrix := {| data := 3000; h := 5; w := 3 |}.
Definition D53 : Matrix := {| data := 4000; h := 5; w := 3 |}.
Definition mem57 : mem B32.float :=
  fill (fill blank A57 (repeat 1 35)) B73 (repeat 1 21).

(** A 5x7 by 7x6 product: the aligned block is 4 rows by 4 columns and
    takes the first 4 of the 7 products. *)
Definition B76 : Matrix := {| data := 2000; h := 7; w := 6 |}.
Definition C56 : Matrix := {| data := 3000; h := 5; w := 6 |}.
Definition mem576 : mem B32.float :=
  fill (fill blank A57 (repeat 1 35)) B76 (repeat 1 42).

Lemma scalar_kernels_agree_with_Origin_witness :
  CheckResult C53 D53 (Optimize7 A57 B73 D53 (Origin A57 B73 C53 mem57)) = true.
Proof.
  apply (scalar_kernels_agree_with_Origin Optimize7 A57 B73 C53 D53 mem57).
  - unfold scalar_kernels. simpl. tauto.
  - split; [reflexivity|split; unfold separate; simpl; lia].
  - split; [reflexivity|split; unfold separate; simpl; lia].
  - unfold separate; simpl; lia.
  - vm_compute. reflexivity.
  - vm_compute. reflexivity.
Defined.

(** A kernel whose validation fails returns the memory it was given. *)
Lemma invalid_returns {F : Type} {FO : FloatOps F}
  (neon : bool) (K : kernel) (a b c : Matrix) (m : mem F) :
  In K (Origin :: tests neon) -> CheckParam a b c = false -> K a b c m = m.
Proof.
  intros HK Hck. unfold tests in HK.
  repeat (destruct HK as [<-|HK]); try contradiction.
  - cbv beta delta [Origin]. rewrite Hck. reflexivity.
  - cbv beta delta [Optimize1]. rewrite Hck. reflexivity.
  - cbv beta delta [Optimize2]. rewrite Hck. reflexivity.
  - cbv beta delta [Optimize3]. rewrite Hck. reflexivity.
  - cbv beta delta [Optimize4]. rewrite Hck. reflexivity.
  - cbv beta delta [Optimize5]. rewrite Hck. reflexivity.
  - cbv beta delta [Optimize6]. rewrite Hck. reflexivity.
  - cbv beta delta [Optimize7]. rewrite Hck. reflexivity.
  - cbv beta delta [Optimize8]. rewrite Hck. reflexivity.
  - cbv beta delta [Optimize9]. rewrite Hck. reflexivity.
  - cbv beta delta [Optimize10]. rewrite Hck. reflexivity.
  - cbv beta delta [Optimize11]. rewrite Hck. reflexivity.
  - cbv beta delta [Optimize12]. rewrite Hck. reflexivity.
  - cbv beta delta [Optimize13]. rewrite Hck. reflexivity.
  - cbv beta delta [Optimize14]. rewrite Hck. reflexivity.
  - cbv beta delta [Optimize15]. rewrite Hck. reflexivity.
  - cbv beta delta [Optimize16]. rewrite Hck. reflexivity.
Qed.

(** C8, as the code has it. CheckResult(X, X) is true for every view X whose
    data pointer is not null. *)
Theorem CheckResult_self (x : Matrix) (m : mem B32.float) :
  data x <> null -> CheckResult x x m = true.
Proof.
  intros Hx. apply CheckResult_true_iff. repeat split; try assumption.
  intros i j Hi Hj. apply B32_self_diff.
Qed.

Lemma CheckResult_self_witness : CheckResult A23 A23 mem23 = true.
Proof. apply CheckResult_self. unfold null. simpl. lia. Defined.

(** C8 fails for a view without a buffer (an empty [std::vector]): the
    null test of CheckResult rejects it. *)
Lemma CheckResult_self_null :
  CheckResult {| data := null; h := 0; w := 0 |}
              {| data := null; h := 0; w := 0 |} blank = false.
Proof. reflexivity. Qed.

(** *** The aligned kernels write the aligned part only *)

Section AlignedWrites.
Context {F : Type} {FO : FloatOps F}.
Variables (neon : bool) (a b c : Matrix) (m : mem F).

Lemma CheckParam_widths : CheckParam a b c = true -> w b = w c.
Proof. intros Hck. apply CheckParam_true in Hck. tauto. Qed.

Ltac enter K :=
  cbv beta delta [K];
  destruct (CheckParam a b c) eqn:Hck; cbv beta iota delta [negb];
  [|apply writes_refl];
  destruct neon; [|apply writes_refl];
  pose proof (CheckParam_widths Hck) as Hwb;
  cbv zeta.

Lemma Optimize11_writes :
  writes_within (block_cells c (h a) (Z.land (w b) (-4))) m (Optimize11 neon a b c m).
Proof.
  enter (@Optimize11).
  apply For_writes; [lia|apply divide_1|]. intros i m1 Hi Hi'.
  apply For_writes; [lia|apply land_m4_divide|]. intros k m2 Hk Hk'.
  apply (vec4_row_writes b c i k (h a)). lia.
Qed.

Lemma Optimize12_writes :
  writes_within (block_cells c (h a) (Z.land (w b) (-4))) m (Optimize12 neon a b c m).
Proof.
  enter (@Optimize12).
  apply For_writes; [lia|apply land_m4_divide|]. intros k m1 Hk Hk'.
  apply For_writes; [lia|apply divide_1|]. intros i m2 Hi Hi'.
  apply (vec4_row_writes b c i k (h a)). lia.
Qed.

Lemma Optimize13_writes :
  writes_within (block_cells c (Z.land (h a) (-4)) (Z.land (w b) (-4))) m
    (Optimize13 neon a b c m).
Proof.
  enter (@Optimize13).
  apply For_writes; [lia|apply land_m4_divide|]. intros i m1 Hi Hi'.
  apply For_writes; [lia|apply land_m4_divide|]. intros k m2 Hk Hk'.
  apply (micro_row_writes b c i k (Z.land (h a) (-4))); lia.
Qed.

Lemma Optimize14_writes :
  writes_within (block_cells c (Z.land (h a) (-4)) (Z.land (w b) (-4))) m
    (Optimize14 neon a b c m).
Proof.
  enter (@Optimize14).
  apply For_writes; [lia|apply land_m4_divide|]. intros k m1 Hk Hk'.
  apply For_writes; [lia|apply land_m4_divide|]. intros i m2 Hi Hi'.
  apply (micro_row_writes b c i k (Z.land (h a) (-4))); lia.
Qed.

Lemma Optimize15_writes :
  writes_within (block_cells c (Z.land (h a) (-4)) (Z.land (w b) (-4))) m
    (Optimize15 neon a b c m).
Proof.
  enter (@Optimize15).
  apply For_writes; [lia|apply land_m4_divide|]. intros i m1 Hi Hi'.
  apply For_writes; [lia|apply land_m4_divide|]. intros k m2 Hk Hk'.
  apply (micro_row_writes b c i k (Z.land (h a) (-4))); lia.
Qed.

Lemma Optimize16_writes :
  writes_within (block_cells c (Z.land (h a) (-4)) (Z.land (w b) (-4))) m
    (Optimize16 neon a b c m).
Proof.
  enter (@Optimize16).
  apply For_writes; [lia|apply land_m4_divide|]. intros k m1 Hk Hk'.
  apply For_writes; [lia|apply land_m4_divide|]. intros i m2 Hi Hi'.
  apply (micro_row_writes b c i k (Z.land (h a) (-4))); lia.
Qed.
End AlignedWrites.

(** C10. For valid parameters the aligned kernels leave the tail of C
    unchanged: Optimize11 and Optimize12 every element C[i,j] with
    j >= (B.w & ~3), Optimize13 to Optimize16 every element C[i,j] with
    i >= (A.h & ~3) or j >= (B.w & ~3). *)
Theorem aligned_kernels_leave_tail {F : Type} {FO : FloatOps F}
  (neon : bool) (K : kernel) (a b c : Matrix) (m : mem F) (i j : Z) :
  CheckParam a b c = true -> 0 <= i < h c -> 0 <= j < w c ->
  (In K [Optimize11 neon; Optimize12 neon] /\ Z.land (w b) (-4) <= j) \/
  (In K [Optimize13 neon; Optimize14 neon; Optimize15 neon; Optimize16 neon] /\
   (Z.land (h a) (-4) <= i \/ Z.land (w b) (-4) <= j)) ->
  K a b c m (elem c i j) = m (elem c i j).
Proof.
  intros Hck Hi Hj Hcases.
  pose proof (CheckParam_widths a b c Hck) as Hwb.
  pose proof (land_m4_bounds (w b)) as Hb4.
  destruct Hcases as [[HK Hout]|[HK Hout]].
  - assert (Hw : writes_within (block_cells c (h a) (Z.land (w b) (-4))) m (K a b c m)).
    { repeat (destruct HK as [<-|HK]); try contradiction;
        [apply Optimize11_writes|apply Optimize12_writes]. }
    apply Hw. apply outside_block; [lia|assumption|right; assumption].
  - assert (Hw : writes_within
                   (block_cells c (Z.land (h a) (-4)) (Z.land (w b) (-4))) m
                   (K a b c m)).
    { repeat (destruct HK as [<-|HK]); try contradiction;
        [ apply Optimize13_writes | apply Optimize14_writes
        | apply Optimize15_writes | apply Optimize16_writes ]. }
    apply Hw. apply outside_block; [lia|assumption|assumption].
Qed.

Lemma aligned_kernels_leave_tail_witness :
  Optimize13 true A57 B76 C56 mem576 (elem C56 2 5) = mem576 (elem C56 2 5).
Proof.
  apply (aligned_kernels_leave_tail true (Optimize13 true) A57 B76 C56 mem576 2 5).
  - reflexivity.
  - simpl. lia.
  - simpl. lia.
  - right. split; [simpl; tauto|]. right. simpl. lia.
Defined.

(** *** Fused and unfused accumulation *)

(** Structural equality of two floats. *)
Definition same (x y : B32.float) : bool :=
  match x, y with
  | S754_zero s, S754_zero s' => Bool.eqb s s'
  | S754_infinity s, S754_infinity s' => Bool.eqb s s'
  | S754_nan, S754_nan => true
  | S754_finite s p e, S754_finite s' p' e' =>
      Bool.eqb s s' && Pos.eqb p p' && Z.eqb e e'
  | _, _ => false
  end.

Lemma same_eq (x y : B32.float) : same x y = true -> x = y.
Proof.
  destruct x as [s|s| |s p e], y as [s'|s'| |s' p' e']; cbn; try discriminate;
    try reflexivity.
  - intros E. apply eqb_prop in E. congruence.
  - intros E. apply eqb_prop in E. congruence.
  - intros E. apply andb_prop in E. destruct E as [E E3].
    apply andb_prop in E. destruct E as [E1 E2].
    apply eqb_prop in E1. apply Pos.eqb_eq in E2. apply Z.eqb_eq in E3.
    congruence.
Qed.

(** Along the accumulation of every element of the product, starting from
    zero, each fused step returns what the multiply-then-add step returns. *)
Definition fused_exact (a b : Matrix) (m : mem B32.float) : bool :=
  forallb (fun i =>
    forallb (fun j =>
      forallb (fun k =>
        let acc := dot scalar_step m a b i j k B32.zero in
        let x := m (elem a i k) in
        let y := m (elem b k j) in
        same (fused_step acc x y) (scalar_step acc x y) &&
        same (lane_step acc x y) (scalar_step acc x y))
      (range (w a)))
    (range (w b)))
  (range (h a)).

Lemma accumulate_snoc {F : Type} (op : F -> F -> F -> F) (A B : Z -> F) (n : nat) (z : F) :
  accumulate op A B 0 (S n) z =
  op (accumulate op A B 0 n z) (A (Z.of_nat n)) (B (Z.of_nat n)).
Proof.
  replace (S n) with (n + 1)%nat by lia.
  rewrite accumulate_app. reflexivity.
Qed.

Lemma fused_exact_dot (a b : Matrix) (m : mem B32.float) (i j : Z) :
  fused_exact a b m = true -> 0 <= i < h a -> 0 <= j < w b ->
  forall n : nat, Z.of_nat n <= Z.max 0 (w a) ->
    dot fused_step m a b i j (Z.of_nat n) B32.zero =
    dot scalar_step m a b i j (Z.of_nat n) B32.zero /\
    dot lane_step m a b i j (Z.of_nat n) B32.zero =
    dot scalar_step m a b i j (Z.of_nat n) B32.zero.
Proof.
  intros Hfe Hi Hj. unfold fused_exact in Hfe.
  rewrite forallb_forall in Hfe. specialize (Hfe i (In_range _ _ Hi)).
  rewrite forallb_forall in Hfe. specialize (Hfe j (In_range _ _ Hj)).
  rewrite forallb_forall in Hfe.
  induction n as [|n IH]; intros Hn; [split; reflexivity|].
  destruct IH as [IHf IHl]; [lia|].
  assert (Hn' : 0 <= Z.of_nat n < w a) by lia.
  specialize (Hfe (Z.of_nat n) (In_range _ _ Hn')). cbv zeta in Hfe.
  apply andb_prop in Hfe. destruct Hfe as [Hf Hl].
  apply same_eq in Hf, Hl.
  unfold dot in *. rewrite !Nat2Z.id in *.
  rewrite !accumulate_snoc. rewrite IHf, IHl. split; assumption.
Qed.

Definition aligned_kernels : list kernel :=
  [Optimize11 true; Optimize12 true; Optimize13 true;
   Optimize14 true; Optimize15 true; Optimize16 true].

Lemma land_m4_multiple (x : Z) : x mod 4 = 0 -> Z.land x (-4) = x.
Proof.
  intros Hx. rewrite land_m4.
  pose proof (Z.div_mod x 4 ltac:(lia)). lia.
Qed.

Lemma aligned_in_range (a b : Matrix) (rows i j : Z) :
  w a mod 4 = 0 -> w b mod 4 = 0 ->
  0 <= i < rows -> 0 <= j < w b ->
  aligned a b rows i j = Z.max 0 (w a).
Proof.
  intros Ha Hb Hi Hj. unfold aligned, addN.
  rewrite !land_m4_multiple by assumption. destruct_cmp. lia.
Qed.


(** A 4x4 by 4x4 product of ones. *)
Definition A44 : Matrix := {| data := 100; h := 4; w := 4 |}.
Definition B44 : Matrix := {| data := 200; h := 4; w := 4 |}.
Definition C44 : Matrix := {| data := 300; h := 4; w := 4 |}.
Definition mem44 : mem B32.float :=
  fill (fill blank A44 (repeat 1 16)) B44 (repeat 1 16).

(** *** The vectorised kernels with a remainder loop *)

Lemma simd_kernels_implement (neon : bool) (K : kernel) :
  In K [Optimize5 neon; Optimize6 neon; Optimize9 neon] ->
  implements K (simd_step neon) full.
Proof.
  intros HK. repeat (destruct HK as [<-|HK]); try contradiction;
    [ apply Optimize5_implements | apply Optimize6_implements
    | apply Optimize9_implements ].
Qed.

(** X5. Optimize5, Optimize6 and Optimize9 pass the check mode for every
    shape, on a build without the vector unit and, with it, whenever the
    fused steps are exact. *)
Lemma simd_kernels_agree_with_Origin (neon : bool) (K : kernel)
  (a b c0 c1 : Matrix) (m : mem B32.float) :
  In K [Optimize5 neon; Optimize6 neon; Optimize9 neon] ->
  valid a b c0 -> valid a b c1 -> separate c0 c1 ->
  zeroed c0 m = true -> zeroed c1 m = true ->
  neon = false \/ fused_exact a b m = true ->
  CheckResult c0 c1 (K a b c1 (Origin a b c0 m)) = true.
Proof.
  intros HK Hv0 Hv1 Hsep Hz0 Hz1 Hfe.
  pose proof Hv0 as (Hck0 & _). pose proof Hv1 as (Hck1 & _).
  destruct (proj1 (CheckParam_true a b c0) Hck0) as (Hwa & Hha0 & Hwb0 & _).
  destruct (proj1 (CheckParam_true a b c1) Hck1) as (_ & Hha1 & Hwb1 & _).
  apply (passes_check K _ _ a b c0 c1 m (simd_kernels_implement neon K HK));
    try assumption.
  - intros i j. apply full_le.
  - intros i j Hi Hj. rewrite full_in_range by assumption.
    rewrite !zeroed_elem by (assumption || lia).
    unfold simd_step.
    destruct (neon && (j <? Z.land (w b) (-4))) eqn:Efused.
    + destruct Hfe as [->|Hfe]; [discriminate|].
      destruct (fused_exact_dot a b m i j Hfe Hi Hj (Z.to_nat (w a)) ltac:(lia))
        as [Ef _].
      unfold dot in *. rewrite !Nat2Z.id in *.
      replace (Z.to_nat (Z.max 0 (w a))) with (Z.to_nat (w a)) by lia.
      exact Ef.
    + unfold dot. f_equal. lia.
Qed.

(** C2 at the 5x7 by 7x3 product of ones.  Origin and Optimize9 give 7 in
    every element.  The remainder loop of Optimize10 adds the four products
    of a block of [k] to [C[i,j], C[i,j+1], C[i,j+2], C[i,j+3]] instead of
    [C[i,j]]: the first row of its result starts 4, 5, 6, CheckResult
    rejects it, and the three cells after the last element of C are
    written (3, 2, 1). *)
Theorem Optimize10_remainder_defect (neon : bool) :
  CheckResult C53 D53 (Optimize10 neon A57 B73 D53 (Origin A57 B73 C53 mem57)) = false /\
  CheckResult C53 D53 (Optimize9 neon A57 B73 D53 (Origin A57 B73 C53 mem57)) = true /\
  map (Origin A57 B73 C53 mem57) [elem C53 0 0; elem C53 0 1; elem C53 0 2]
    = map B32.of_Z [7; 7; 7] /\
  map (Optimize10 neon A57 B73 D53 mem57) [elem D53 0 0; elem D53 0 1; elem D53 0 2]
    = map B32.of_Z [4; 5; 6] /\
  map (Optimize10 neon A57 B73 D53 mem57) [elem D53 5 0; elem D53 5 1; elem D53 5 2]
    = map B32.of_Z [3; 2; 1] /\
  map mem57 [elem D53 5 0; elem D53 5 1; elem D53 5 2] = map B32.of_Z [0; 0; 0].
Proof. destruct neon; vm_compute; repeat split; reflexivity. Qed.

(** *** The 2x3 by 3x2 scenario *)

Definition cells (c : Matrix) : list Z :=
  flat_map (fun i => map (fun j => elem c i j) (range (w c))) (range (h c)).

(** C4, as the code has it. With A = [[1,2,3],[4,5,6]], B = [[7,8],[9,10],
    [11,12]] and a zeroed 2x2 C, Origin produces [[58,64],[139,154]] and
    Optimize1 .. Optimize10 reproduce it; Optimize11 .. Optimize16, whose
    loops stop at the dimensions rounded down to a multiple of four, leave
    C zero, which CheckResult rejects. *)
Theorem concrete_scenario (neon : bool) :
  map (Origin A23 B32m C22 mem23) (cells C22) = map B32.of_Z [58; 64; 139; 154] /\
  Forall (fun K : kernel =>
            CheckResult C22 D22 (K A23 B32m D22 (Origin A23 B32m C22 mem23)) = true)
         (firstn 10 (tests neon)) /\
  Forall (fun K : kernel =>
            map (K A23 B32m D22 mem23) (cells D22) = map B32.of_Z [0; 0; 0; 0] /\
            CheckResult C22 D22 (K A23 B32m D22 (Origin A23 B32m C22 mem23)) = false)
         (skipn 10 (tests neon)).
Proof.
  destruct neon; (split; [vm_compute; reflexivity|]);
    split; repeat constructor; vm_compute; reflexivity.
Qed.

(** C4 fails as stated: Optimize11 does not reproduce the result of Origin. *)
Lemma concrete_scenario_Optimize11 :
  CheckResult C22 D22 (Optimize11 true A23 B32m D22 (Origin A23 B32m C22 mem23)) = false.
Proof. vm_compute. reflexivity. Qed.

(** *** Accumulation into C *)

Lemma dot_max {F : Type} {FO : FloatOps F} (op : step) (m : mem F)
  (a b : Matrix) (i j n : Z) (z : F) :
  dot op m a b i j (Z.max 0 n) z = dot op m a b i j n z.
Proof. unfold dot. f_equal. lia. Qed.

(** A kernel that applies all [A.w] steps to [C[i,j]]: one call, and a
    second call on its result. *)
Lemma accumulates_twice {F : Type} {FO : FloatOps F} (K : kernel) op N
  (a b c : Matrix) (m : mem F) (i j : Z) :
  implements K op N -> valid a b c ->
  0 <= i < h c -> 0 <= j < w c -> N a b i j = Z.max 0 (w a) ->
  K a b c m (elem c i j) = dot (op b j) m a b i j (w a) (m (elem c i j)) /\
  K a b c (K a b c m) (elem c i j) =
    dot (op b j) m a b i j (w a) (K a b c m (elem c i j)).
Proof.
  intros HK Hv Hi Hj HN.
  pose proof Hv as (Hck & _).
  destruct (proj1 (CheckParam_true a b c) Hck) as (Hwa & Hha & Hwb & _).
  split.
  - rewrite (implements_elem K op N a b c m i j HK Hv Hi Hj).
    rewrite HN. apply dot_max.
  - rewrite (implements_elem K op N a b c (K a b c m) i j HK Hv Hi Hj).
    rewrite HN, dot_max.
    apply (dot_after K op N); try assumption; lia.
Qed.

(** The kernels that cover the whole of C, with the step each applies. *)
Definition covering {F : Type} {FO : FloatOps F} (neon : bool) :
  list (kernel * (Matrix -> Z -> step)) :=
  [ (Origin, fun _ _ => scalar_step);
    (Optimize1, fun _ _ => scalar_step); (Optimize2, fun _ _ => scalar_step);
    (Optimize3, fun _ _ => scalar_step); (Optimize4, fun _ _ => scalar_step);
    (Optimize5 neon, simd_step neon); (Optimize6 neon, simd_step neon);
    (Optimize7, fun _ _ => scalar_step); (Optimize8, fun _ _ => scalar_step);
    (Optimize9 neon, simd_step neon) ].

(** The aligned kernels of a build with the vector unit, with their step. *)
Definition blocked {F : Type} {FO : FloatOps F} :
  list (kernel * (Matrix -> Z -> step)) :=
  [ (Optimize11 true, fun _ _ => fused_step);
    (Optimize12 true, fun _ _ => fused_step);
    (Optimize13 true, fun _ _ => lane_step);
    (Optimize14 true, fun _ _ => lane_step);
    (Optimize15 true, fun _ _ => lane_step);
    (Optimize16 true, fun _ _ => lane_step) ].

Lemma covering_implements {F : Type} {FO : FloatOps F} (neon : bool) K op :
  In (K, op) (covering neon) -> implements K op full.
Proof.
  intros HK. unfold covering in HK.
  repeat (destruct HK as [[= <- <-]|HK]); try contradiction.
  - apply Origin_implements.
  - apply Optimize1_implements.
  - apply Optimize2_implements.
  - apply Optimize3_implements.
  - apply Optimize4_implements.
  - apply Optimize5_implements.
  - apply Optimize6_implements.
  - apply Optimize7_implements.
  - apply Optimize8_implements.
  - apply Optimize9_implements.
Qed.

Lemma blocked_implements {F : Type} {FO : FloatOps F} K op :
  In (K, op) blocked ->
  implements K op aligned_rows1 \/ implements K op aligned_rows4.
Proof.
  intros HK. unfold blocked in HK.
  repeat (destruct HK as [[= <- <-]|HK]); try contradiction.
  - left. apply Optimize11_implements.
  - left. apply Optimize12_implements.
  - right. apply Optimize13_implements.
  - right. apply Optimize14_implements.
  - right. apply Optimize15_implements.
  - right. apply Optimize16_implements.
Qed.

(** C5, as the code has it. Origin, Optimize1 .. Optimize9 for every valid
    input, and Optimize11 .. Optimize16 on a build with the vector unit for
    valid inputs whose dimensions are all multiples of four, accumulate into
    C: the value of C[i,j] after the call is its value before the call to
    which the products A[i,k] * B[k,j] have been added one at a time,
    k = 0 .. A.w - 1, each step rounded (multiply then add in the scalar
    code, fused in the vector code); nothing clears C, and a second call on
    the same C adds the same products once more to the result of the
    first. *)
Theorem kernels_accumulate {F : Type} {FO : FloatOps F} (neon : bool)
  (K : kernel) (op : Matrix -> Z -> step) (a b c : Matrix) (m : mem F) (i j : Z) :
  In (K, op) (covering neon) \/
  (In (K, op) blocked /\ h a mod 4 = 0 /\ w a mod 4 = 0 /\ w b mod 4 = 0) ->
  valid a b c -> 0 <= i < h c -> 0 <= j < w c ->
  K a b c m (elem c i j) = dot (op b j) m a b i j (w a) (m (elem c i j)) /\
  K a b c (K a b c m) (elem c i j) =
    dot (op b j) m a b i j (w a) (K a b c m (elem c i j)).
Proof.
  intros HK Hv Hi Hj.
  pose proof Hv as (Hck & _).
  destruct (proj1 (CheckParam_true a b c) Hck) as (Hwa & Hha & Hwb & _).
  destruct HK as [HK|(HK & Hh4 & Ha4 & Hb4)].
  - apply (accumulates_twice K op full); try assumption.
    + apply (covering_implements neon). assumption.
    + apply full_in_range; lia.
  - destruct (blocked_implements K op HK) as [HI|HI].
    + apply (accumulates_twice K op aligned_rows1); try assumption.
      unfold aligned_rows1. apply aligned_in_range; try assumption; lia.
    + apply (accumulates_twice K op aligned_rows4); try assumption.
      unfold aligned_rows4. apply aligned_in_range; try assumption;
        rewrite ?land_m4_multiple by assumption; lia.
Qed.

(** The 2x3 by 3x2 scenario with the output pre-populated with ones. *)
Definition mem23p : mem B32.float := fill mem23 D22 [1; 1; 1; 1].

Lemma kernels_accumulate_witness :
  Optimize9 true A23 B32m D22 mem23p (elem D22 1 1) =
    dot (simd_step true B32m 1) mem23p A23 B32m 1 1 (w A23) (mem23p (elem D22 1 1)) /\
  Optimize9 true A23 B32m D22 (Optimize9 true A23 B32m D22 mem23p) (elem D22 1 1) =
    dot (simd_step true B32m 1) mem23p A23 B32m 1 1 (w A23)
      (Optimize9 true A23 B32m D22 mem23p (elem D22 1 1)).
Proof.
  apply (kernels_accumulate true (Optimize9 true) (simd_step true)
           A23 B32m D22 mem23p 1 1).
  - left. unfold covering. do 9 right. left. reflexivity.
  - split; [reflexivity|split; unfold separate; simpl; lia].
  - simpl. lia.
  - simpl. lia.
Defined.

(** C5 fails as stated: on the pre-populated 2x3 by 3x2 scenario Origin
    leaves [[59,65],[140,155]], and Optimize11, none of whose loops is
    entered, leaves the ones. *)
Lemma Optimize11_adds_nothing :
  map (Origin A23 B32m D22 mem23p) (cells D22) = map B32.of_Z [59; 65; 140; 155] /\
  map (Optimize11 true A23 B32m D22 mem23p) (cells D22) = map B32.of_Z [1; 1; 1; 1].
Proof. vm_compute. split; reflexivity. Qed.

(** *** The inputs are only read *)

(** Every kernel but Optimize10. *)
Definition bounded_kernels {F : Type} {FO : FloatOps F} (neon : bool) : list kernel :=
  [ Origin; Optimize1; Optimize2; Optimize3; Optimize4;
    Optimize5 neon; Optimize6 neon; Optimize7; Optimize8; Optimize9 neon;
    Optimize11 neon; Optimize12 neon; Optimize13 neon; Optimize14 neon;
    Optimize15 neon; Optimize16 neon ].

Lemma bounded_kernels_tests {F : Type} {FO : FloatOps F} (neon : bool) (K : kernel) :
  In K (bounded_kernels neon) -> In K (Origin :: tests neon).
Proof.
  intros HK. unfold bounded_kernels in HK. unfold tests.
  repeat (destruct HK as [<-|HK]); try contradiction; simpl; tauto.
Qed.

Lemma block_inC {F : Type} {FO : FloatOps F} (c : Matrix) (rows cols p : Z) :
  rows <= h c -> cols <= w c -> block_cells c rows cols p -> inC c p.
Proof.
  intros Hr Hc (i & j & Hi & Hj & ->). unfold inC, elem.
  pose proof (index_bounds i j (h c) (w c)). lia.
Qed.

(** A kernel other than Optimize10 writes inside the buffer of C only. *)
Lemma kernel_frame {F : Type} {FO : FloatOps F} (neon : bool) (K : kernel)
  (a b c : Matrix) (m : mem F) (p : Z) :
  In K (bounded_kernels neon) -> separate c a -> separate c b ->
  ~ inC c p -> K a b c m p = m p.
Proof.
  intros HK HsA HsB Hp.
  destruct (CheckParam a b c) eqn:Hck.
  2:{ rewrite (invalid_returns neon K a b c m);
        [reflexivity|apply bounded_kernels_tests; assumption|assumption]. }
  assert (Hv : valid a b c) by (split; [assumption|split; assumption]).
  destruct (proj1 (CheckParam_true a b c) Hck) as (Hwa & Hha & Hwb & _).
  pose proof (land_m4_bounds (h a)) as Hh4.
  pose proof (land_m4_bounds (w b)) as Hb4.
  unfold bounded_kernels in HK.
  repeat (destruct HK as [<-|HK]); try contradiction.
  - apply (implements_frame _ _ _ a b c m p Origin_implements Hv Hp).
  - apply (implements_frame _ _ _ a b c m p Optimize1_implements Hv Hp).
  - apply (implements_frame _ _ _ a b c m p Optimize2_implements Hv Hp).
  - apply (implements_frame _ _ _ a b c m p Optimize3_implements Hv Hp).
  - apply (implements_frame _ _ _ a b c m p Optimize4_implements Hv Hp).
  - apply (implements_frame _ _ _ a b c m p (Optimize5_implements neon) Hv Hp).
  - apply (implements_frame _ _ _ a b c m p (Optimize6_implements neon) Hv Hp).
  - apply (implements_frame _ _ _ a b c m p Optimize7_implements Hv Hp).
  - apply (implements_frame _ _ _ a b c m p Optimize8_implements Hv Hp).
  - apply (implements_frame _ _ _ a b c m p (Optimize9_implements neon) Hv Hp).
  - apply (Optimize11_writes neon a b c m). intros Hb. apply Hp.
    apply (block_inC c _ _ p) in Hb; [assumption|lia|lia].
  - apply (Optimize12_writes neon a b c m). intros Hb. apply Hp.
    apply (block_inC c _ _ p) in Hb; [assumption|lia|lia].
  - apply (Optimize13_writes neon a b c m). intros Hb. apply Hp.
    apply (block_inC c _ _ p) in Hb; [assumption|lia|lia].
  - apply (Optimize14_writes neon a b c m). intros Hb. apply Hp.
    apply (block_inC c _ _ p) in Hb; [assumption|lia|lia].
  - apply (Optimize15_writes neon a b c m). intros Hb. apply Hp.
    apply (block_inC c _ _ p) in Hb; [assumption|lia|lia].
  - apply (Optimize16_writes neon a b c m). intros Hb. apply Hp.
    apply (block_inC c _ _ p) in Hb; [assumption|lia|lia].
Qed.

(** C9, as the code has it. When the buffer of C overlaps neither the
    buffer of A nor the buffer of B, every kernel other than Optimize10
    leaves every element of A and every element of B unchanged, whether or
    not the parameters pass validation. *)
Theorem inputs_unchanged {F : Type} {FO : FloatOps F} (neon : bool) (K : kernel)
  (a b c : Matrix) (m : mem F) :
  In K (bounded_kernels neon) -> separate c a -> separate c b ->
  (forall i k, 0 <= i < h a -> 0 <= k < w a ->
     K a b c m (elem a i k) = m (elem a i k)) /\
  (forall k j, 0 <= k < h b -> 0 <= j < w b ->
     K a b c m (elem b k j) = m (elem b k j)).
Proof.
  intros HK HsA HsB. split.
  - intros i k Hi Hk. apply (kernel_frame neon); try assumption.
    apply elem_not_inC; assumption.
  - intros k j Hk Hj. apply (kernel_frame neon); try assumption.
    apply elem_not_inC; assumption.
Qed.

Lemma inputs_unchanged_witness :
  Optimize9 true A57 B73 C53 mem57 (elem A57 4 6) = mem57 (elem A57 4 6) /\
  Optimize9 true A57 B73 C53 mem57 (elem B73 6 2) = mem57 (elem B73 6 2).
Proof.
  assert (HsA : separate C53 A57) by (unfold separate; simpl; lia).
  assert (HsB : separate C53 B73) by (unfold separate; simpl; lia).
  assert (HK : In (Optimize9 true) (bounded_kernels true))
    by (unfold bounded_kernels; do 9 right; left; reflexivity).
  split.
  - apply (proj1 (inputs_unchanged true (Optimize9 true) A57 B73 C53 mem57 HK HsA HsB));
      simpl; lia.
  - apply (proj2 (inputs_unchanged true (Optimize9 true) A57 B73 C53 mem57 HK HsA HsB));
      simpl; lia.
Defined.

(** A 1x1 view used as both inputs and as the output. *)
Definition X11 : Matrix := {| data := 100; h := 1; w := 1 |}.
Definition memX : mem B32.float := fill blank X11 [2].

(** A 5x7 view that starts where the buffer of [C53] ends. *)
Definition E57 : Matrix := {| data := 3015; h := 5; w := 7 |}.
Definition mem57e : mem B32.float :=
  fill (fill blank E57 (repeat 1 35)) B73 (repeat 1 21).

(** C9 fails as stated. Origin called with one 1x1 view holding 2 as A, B
    and C leaves 2 + 2 * 2 = 6 in it; and Optimize10, whose remainder loop
    stores up to three cells past the last element of C, changes the first
    elements of an A that lies right after C from 1 to 4, 3 and 2. *)
Lemma inputs_changed :
  memX (elem X11 0 0) = B32.of_Z 2 /\
  Origin X11 X11 X11 memX (elem X11 0 0) = B32.of_Z 6 /\
  separate C53 E57 /\ separate C53 B73 /\
  map mem57e [elem E57 0 0; elem E57 0 1; elem E57 0 2] = map B32.of_Z [1; 1; 1] /\
  map (Optimize10 true E57 B73 C53 mem57e) [elem E57 0 0; elem E57 0 1; elem E57 0 2]
    = map B32.of_Z [4; 3; 2].
Proof.
  repeat split; try (vm_compute; reflexivity); unfold separate; simpl; lia.
Qed.

(** ** Kernels that leave the same memory *)

Section SameMemory.
Context {F : Type} {FO : FloatOps F}.

(** Two kernels that apply the same steps leave the same memory. *)
Lemma implements_same (K K' : kernel) op N (a b c : Matrix) (m : mem F) (p : Z) :
  implements K op N -> implements K' op N -> valid a b c ->
  K a b c m p = K' a b c m p.
Proof.
  intros HK HK' Hv.
  rewrite (HK a b c m Hv p), (HK' a b c m Hv p). reflexivity.
Qed.

(** The loop-order and unrolling variants written with scalar code only. *)
Definition scalar_variants : list kernel :=
  [Origin; Optimize1; Optimize2; Optimize3; Optimize4; Optimize7; Optimize8].

Lemma scalar_variants_implement (K : kernel) :
  In K scalar_variants -> implements K (fun _ _ => scalar_step) full.
Proof.
  intros HK. repeat (destruct HK as [<-|HK]); try contradiction;
    [ apply Origin_implements
    | apply Optimize1_implements | apply Optimize2_implements
    | apply Optimize3_implements | apply Optimize4_implements
    | apply Optimize7_implements | apply Optimize8_implements ].
Qed.

(** The vectorised variants that keep a remainder loop. *)
Definition simd_variants (neon : bool) : list kernel :=
  [Optimize5 neon; Optimize6 neon; Optimize9 neon].

Lemma simd_variants_implement (neon : bool) (K : kernel) :
  In K (simd_variants neon) -> implements K (simd_step neon) full.
Proof.
  intros HK. repeat (destruct HK as [<-|HK]); try contradiction;
    [ apply Optimize5_implements | apply Optimize6_implements
    | apply Optimize9_implements ].
Qed.

Lemma simd_off_implement (K : kernel) :
  In K (simd_variants false) -> implements K (fun _ _ => scalar_step) full.
Proof. intros HK. exact (simd_variants_implement false K HK). Qed.

(** The aligned variants without and with register blocking. *)
Definition vector_variants (neon : bool) : list kernel :=
  [Optimize11 neon; Optimize12 neon].
Definition micro_variants (neon : bool) : list kernel :=
  [Optimize13 neon; Optimize14 neon; Optimize15 neon; Optimize16 neon].

Lemma vector_variants_implement (K : kernel) :
  In K (vector_variants true) -> implements K (fun _ _ => fused_step) aligned_rows1.
Proof.
  intros HK. repeat (destruct HK as [<-|HK]); try contradiction;
    [ apply Optimize11_implements | apply Optimize12_implements ].
Qed.

Lemma micro_variants_implement (K : kernel) :
  In K (micro_variants true) -> implements K (fun _ _ => lane_step) aligned_rows4.
Proof.
  intros HK. repeat (destruct HK as [<-|HK]); try contradiction;
    [ apply Optimize13_implements | apply Optimize14_implements
    | apply Optimize15_implements | apply Optimize16_implements ].
Qed.

(** Without the vector unit the aligned kernels have an empty body. *)
Lemma aligned_off (K : kernel) (a b c : Matrix) (m : mem F) :
  In K (vector_variants false ++ micro_variants false) -> K a b c m = m.
Proof.
  intros HK. cbn [vector_variants micro_variants app] in HK.
  repeat (destruct HK as [<-|HK]); try contradiction.
  - cbv beta delta [Optimize11]. destruct (negb (CheckParam a b c)); reflexivity.
  - cbv beta delta [Optimize12]. destruct (negb (CheckParam a b c)); reflexivity.
  - cbv beta delta [Optimize13]. destruct (negb (CheckParam a b c)); reflexivity.
  - cbv beta delta [Optimize14]. destruct (negb (CheckParam a b c)); reflexivity.
  - cbv beta delta [Optimize15]. destruct (negb (CheckParam a b c)); reflexivity.
  - cbv beta delta [Optimize16]. destruct (negb (CheckParam a b c)); reflexivity.
Qed.

(** X1. For valid parameters (CheckParam passes, the buffer of C overlaps
    neither input), Origin, Optimize1, Optimize2, Optimize3, Optimize4,
    Optimize7 and Optimize8 leave the same memory, cell for cell and bit
    for bit, whatever C held before the call and whatever the shape:
    reordering the loops and unrolling them changes no rounding. *)
Theorem scalar_variants_same_memory (K K' : kernel) (a b c : Matrix)
  (m : mem F) (p : Z) :
  In K scalar_variants -> In K' scalar_variants -> valid a b c ->
  K a b c m p = K' a b c m p.
Proof.
  intros HK HK' Hv.
  apply (implements_same K K' _ _ a b c m p
           (scalar_variants_implement K HK) (scalar_variants_implement K' HK') Hv).
Qed.

(** X2. For valid parameters Optimize5, Optimize6 and Optimize9 leave the
    same memory as one another, bit for bit; compiled without
    [__ARM_NEON] they leave the memory that Origin leaves. *)
Theorem simd_variants_same_memory (neon : bool) (K K' : kernel) (a b c : Matrix)
  (m : mem F) (p : Z) :
  In K (simd_variants neon) -> In K' (simd_variants neon) -> valid a b c ->
  K a b c m p = K' a b c m p /\
  (neon = false -> K a b c m p = Origin a b c m p).
Proof.
  intros HK HK' Hv. split.
  - apply (implements_same K K' _ _ a b c m p
             (simd_variants_implement neon K HK)
             (simd_variants_implement neon K' HK') Hv).
  - intros ->.
    apply (implements_same K Origin _ _ a b c m p
             (simd_off_implement K HK) Origin_implements Hv).
Qed.

(** X3. For valid parameters and either build, Optimize11 and Optimize12
    leave the same memory, and so do Optimize13, Optimize14, Optimize15 and
    Optimize16: the order of the two outer loops and the way the four
    values of A are fetched change nothing. *)
Theorem aligned_variants_same_memory (neon : bool) (K K' : kernel)
  (a b c : Matrix) (m : mem F) (p : Z) :
  (In K (vector_variants neon) /\ In K' (vector_variants neon)) \/
  (In K (micro_variants neon) /\ In K' (micro_variants neon)) ->
  valid a b c ->
  K a b c m p = K' a b c m p.
Proof.
  intros HK Hv. destruct neon.
  - destruct HK as [[HK HK']|[HK HK']].
    + apply (implements_same K K' _ _ a b c m p
               (vector_variants_implement K HK)
               (vector_variants_implement K' HK') Hv).
    + apply (implements_same K K' _ _ a b c m p
               (micro_variants_implement K HK)
               (micro_variants_implement K' HK') Hv).
  - rewrite (aligned_off K), (aligned_off K'); [reflexivity| |];
      apply in_or_app; tauto.
Qed.

(** The aligned kernels of a build with the vector unit: the step each
    applies and the number of rows of C it covers. *)
Definition blocked_extent : list (kernel * (Matrix -> Z -> step) * (Matrix -> Z)) :=
  [ (Optimize11 true, fun _ _ => fused_step, h);
    (Optimize12 true, fun _ _ => fused_step, h);
    (Optimize13 true, fun _ _ => lane_step, fun a => Z.land (h a) (-4));
    (Optimize14 true, fun _ _ => lane_step, fun a => Z.land (h a) (-4));
    (Optimize15 true, fun _ _ => lane_step, fun a => Z.land (h a) (-4));
    (Optimize16 true, fun _ _ => lane_step, fun a => Z.land (h a) (-4)) ].

Lemma blocked_extent_implements K op rows :
  In (K, op, rows) blocked_extent ->
  implements K op (fun a b => aligned a b (rows a)).
Proof.
  intros HK. unfold blocked_extent in HK.
  repeat (destruct HK as [[= <- <- <-]|HK]); try contradiction.
  - apply Optimize11_implements.
  - apply Optimize12_implements.
  - apply Optimize13_implements.
  - apply Optimize14_implements.
  - apply Optimize15_implements.
  - apply Optimize16_implements.
Qed.

Lemma blocked_extent_rows K op rows (a : Matrix) :
  In (K, op, rows) blocked_extent -> rows a <= Z.max 0 (h a).
Proof.
  intros HK. unfold blocked_extent in HK.
  pose proof (land_m4_bounds (h a)).
  repeat (destruct HK as [[= <- <- <-]|HK]); try contradiction; lia.
Qed.

(** X4. On a build with [__ARM_NEON], for valid parameters of any shape,
    an aligned kernel adds to each element C[i,j] of its block (j below
    B.w & ~3; every row for Optimize11 and Optimize12, the rows below
    A.h & ~3 for Optimize13 .. Optimize16) the first A.w & ~3 products
    A[i,k] * B[k,j], in ascending k, each by one fused step: the last
    A.w mod 4 products are never added. *)
Theorem aligned_block_accumulates (K : kernel) (op : Matrix -> Z -> step)
  (rows : Matrix -> Z) (a b c : Matrix) (m : mem F) (i j : Z) :
  In (K, op, rows) blocked_extent -> valid a b c ->
  0 <= i < rows a -> 0 <= j < Z.land (w b) (-4) ->
  K a b c m (elem c i j) =
    dot (op b j) m a b i j (Z.land (w a) (-4)) (m (elem c i j)).
Proof.
  intros HK Hv Hi Hj.
  pose proof Hv as (Hck & _).
  destruct (proj1 (CheckParam_true a b c) Hck) as (Hwa & Hha & Hwb & _).
  pose proof (blocked_extent_rows K op rows a HK) as Hrows.
  pose proof (land_m4_bounds (w b)) as Hb4.
  rewrite (implements_elem K op _ a b c m i j
             (blocked_extent_implements K op rows HK) Hv) by lia.
  rewrite <- (dot_max (op b j) m a b i j (Z.land (w a) (-4))).
  f_equal. unfold aligned, addN. destruct_cmp. lia.
Qed.
End SameMemory.

Lemma scalar_variants_same_memory_witness :
  Optimize8 A57 B73 C53 mem57 (elem C53 4 2) = Origin A57 B73 C53 mem57 (elem C53 4 2).
Proof.
  apply (scalar_variants_same_memory Optimize8 Origin A57 B73 C53 mem57).
  - unfold scalar_variants. do 6 right. left. reflexivity.
  - unfold scalar_variants. left. reflexivity.
  - split; [reflexivity|split; unfold separate; simpl; lia].
Defined.

Lemma simd_variants_same_memory_witness :
  Optimize5 true A57 B73 C53 mem57 (elem C53 4 2) =
    Optimize9 true A57 B73 C53 mem57 (elem C53 4 2) /\
  (true = false ->
   Optimize5 true A57 B73 C53 mem57 (elem C53 4 2) = Origin A57 B73 C53 mem57 (elem C53 4 2)).
Proof.
  apply (simd_variants_same_memory true (Optimize5 true) (Optimize9 true)
           A57 B73 C53 mem57).
  - unfold simd_variants. left. reflexivity.
  - unfold simd_variants. do 2 right. left. reflexivity.
  - split; [reflexivity|split; unfold separate; simpl; lia].
Defined.

Lemma aligned_variants_same_memory_witness :
  Optimize13 true A57 B76 C56 mem576 (elem C56 1 1) =
    Optimize16 true A57 B76 C56 mem576 (elem C56 1 1).
Proof.
  apply (aligned_variants_same_memory true (Optimize13 true) (Optimize16 true)
           A57 B76 C56 mem576).
  - right. unfold micro_variants. split; [left; reflexivity|].
    do 3 right. left. reflexivity.
  - split; [reflexivity|split; unfold separate; simpl; lia].
Defined.

Lemma aligned_block_accumulates_witness :
  Optimize14 true A57 B76 C56 mem576 (elem C56 3 3) =
    dot lane_step mem576 A57 B76 3 3 (Z.land (w A57) (-4)) (mem576 (elem C56 3 3)).
Proof.
  apply (aligned_block_accumulates (Optimize14 true) (fun _ _ => lane_step)
           (fun a => Z.land (h a) (-4)) A57 B76 C56 mem576 3 3).
  - unfold blocked_extent. do 3 right. left. reflexivity.
  - split; [reflexivity|split; unfold separate; simpl; lia].
  - simpl. lia.
  - simpl. lia.
Defined.

(** ** Optimize10 where its remainder loop is not reached *)

Section Optimize10Cases.
Context {F : Type} {FO : FloatOps F}.
Variables a b c : Matrix.
Variable m0 : mem F.
Variable op : Z -> F -> F -> F -> F.
Variable neon : bool.

Hypothesis Hck : CheckParam a b c = true.
Hypothesis HsepA : separate c a.
Hypothesis HsepB : separate c b.
Hypothesis Hopf : forall j, 0 <= j < simd_cols b neon -> fused_at op j.
Hypothesis Hops : forall j, simd_cols b neon <= j -> scalar_at op j.

Ltac steps_solve := intros; unfold addN; destruct_cmp; try lia.

Ltac peel_state_let :=
  lazymatch goal with
  | |- state ?a' ?b' ?c' ?m' ?op' ?N' (let x := ?t in @?body x) =>
      change (state a' b' c' m' op' N' (body t)); cbv beta
  end.

(** A row of the block of four [k] when every column is a vector column:
    the loop that follows the vector loop has nothing left to do. *)
Lemma row_vec4_then (tail : Z -> mem F -> mem F) (i k : Z) (a0 a1 a2 a3 : F)
  (vA0 vA1 vA2 vA3 : float32x4_t) N m :
  w a = h b -> w b = w c -> w b mod 4 = 0 ->
  0 <= i < h c -> 0 <= k -> k + 4 <= w a ->
  a0 = Aval a m0 i k -> a1 = Aval a m0 i (k + 1) ->
  a2 = Aval a m0 i (k + 2) -> a3 = Aval a m0 i (k + 3) ->
  vA0 = vdupq_n_f32 a0 -> vA1 = vdupq_n_f32 a1 ->
  vA2 = vdupq_n_f32 a2 -> vA3 = vdupq_n_f32 a3 ->
  (forall j, 0 <= j < w b -> fused_at op j) ->
  state a b c m0 op N m ->
  (forall i' j', i <= i' < i + 1 -> 0 <= j' < w b -> N i' j' = k) ->
  state a b c m0 op (addN N i (i + 1) 0 (w b) 4)
    (let '(j, m) := For 0 (Z.land (w b) (-4)) 4 (vec4 b c i k vA0 vA1 vA2 vA3) m in
     snd (For j (w b) 1 tail m)).
Proof.
  intros Hwa Hwb Hb4 Hi Hk Hk' Ha0 Ha1 Ha2 Ha3 HvA0 HvA1 HvA2 HvA3 Hop Hst HN.
  pose proof (land_m4_multiple (w b) Hb4) as Hland.
  destruct (loop_j a b c m0 op (vec4 b c i k vA0 vA1 vA2 vA3)
              i (i + 1) 0 (Z.land (w b) (-4)) 4 k 4 N m) as [Hfst Hsnd];
    try assumption; try lia.
  - apply land_m4_divide.
  - intros N' m' j Hj Hj' Hst' HN'.
    apply (vec4_pass a b c m0 op Hwa HsepB Hwb i k a0 a1 a2 a3); auto; try lia.
    intros j' Hjj. apply Hop. lia.
  - intros i' j' Hi' Hj'. apply HN; lia.
  - destruct (For 0 (Z.land (w b) (-4)) 4 (vec4 b c i k vA0 vA1 vA2 vA3) m)
      as [j1 m1].
    cbn [fst snd] in Hfst, Hsnd. subst j1.
    rewrite For_nop by lia. cbn [snd].
    eapply state_ext; [|exact Hsnd]. steps_solve.
Qed.

Hypothesis Hcase : Z.land (w a) (-4) <= 0 \/ (neon = true /\ w b mod 4 = 0).

Theorem Optimize10_state : state a b c m0 op (full a b) (Optimize10 neon a b c m0).
Proof.
  destruct (proj1 (CheckParam_true a b c) Hck) as (Hwa & Hha & Hwb & _).
  cbv beta delta [Optimize10]. rewrite Hck.
  cbv beta iota delta [negb]. do 4 peel_state_let.
  pose proof (land_m4_bounds (w a)) as Ha4.
  lazymatch goal with
  | |- context [@For ?S 0 (Z.land (w a) (-4)) 4 ?p m0] =>
      assert (Hfs : fst (@For S 0 (Z.land (w a) (-4)) 4 p m0)
                    = Z.max 0 (Z.land (w a) (-4)) /\
                    state a b c m0 op
                      (addN (fun _ _ => 0) 0 (h a) 0 (w b)
                         (Z.max 0 (Z.land (w a) (-4)) - 0))
                      (snd (@For S 0 (Z.land (w a) (-4)) 4 p m0)));
      [ apply (loop_k a b c m0 op p 0 (h a) (w b) 0 (Z.land (w a) (-4)) 4
                 (fun _ _ => 0) m0);
        [lia|apply land_m4_divide| |apply state_init|reflexivity]
      | revert Hfs; generalize (@For S 0 (Z.land (w a) (-4)) 4 p m0);
        intros [k1 m1] [Hf Hs]; cbn [fst snd] in Hf, Hs; subst k1;
        cbv beta iota ]
  end.
  - intros N m k Hk Hk' Hst HN. cbv beta.
    destruct Hcase as [Hsmall|[Hneon Hb4]]; [lia|]. subst neon.
    apply (loop_i a b c m0 op _ (h a) 1 (w b) k 4 N m);
      [lia|apply divide_1| |exact Hst|exact HN].
    intros N' m' i Hi Hi' Hst' HN'. cbv beta. do 9 peel_state_let.
    cbv beta iota.
    apply (row_vec4_then _ i k (m' (data a + (i * w a + k)))
             (m' (data a + (i * w a + k + 1))) (m' (data a + (i * w a + k + 2)))
             (m' (data a + (i * w a + k + 3))) _ _ _ _ N' m'); auto; try lia;
      try (eapply readA; eauto; lia).
    intros j Hj. apply Hopf. unfold simd_cols.
    rewrite land_m4_multiple by assumption. lia.
  - eapply state_ext;
      [|eapply loop_k with (i0 := 0) (i1 := h a) (W' := w b)
          (k0 := Z.max 0 (Z.land (w a) (-4))) (d := 1);
        [lia|apply divide_1| |exact Hs|]].
    + unfold full. steps_solve.
    + intros N mk k Hk Hk' Hst HN. cbv beta.
      apply (loop_i a b c m0 op _ (h a) 1 (w b) k 1 N mk);
        [lia|apply divide_1| |exact Hst|exact HN].
      intros N' m' i Hi Hi' Hst' HN'. cbv beta. do 3 peel_state_let.
      apply (row_simd a b c m0 op Hwa HsepB Hwb neon i k
               (m' (data a + (i * w a + k))) _ N' m'); auto; try lia.
      eapply readA; eauto; lia.
    + intros i' j' Hii Hjj. unfold addN. destruct_cmp. lia.
Qed.
End Optimize10Cases.

(** ** The cells a kernel may write, whatever the buffers overlap *)

Section WriteBounds.
Context {F : Type} {FO : FloatOps F}.

Lemma writes_mono (S S' : Z -> Prop) (m m' : mem F) :
  (forall p, S p -> S' p) -> writes_within S m m' -> writes_within S' m m'.
Proof. intros HS Hw p Hp. apply Hw. intros Hs. apply Hp, HS, Hs. Qed.

Lemma add_assign_writes (S : Z -> Prop) (m : mem F) (e : Z) (v : F) :
  S e -> writes_within S m (add_assign m e v).
Proof.
  intros HS p Hp. unfold add_assign, store.
  destruct (Z.eqb_spec p e) as [->|_]; [contradiction|reflexivity].
Qed.

(** One statement [pC[..] += ..] followed by the rest of a body. *)
Lemma writes_step (S : Z -> Prop) (m m1 : mem F) (e : Z) (v : F)
  (body : mem F -> mem F) :
  S e -> writes_within S m m1 ->
  (forall m2, writes_within S m m2 -> writes_within S m (body m2)) ->
  writes_within S m (let x := add_assign m1 e v in body x).
Proof.
  intros HS Hm1 Hbody. cbv zeta. apply Hbody.
  eapply writes_trans; [exact Hm1|]. apply add_assign_writes. exact HS.
Qed.

(** A loop in steps of [stp] followed by the loop over what is left. *)
Lemma two_loops_writes (S : Z -> Prop) (first tail : Z -> mem F -> mem F)
  (J W stp : Z) (m : mem F) :
  0 < stp -> (stp | J - 0) ->
  (forall x m', 0 <= x -> x + stp <= J -> writes_within S m' (first x m')) ->
  (forall x m', 0 <= x -> x + 1 <= W -> writes_within S m' (tail x m')) ->
  writes_within S m
    (let '(j, m1) := For 0 J stp first m in snd (For j W 1 tail m1)).
Proof.
  intros Hstp Hdiv Hfirst Htail.
  destruct (For_exact (fun _ m' => writes_within S m m') first 0 J stp m)
    as [Hfst Hsnd]; try assumption.
  - apply writes_refl.
  - intros x m' Hx Hx' Hm'. eapply writes_trans; [exact Hm'|].
    apply Hfirst; assumption.
  - destruct (For 0 J stp first m) as [j1 m1]. cbn [fst snd] in Hfst, Hsnd.
    subst j1. eapply writes_trans; [exact Hsnd|].
    apply For_writes; [lia|exists (W - Z.max 0 J); lia|].
    intros x m' Hx Hx'. apply Htail; lia.
Qed.

(** The cells of the first [rows] rows and [cols] columns of a view, and
    the [over] cells that follow each of them. *)
Definition cells_over (c : Matrix) (rows cols over : Z) (p : Z) : Prop :=
  exists i j t, 0 <= i < rows /\ 0 <= j < cols /\ 0 <= t <= over /\
                p = elem c i j + t.

Lemma cells_over_bounds (c : Matrix) (over p : Z) :
  cells_over c (h c) (w c) over p ->
  data c <= p < data c + h c * w c + over.
Proof.
  intros (i & j & t & Hi & Hj & Ht & ->). unfold elem.
  pose proof (index_bounds i j (h c) (w c) Hi Hj). lia.
Qed.

Ltac in_cells :=
  let close := (unfold elem; repeat split; lia) in
  lazymatch goal with
  | |- cells_over ?c _ _ _ (data ?c + (?i * w ?c + ?j + ?t)) =>
      first [ solve [exists i, (j + t), 0; close]
            | solve [exists i, j, t; close] ]
  | |- cells_over ?c _ _ _ (data ?c + (?i * w ?c + ?j)) =>
      exists i, j, 0; close
  | |- cells_over ?c _ _ _ (data ?c + ?i * w ?c + ?j + ?t) =>
      exists i, (j + t), 0; close
  end.

Ltac writes_go :=
  cbv beta;
  lazymatch goal with
  | |- writes_within _ ?m ?m => apply writes_refl
  | |- writes_within _ _ (let x := add_assign _ _ _ in _) =>
      lazymatch goal with
      | |- writes_within ?S ?m (let x := add_assign ?m1 ?e ?v in @?body x) =>
          apply (writes_step S m m1 e v body);
          [ in_cells
          | first [apply writes_refl | assumption]
          | let m2 := fresh "m" in let Hm2 := fresh "Hm" in
            intros m2 Hm2; writes_go ]
      end
  | |- writes_within ?S ?m (add_assign ?m1 ?e ?v) =>
      eapply writes_trans;
      [ first [apply writes_refl | eassumption]
      | apply add_assign_writes; in_cells ]
  | |- writes_within ?S ?m (vst1q_f32 ?m ?e ?v) =>
      apply vst_writes;
      let t := fresh "t" in let Ht := fresh "Ht" in intros t Ht; in_cells
  | |- writes_within ?S ?m (snd (For 0 (Z.land ?X (-4)) 4 ?body ?m)) =>
      apply For_writes; [lia|apply land_m4_divide|];
      let x := fresh "x" in let m' := fresh "m" in
      intros x m' ? ?; writes_go
  | |- writes_within ?S ?m (snd (For 0 ?X 1 ?body ?m)) =>
      apply For_writes; [lia|apply divide_1|];
      let x := fresh "x" in let m' := fresh "m" in
      intros x m' ? ?; writes_go
  | |- writes_within ?S ?m (match For 0 (Z.land ?X (-4)) 4 ?first ?m with
                             | pair j m1 => _ end) =>
      apply (two_loops_writes S first _ (Z.land X (-4)) _ 4 m);
      [ lia | apply land_m4_divide
      | let x := fresh "x" in let m' := fresh "m" in
        intros x m' ? ?; writes_go
      | let x := fresh "x" in let m' := fresh "m" in
        intros x m' ? ?; writes_go ]
  | |- writes_within ?S ?m (let x := ?t in @?body x) =>
      change (writes_within S m (body t)); writes_go
  | |- _ => assumption
  end.

Variables a b c : Matrix.
Variable m : mem F.

Ltac enter K :=
  cbv beta delta [K];
  destruct (CheckParam a b c) eqn:Hck; cbv beta iota delta [negb];
  [|apply writes_refl];
  pose proof (CheckParam_widths a b c Hck) as Hwb;
  pose proof (land_m4_bounds (w a)) as Ha4;
  pose proof (land_m4_bounds (w b)) as Hb4.

Lemma Origin_writes : writes_within (cells_over c (h a) (w b) 0) m (Origin a b c m).
Proof. enter (@Origin). writes_go. Qed.

Lemma Optimize1_writes :
  writes_within (cells_over c (h a) (w b) 0) m (Optimize1 a b c m).
Proof. enter (@Optimize1). writes_go. Qed.

Lemma Optimize2_writes :
  writes_within (cells_over c (h a) (w b) 0) m (Optimize2 a b c m).
Proof. enter (@Optimize2). writes_go. Qed.

Lemma Optimize3_writes :
  writes_within (cells_over c (h a) (w b) 0) m (Optimize3 a b c m).
Proof. enter (@Optimize3). writes_go. Qed.

Lemma Optimize4_writes :
  writes_within (cells_over c (h a) (w b) 0) m (Optimize4 a b c m).
Proof. enter (@Optimize4). writes_go. Qed.

Lemma Optimize7_writes :
  writes_within (cells_over c (h a) (w b) 0) m (Optimize7 a b c m).
Proof. enter (@Optimize7). writes_go. Qed.

Lemma Optimize8_writes :
  writes_within (cells_over c (h a) (w b) 0) m (Optimize8 a b c m).
Proof. enter (@Optimize8). writes_go. Qed.

Variable neon : bool.

Lemma Optimize5_writes :
  writes_within (cells_over c (h a) (w b) 0) m (Optimize5 neon a b c m).
Proof. enter (@Optimize5). destruct neon; writes_go. Qed.

Lemma Optimize6_writes :
  writes_within (cells_over c (h a) (w b) 0) m (Optimize6 neon a b c m).
Proof. enter (@Optimize6). destruct neon; writes_go. Qed.

Lemma Optimize9_writes :
  writes_within (cells_over c (h a) (w b) 0) m (Optimize9 neon a b c m).
Proof. enter (@Optimize9). destruct neon; writes_go. Qed.

Lemma Optimize10_writes :
  writes_within (cells_over c (h a) (w b) 3) m (Optimize10 neon a b c m).
Proof. enter (@Optimize10). destruct neon; writes_go. Qed.
End WriteBounds.

Lemma simd_kernels_agree_with_Origin_witness :
  CheckResult C53 D53 (Optimize9 true A57 B73 D53 (Origin A57 B73 C53 mem57)) = true.
Proof.
  apply (simd_kernels_agree_with_Origin true (Optimize9 true) A57 B73 C53 D53 mem57).
  - do 2 right. left. reflexivity.
  - split; [reflexivity|split; unfold separate; simpl; lia].
  - split; [reflexivity|split; unfold separate; simpl; lia].
  - unfold separate; simpl; lia.
  - vm_compute. reflexivity.
  - vm_compute. reflexivity.
  - right. vm_compute. reflexivity.
Defined.

Lemma small_width (x : Z) : x < 4 -> Z.land x (-4) <= 0.
Proof.
  intros Hx. rewrite land_m4.
  assert (x / 4 < 1) by (apply Z.div_lt_upper_bound; lia). lia.
Qed.

Lemma Optimize10_implements_cases {F : Type} {FO : FloatOps F} (neon : bool)
  (a b c : Matrix) (m : mem F) :
  valid a b c -> w a < 4 \/ (neon = true /\ w b mod 4 = 0) ->
  state a b c m (simd_step neon b) (full a b) (Optimize10 neon a b c m).
Proof.
  intros (Hck & HsA & HsB) Hcase.
  apply Optimize10_state; try assumption.
  - intros j Hj z x y. rewrite simd_step_fused by assumption. reflexivity.
  - intros j Hj z x y. rewrite simd_step_scalar by assumption. reflexivity.
  - destruct Hcase as [Hsmall|Hcase]; [left; apply small_width; assumption|].
    right. exact Hcase.
Qed.

(** X6. The staggered stores of Optimize10 sit in the remainder loop over
    j inside the loop over blocks of four k.  Where that code is not
    reached -- A.w < 4, so that there is no block of four k, or a build with
    [__ARM_NEON] and B.w a multiple of 4, so that the vector loop leaves no
    column -- Optimize10 leaves, for valid parameters, the same memory as
    Optimize9, bit for bit. *)
Theorem Optimize10_agrees_outside_remainder {F : Type} {FO : FloatOps F}
  (neon : bool) (a b c : Matrix) (m : mem F) (p : Z) :
  valid a b c -> w a < 4 \/ (neon = true /\ w b mod 4 = 0) ->
  Optimize10 neon a b c m p = Optimize9 neon a b c m p.
Proof.
  intros Hv Hcase.
  rewrite (Optimize10_implements_cases neon a b c m Hv Hcase p).
  rewrite (Optimize9_implements neon a b c m Hv p). reflexivity.
Qed.

(** A 5x7 by 7x8 product: B.w is a multiple of four, A.w and A.h are not. *)
Definition B78 : Matrix := {| data := 2000; h := 7; w := 8 |}.
Definition C58 : Matrix := {| data := 3000; h := 5; w := 8 |}.
Definition mem578 : mem B32.float :=
  fill (fill blank A57 (repeat 1 35)) B78 (repeat 1 56).

Lemma Optimize10_agrees_outside_remainder_witness :
  Optimize10 true A57 B78 C58 mem578 (elem C58 4 7) =
    Optimize9 true A57 B78 C58 mem578 (elem C58 4 7).
Proof.
  apply (Optimize10_agrees_outside_remainder true A57 B78 C58 mem578).
  - split; [reflexivity|split; unfold separate; simpl; lia].
  - right. split; reflexivity.
Defined.

(** X7. Whatever the parameters and the build, Optimize10 changes no cell
    below the first element of C and no cell from the fourth cell past its
    last element on: its staggered stores overrun the buffer of C by at
    most three cells. *)
Theorem Optimize10_overrun_bound {F : Type} {FO : FloatOps F}
  (neon : bool) (a b c : Matrix) (m : mem F) (p : Z) :
  ~ (data c <= p < data c + h c * w c + 3) ->
  Optimize10 neon a b c m p = m p.
Proof.
  intros Hp.
  destruct (CheckParam a b c) eqn:Hck.
  - destruct (proj1 (CheckParam_true a b c) Hck) as (_ & Hha & Hwb & _).
    apply (Optimize10_writes a b c m neon). intros Hin. apply Hp.
    rewrite Hha, Hwb in Hin. apply cells_over_bounds. exact Hin.
  - rewrite (invalid_returns neon (Optimize10 neon) a b c m);
      [reflexivity| |assumption].
    unfold tests. do 10 right. left. reflexivity.
Qed.

Lemma Optimize10_overrun_bound_witness :
  Optimize10 true A57 B73 D53 mem57 (data D53 + 18) = mem57 (data D53 + 18).
Proof.
  apply (Optimize10_overrun_bound true A57 B73 D53 mem57).
  simpl. lia.
Defined.

Lemma cells_inC {F : Type} {FO : FloatOps F} (c : Matrix) (p : Z) :
  cells_over c (h c) (w c) 0 p -> inC c p.
Proof. intros Hin. apply cells_over_bounds in Hin. unfold inC. lia. Qed.

(** X8. Whatever the parameters -- valid or not, the buffers overlapping
    or not -- and whatever the build, every kernel other than Optimize10
    changes no cell outside the [C.h * C.w] cells of the buffer of C. *)
Theorem kernels_write_inside_C {F : Type} {FO : FloatOps F} (neon : bool)
  (K : kernel) (a b c : Matrix) (m : mem F) (p : Z) :
  In K (bounded_kernels neon) -> ~ inC c p -> K a b c m p = m p.
Proof.
  intros HK Hp.
  destruct (CheckParam a b c) eqn:Hck.
  2:{ rewrite (invalid_returns neon K a b c m);
        [reflexivity|apply bounded_kernels_tests; assumption|assumption]. }
  destruct (proj1 (CheckParam_true a b c) Hck) as (_ & Hha & Hwb & _).
  pose proof (land_m4_bounds (h a)) as Hh4.
  pose proof (land_m4_bounds (w b)) as Hb4.
  assert (Hin : forall q, cells_over c (h a) (w b) 0 q -> inC c q).
  { intros q Hq. rewrite Hha, Hwb in Hq. apply cells_inC. exact Hq. }
  assert (Hblock : forall rows cols q, rows <= h c -> cols <= w c ->
                     block_cells c rows cols q -> inC c q).
  { intros rows cols q Hr Hc. apply block_inC; assumption. }
  unfold bounded_kernels in HK.
  repeat (destruct HK as [<-|HK]); try contradiction.
  - apply (Origin_writes a b c m). intros Hq. apply Hp, Hin, Hq.
  - apply (Optimize1_writes a b c m). intros Hq. apply Hp, Hin, Hq.
  - apply (Optimize2_writes a b c m). intros Hq. apply Hp, Hin, Hq.
  - apply (Optimize3_writes a b c m). intros Hq. apply Hp, Hin, Hq.
  - apply (Optimize4_writes a b c m). intros Hq. apply Hp, Hin, Hq.
  - apply (Optimize5_writes a b c m neon). intros Hq. apply Hp, Hin, Hq.
  - apply (Optimize6_writes a b c m neon). intros Hq. apply Hp, Hin, Hq.
  - apply (Optimize7_writes a b c m). intros Hq. apply Hp, Hin, Hq.
  - apply (Optimize8_writes a b c m). intros Hq. apply Hp, Hin, Hq.
  - apply (Optimize9_writes a b c m neon). intros Hq. apply Hp, Hin, Hq.
  - apply (Optimize11_writes neon a b c m). intros Hq. apply Hp.
    apply (Hblock _ _ p) in Hq; [assumption|lia|lia].
  - apply (Optimize12_writes neon a b c m). intros Hq. apply Hp.
    apply (Hblock _ _ p) in Hq; [assumption|lia|lia].
  - apply (Optimize13_writes neon a b c m). intros Hq. apply Hp.
    apply (Hblock _ _ p) in Hq; [assumption|lia|lia].
  - apply (Optimize14_writes neon a b c m). intros Hq. apply Hp.
    apply (Hblock _ _ p) in Hq; [assumption|lia|lia].
  - apply (Optimize15_writes neon a b c m). intros Hq. apply Hp.
    apply (Hblock _ _ p) in Hq; [assumption|lia|lia].
  - apply (Optimize16_writes neon a b c m). intros Hq. apply Hp.
    apply (Hblock _ _ p) in Hq; [assumption|lia|lia].
Qed.

(** One 1x1 view as both inputs and as output. *)
Lemma kernels_write_inside_C_witness :
  Optimize3 X11 X11 X11 memX (data X11 + 1) = memX (data X11 + 1).
Proof.
  apply (kernels_write_inside_C true Optimize3 X11 X11 X11 memX).
  - unfold bounded_kernels. do 3 right. left. reflexivity.
  - unfold inC. simpl. lia.
Defined.

(** ** Shapes without rows, columns or products *)

Section Degenerate.
Context {F : Type} {FO : FloatOps F}.

Lemma For_nop_writes (S : Z -> Prop) (body : Z -> mem F -> mem F)
  (lo hi stp : Z) (m : mem F) :
  hi <= lo -> writes_within S m (snd (For lo hi stp body m)).
Proof. intros Hle. rewrite For_nop by assumption. apply writes_refl. Qed.

Lemma two_loops_nop_first (S : Z -> Prop) (first tail : Z -> mem F -> mem F)
  (J W stp : Z) (m : mem F) :
  J <= 0 ->
  (forall x m', 0 <= x -> x + 1 <= W -> writes_within S m' (tail x m')) ->
  writes_within S m
    (let '(j, m1) := For 0 J stp first m in snd (For j W 1 tail m1)).
Proof.
  intros HJ Htail. rewrite For_nop by assumption. cbv beta iota.
  apply For_writes; [lia|exists W; lia|].
  intros x m' Hx Hx'. apply Htail; lia.
Qed.

Ltac nop_go :=
  cbv beta;
  lazymatch goal with
  | |- writes_within _ ?m ?m => apply writes_refl
  | |- writes_within ?S ?m (snd (For ?lo ?hi ?stp ?body ?m)) =>
      first
        [ apply For_nop_writes; lia
        | apply For_writes;
          [ lia | first [apply divide_1 | apply land_m4_divide] | ];
          let x := fresh "x" in let m' := fresh "m" in
          intros x m' ? ?; nop_go ]
  | |- writes_within ?S ?m (let '(j, m1) := For 0 ?J ?stp ?first ?m in _) =>
      first
        [ apply two_loops_nop_first; [lia|];
          let x := fresh "x" in let m' := fresh "m" in
          intros x m' ? ?; nop_go
        | apply (two_loops_writes S first _ J _ stp m);
          [ lia | apply land_m4_divide
          | let x := fresh "x" in let m' := fresh "m" in
            intros x m' ? ?; nop_go
          | let x := fresh "x" in let m' := fresh "m" in
            intros x m' ? ?; nop_go ] ]
  | |- writes_within _ _ (let x := add_assign _ _ _ in _) => exfalso; lia
  | |- writes_within _ _ (let x := vst1q_f32 _ _ _ in _) => exfalso; lia
  | |- writes_within ?S ?m (let x := ?t in @?body x) =>
      change (writes_within S m (body t)); nop_go
  | |- _ => exfalso; lia
  end.

Variables a b c : Matrix.
Variable m : mem F.
Hypothesis Hempty : h a <= 0 \/ w a <= 0 \/ w b <= 0.

Ltac enter K :=
  cbv beta delta [K];
  destruct (CheckParam a b c) eqn:Hck; cbv beta iota delta [negb];
  [|apply writes_refl];
  pose proof (land_m4_bounds (h a)) as Hh4;
  pose proof (land_m4_bounds (w a)) as Ha4;
  pose proof (land_m4_bounds (w b)) as Hb4.

Definition nowhere : Z -> Prop := fun _ => False.

Lemma Origin_empty : writes_within nowhere m (Origin a b c m).
Proof. enter (@Origin). nop_go. Qed.

Lemma Optimize1_empty : writes_within nowhere m (Optimize1 a b c m).
Proof. enter (@Optimize1). nop_go. Qed.

Lemma Optimize2_empty : writes_within nowhere m (Optimize2 a b c m).
Proof. enter (@Optimize2). nop_go. Qed.

Lemma Optimize3_empty : writes_within nowhere m (Optimize3 a b c m).
Proof. enter (@Optimize3). nop_go. Qed.

Lemma Optimize4_empty : writes_within nowhere m (Optimize4 a b c m).
Proof. enter (@Optimize4). nop_go. Qed.

Lemma Optimize7_empty : writes_within nowhere m (Optimize7 a b c m).
Proof. enter (@Optimize7). nop_go. Qed.

Lemma Optimize8_empty : writes_within nowhere m (Optimize8 a b c m).
Proof. enter (@Optimize8). nop_go. Qed.

Variable neon : bool.

Lemma Optimize5_empty : writes_within nowhere m (Optimize5 neon a b c m).
Proof. enter (@Optimize5). destruct neon; nop_go. Qed.

Lemma Optimize6_empty : writes_within nowhere m (Optimize6 neon a b c m).
Proof. enter (@Optimize6). destruct neon; nop_go. Qed.

Lemma Optimize9_empty : writes_within nowhere m (Optimize9 neon a b c m).
Proof. enter (@Optimize9). destruct neon; nop_go. Qed.

Lemma Optimize10_empty : writes_within nowhere m (Optimize10 neon a b c m).
Proof. enter (@Optimize10). destruct neon; nop_go. Qed.

Lemma Optimize11_empty : writes_within nowhere m (Optimize11 neon a b c m).
Proof. enter (@Optimize11). destruct neon; nop_go. Qed.

Lemma Optimize12_empty : writes_within nowhere m (Optimize12 neon a b c m).
Proof. enter (@Optimize12). destruct neon; nop_go. Qed.

Lemma Optimize13_empty : writes_within nowhere m (Optimize13 neon a b c m).
Proof. enter (@Optimize13). destruct neon; nop_go. Qed.

Lemma Optimize14_empty : writes_within nowhere m (Optimize14 neon a b c m).
Proof. enter (@Optimize14). destruct neon; nop_go. Qed.

Lemma Optimize15_empty : writes_within nowhere m (Optimize15 neon a b c m).
Proof. enter (@Optimize15). destruct neon; nop_go. Qed.

Lemma Optimize16_empty : writes_within nowhere m (Optimize16 neon a b c m).
Proof. enter (@Optimize16). destruct neon; nop_go. Qed.
End Degenerate.

(** X9. When A has no row (A.h <= 0), or B no column (B.w <= 0), or there is
    nothing to contract (A.w <= 0), each of the seventeen kernels leaves the
    whole memory as it was, whatever the other parameters and the build. *)
Theorem empty_shapes_change_nothing {F : Type} {FO : FloatOps F} (neon : bool)
  (K : kernel) (a b c : Matrix) (m : mem F) (p : Z) :
  In K (Origin :: tests neon) -> h a <= 0 \/ w a <= 0 \/ w b <= 0 ->
  K a b c m p = m p.
Proof.
  intros HK Hempty. unfold tests in HK.
  assert (Hno : ~ nowhere p) by (intros []).
  repeat (destruct HK as [<-|HK]); try contradiction.
  - apply (Origin_empty a b c m Hempty p Hno).
  - apply (Optimize1_empty a b c m Hempty p Hno).
  - apply (Optimize2_empty a b c m Hempty p Hno).
  - apply (Optimize3_empty a b c m Hempty p Hno).
  - apply (Optimize4_empty a b c m Hempty p Hno).
  - apply (Optimize5_empty a b c m Hempty neon p Hno).
  - apply (Optimize6_empty a b c m Hempty neon p Hno).
  - apply (Optimize7_empty a b c m Hempty p Hno).
  - apply (Optimize8_empty a b c m Hempty p Hno).
  - apply (Optimize9_empty a b c m Hempty neon p Hno).
  - apply (Optimize10_empty a b c m Hempty neon p Hno).
  - apply (Optimize11_empty a b c m Hempty neon p Hno).
  - apply (Optimize12_empty a b c m Hempty neon p Hno).
  - apply (Optimize13_empty a b c m Hempty neon p Hno).
  - apply (Optimize14_empty a b c m Hempty neon p Hno).
  - apply (Optimize15_empty a b c m Hempty neon p Hno).
  - apply (Optimize16_empty a b c m Hempty neon p Hno).
Qed.

(** A 3x0 by 0x2 product: the output has six elements and nothing is added
    to them. *)
Definition A30 : Matrix := {| data := 100; h := 3; w := 0 |}.
Definition B02 : Matrix := {| data := 200; h := 0; w := 2 |}.
Definition C32 : Matrix := {| data := 300; h := 3; w := 2 |}.

Lemma empty_shapes_change_nothing_witness :
  Optimize10 true A30 B02 C32 mem23 (elem C32 1 1) = mem23 (elem C32 1 1).
Proof.
  apply (empty_shapes_change_nothing true (Optimize10 true) A30 B02 C32 mem23).
  - unfold tests. do 10 right. left. reflexivity.
  - right. left. simpl. lia.
Defined.

(** ** More about the comparator *)

Lemma SFabs_binary_round_aux (s s' : bool) (mx ex : Z) (lx : location) :
  SFabs (binary_round_aux B32.prec B32.emax s mx ex lx) =
  SFabs (binary_round_aux B32.prec B32.emax s' mx ex lx).
Proof.
  unfold binary_round_aux.
  destruct (shr_fexp B32.prec B32.emax mx ex lx) as [mrs' e'].
  destruct (shr_fexp B32.prec B32.emax
              (round_nearest_even (shr_m mrs') (loc_of_shr_record mrs')) e' loc_Exact)
    as [mrs'' e''].
  destruct (shr_m mrs'') as [|p|p]; try reflexivity.
  destruct (e'' <=? B32.emax - B32.prec); reflexivity.
Qed.

Lemma SFabs_binary_normalize_opp (n e : Z) :
  SFabs (binary_normalize B32.prec B32.emax (- n) e false) =
  SFabs (binary_normalize B32.prec B32.emax n e false).
Proof.
  destruct n as [|p|p]; cbn [Z.opp binary_normalize]; try reflexivity;
    unfold binary_round;
    destruct (shl_align p e _) as [mz ez]; apply SFabs_binary_round_aux.
Qed.

(** [|x - y|] and [|y - x|] are the same float. *)
Lemma B32_abs_sub_sym (x y : B32.float) :
  B32.abs (B32.sub x y) = B32.abs (B32.sub y x).
Proof.
  unfold B32.abs, B32.sub.
  destruct x as [sx|sx| |sx mx ex], y as [sy|sy| |sy my ey];
    try reflexivity;
    try (destruct sx, sy; reflexivity).
  cbn [SFsub]. cbv zeta.
  rewrite (Z.min_comm ey ex).
  rewrite <- SFabs_binary_normalize_opp. f_equal. f_equal. lia.
Qed.

Lemma exceeds_sym (x y : B32.float) : exceeds x y = exceeds y x.
Proof.
  unfold exceeds. cbn [fgt fabs fsub binary32].
  rewrite (B32_abs_sub_sym x y). reflexivity.
Qed.

(** A difference with a NaN is a NaN, and no comparison with a NaN holds. *)
Lemma exceeds_nan (x : B32.float) :
  exceeds S754_nan x = false /\ exceeds x S754_nan = false.
Proof. split; destruct x as [s|s| |s p e]; reflexivity. Qed.

Lemma elem_same_width (a b : Matrix) (i j : Z) :
  w a = w b -> elem b i j = data b + (i * w a + j).
Proof. intros ->. reflexivity. Qed.

(** X10. CheckResult does not depend on the order of its two arguments:
    the shape and null tests are symmetric, and [|x - y|] and [|y - x|] are
    the same binary32 value. *)
Theorem CheckResult_symmetric (a b : Matrix) (m : mem B32.float) :
  CheckResult a b m = CheckResult b a m.
Proof.
  assert (Hhalf : forall x y : Matrix,
            CheckResult x y m = true -> CheckResult y x m = true).
  { intros x y Hxy. apply CheckResult_true_iff in Hxy.
    destruct Hxy as (Hw & Hh & Hx & Hy & Hall).
    apply CheckResult_true_iff. repeat split; try congruence.
    intros i j Hi Hj. rewrite exceeds_sym. apply Hall; lia. }
  destruct (CheckResult a b m) eqn:Eab, (CheckResult b a m) eqn:Eba;
    try reflexivity.
  - rewrite (Hhalf a b Eab) in Eba. discriminate.
  - rewrite (Hhalf b a Eba) in Eab. discriminate.
Qed.

(** X11. Two views of the same shape with buffers, one of which has no row
    or no column, compare equal whatever the memory holds: no element is
    read. *)
Theorem CheckResult_empty (a b : Matrix) (m : mem B32.float) :
  w a = w b -> h a = h b -> data a <> null -> data b <> null ->
  h a <= 0 \/ w a <= 0 ->
  CheckResult a b m = true.
Proof.
  intros Hw Hh Ha Hb Hempty. apply CheckResult_true_iff.
  repeat split; try assumption. intros i j Hi Hj. lia.
Qed.

Lemma CheckResult_empty_witness :
  CheckResult A30 {| data := 500; h := 3; w := 0 |} mem23 = true.
Proof.
  apply CheckResult_empty; try reflexivity; try (unfold null; simpl; lia).
Defined.

(** X12. A position at which either element is a NaN never makes
    CheckResult fail: with matching shapes and buffers present, the result
    is true as soon as every pair of elements has a NaN or differs by at
    most the tolerance.  A result full of NaN passes the check. *)
Theorem CheckResult_accepts_nan (a b : Matrix) (m : mem B32.float) :
  w a = w b -> h a = h b -> data a <> null -> data b <> null ->
  (forall i j, 0 <= i < h a -> 0 <= j < w a ->
     m (elem a i j) = S754_nan \/ m (elem b i j) = S754_nan \/
     B32.le (B32.abs (B32.sub (m (elem a i j)) (m (elem b i j)))) B32.eps = true) ->
  CheckResult a b m = true.
Proof.
  intros Hw Hh Ha Hb Hall. apply CheckResult_true_iff.
  repeat split; try assumption. intros i j Hi Hj.
  destruct (Hall i j Hi Hj) as [E|[E|E]].
  - rewrite E. apply exceeds_nan.
  - rewrite E. apply exceeds_nan.
  - apply B32_le_not_gt. exact E.
Qed.

(** The 2x2 result of the scenario against a 2x2 view full of NaN. *)
Definition N22 : Matrix := {| data := 500; h := 2; w := 2 |}.
Definition mem23n : mem B32.float :=
  poke (Origin A23 B32m C22 mem23) (data N22) (repeat S754_nan 4).

Lemma CheckResult_accepts_nan_witness : CheckResult C22 N22 mem23n = true.
Proof.
  apply CheckResult_accepts_nan; try reflexivity; try (unfold null; simpl; lia).
  intros i j Hi Hj. right. left.
  assert (Hc : (i = 0 \/ i = 1) /\ (j = 0 \/ j = 1)) by (simpl in Hi, Hj; lia).
  destruct Hc as [[-> | ->] [-> | ->]]; reflexivity.
Defined.

(** X13. CheckResult reads the elements of its two views and nothing else:
    two memories that agree on them give the same answer. *)
Theorem CheckResult_reads_views {F : Type} {FO : FloatOps F}
  (a b : Matrix) (m m' : mem F) :
  (forall i j, 0 <= i < h a -> 0 <= j < w a ->
     m (elem a i j) = m' (elem a i j) /\
     m (data b + (i * w a + j)) = m' (data b + (i * w a + j))) ->
  CheckResult a b m = CheckResult a b m'.
Proof.
  intros Hsame.
  assert (Hhalf : forall m1 m2 : mem F,
            (forall i j, 0 <= i < h a -> 0 <= j < w a ->
               m1 (elem a i j) = m2 (elem a i j) /\
               m1 (data b + (i * w a + j)) = m2 (data b + (i * w a + j))) ->
            CheckResult a b m1 = true -> CheckResult a b m2 = true).
  { intros m1 m2 H12 H1. apply CheckResult_true_iff in H1.
    destruct H1 as (Hw & Hh & Ha & Hb & Hall).
    apply CheckResult_true_iff. repeat split; try assumption.
    intros i j Hi Hj. specialize (Hall i j Hi Hj).
    destruct (H12 i j Hi Hj) as [Ea Eb].
    rewrite (elem_same_width a b i j Hw) in *.
    rewrite <- Ea, <- Eb. exact Hall. }
  destruct (CheckResult a b m) eqn:E1, (CheckResult a b m') eqn:E2;
    try reflexivity.
  - rewrite (Hhalf m m' Hsame E1) in E2. discriminate.
  - assert (Hsame' : forall i j, 0 <= i < h a -> 0 <= j < w a ->
               m' (elem a i j) = m (elem a i j) /\
               m' (data b + (i * w a + j)) = m (data b + (i * w a + j)))
      by (intros i j Hi Hj; destruct (Hsame i j Hi Hj); split; congruence).
    rewrite (Hhalf m' m Hsame' E2) in E1. discriminate.
Qed.

Lemma CheckResult_reads_views_witness :
  CheckResult C22 D22 mem23 = CheckResult C22 D22 (store mem23 (data A23) (B32.of_Z 9)).
Proof.
  apply CheckResult_reads_views. intros i j Hi Hj.
  assert (Hc : (i = 0 \/ i = 1) /\ (j = 0 \/ j = 1)) by (simpl in Hi, Hj; lia).
  destruct Hc as [[-> | ->] [-> | ->]]; split; reflexivity.
Defined.

(** ** The driver (src/src/main.cpp): command-line options

    [argv] is the list [argv[1]], [argv[2]], ..; the loop
    [for (int i = 1; i < argc; i++)], whose body skips the value of an
    option with [i++], is a recursion on the arguments that remain.  The
    table [tests] of the driver pairs each kernel with a flag; the kernels
    are [GeMM.tests] above and the flags are the field [second] below.
    [exit] ends the run with its code; of the log output only the kind of
    the message before an [exit] is kept. *)

From Stdlib Require Import String.

Inductive message : Type :=
| Help                          (* LOGI("%s", helpStr) *)
| Version                       (* LOGI(PROJECT_NAME " version: ...") *)
| InvalidTestIndex (idx : Z)    (* LOGE("Invalid test index: %d", idx) *)
| InvalidOption (arg : string). (* LOGE("Invalid option: %s", argv[i]) *)

Record options : Type := {
  allTests : bool;
  second : list bool;   (* tests[i].second *)
  size : Z;
  check : bool
}.

Inductive outcome : Type :=
| Exit (code : Z) (msg : message)
| Parsed (o : options).

(** The values before the loop over the arguments. *)
Definition defaults : options :=
  {| allTests := true; second := repeat false 16; size := 1024; check := false |}.

(** [tests[n].second = true] *)
Fixpoint set_second (n : nat) (l : list bool) : list bool :=
  match l, n with
  | [], _ => []
  | _ :: l', O => true :: l'
  | x :: l', S n' => x :: set_second n' l'
  end.

(** [for (auto &test : tests) test.second = true] *)
Definition set_all (l : list bool) : list bool := map (fun _ => true) l.

Section Options.
(** [std::atoi] of <cstdlib>. *)
Variable atoi : string -> Z.

Fixpoint parse (argv : list string) (o : options) : outcome :=
  match argv with
  | [] => Parsed o
  | arg :: rest =>
      if (arg =? "-h")%string || (arg =? "--help")%string then Exit 0 Help
      else if (arg =? "-v")%string || (arg =? "--version")%string then Exit 0 Version
      else if (arg =? "--test")%string then
        let o := {| allTests := false; second := second o;
                    size := size o; check := check o |} in
        match rest with
        | next :: rest' =>
            let idx := atoi next in
            if (0 <? idx) && (idx <=? Z.of_nat (List.length (second o)))
            then parse rest'
                   {| allTests := allTests o;
                      second := set_second (Z.to_nat (idx - 1)) (second o);
                      size := size o; check := check o |}
            else Exit (-1) (InvalidTestIndex idx)
        | [] => parse rest o
        end
      else if (arg =? "--all-tests")%string then
        parse rest {| allTests := false; second := set_all (second o);
                      size := size o; check := check o |}
      else if (arg =? "--size")%string then
        match rest with
        | next :: rest' =>
            parse rest' {| allTests := allTests o; second := second o;
                           size := atoi next; check := check o |}
        | [] => parse rest o
        end
      else if (arg =? "--check")%string then
        parse rest {| allTests := allTests o; second := second o;
                      size := size o; check := true |}
      else Exit (-1) (InvalidOption arg)
  end.

(** The options with which the driver goes on to run the kernels. *)
Definition main_options (argv : list string) : outcome :=
  match parse argv defaults with
  | Exit code msg => Exit code msg
  | Parsed o =>
      Parsed (if allTests o
              then {| allTests := allTests o; second := set_all (second o);
                      size := size o; check := check o |}
              else o)
  end.
End Options.

Lemma set_second_length (n : nat) (l : list bool) :
  List.length (set_second n l) = List.length l.
Proof.
  revert n. induction l as [|x l IH]; intros [|n]; cbn; try reflexivity.
  rewrite IH. reflexivity.
Qed.

Lemma set_all_length (l : list bool) : List.length (set_all l) = List.length l.
Proof. apply length_map. Qed.

Lemma set_second_nth (n i : nat) (l : list bool) :
  nth i (set_second n l) false = true -> i = n \/ nth i l false = true.
Proof.
  revert n i. induction l as [|x l IH]; intros [|n] [|i]; cbn; auto.
  intros H. destruct (IH n i H) as [->|H']; auto.
Qed.

Lemma set_second_keeps (n i : nat) (l : list bool) :
  nth i l false = true -> nth i (set_second n l) false = true.
Proof.
  revert n i. induction l as [|x l IH]; intros [|n] [|i]; cbn; auto.
Qed.

Lemma set_all_repeat (l : list bool) : set_all l = repeat true (List.length l).
Proof. induction l as [|x l IH]; cbn; [reflexivity|]. rewrite <- IH. reflexivity. Qed.

(** An option may take the word after it: induction two words at a time. *)
Lemma args_ind (P : list string -> Prop) :
  P [] -> (forall x, P [x]) ->
  (forall x y l, P l -> P (y :: l) -> P (x :: y :: l)) ->
  forall l, P l.
Proof.
  intros H0 H1 H2 l.
  assert (Hboth : P l /\ forall x, P (x :: l)).
  { induction l as [|y l [IHl IHx]]; [split; auto|].
    split; [apply IHx|]. intros x. apply H2; [exact IHl|apply IHx]. }
  apply Hboth.
Qed.

(** The words the driver knows. *)
Definition known (arg : string) : Prop :=
  (arg = "-h" \/ arg = "--help" \/ arg = "-v" \/ arg = "--version" \/
   arg = "--test" \/ arg = "--all-tests" \/ arg = "--size" \/ arg = "--check")%string.

Section OptionsFacts.
Variable atoi : string -> Z.

(** One pass of the loop body: which branch the word [arg] takes. *)
Ltac branch arg :=
  cbn [parse];
  destruct (String.eqb_spec arg "-h"); [subst arg; cbn [orb]|];
  [|destruct (String.eqb_spec arg "--help"); [subst arg; cbn [orb]|];
    [|cbn [orb];
      destruct (String.eqb_spec arg "-v"); [subst arg; cbn [orb]|];
      [|destruct (String.eqb_spec arg "--version"); [subst arg; cbn [orb]|];
        [|cbn [orb];
          destruct (String.eqb_spec arg "--test"); [subst arg|];
          [|destruct (String.eqb_spec arg "--all-tests"); [subst arg|];
            [|destruct (String.eqb_spec arg "--size"); [subst arg|];
              [|destruct (String.eqb_spec arg "--check"); [subst arg|]]]]]]]].

Lemma parse_length (argv : list string) : forall o o',
  parse atoi argv o = Parsed o' ->
  List.length (second o') = List.length (second o).
Proof.
  induction argv as [|arg|arg next rest IH IH1] using args_ind; intros o o'.
  - cbn. intros [= <-]. reflexivity.
  - branch arg; try discriminate; cbn; intros [= <-]; cbn;
      rewrite ?set_all_length; reflexivity.
  - branch arg; try discriminate.
    + destruct ((0 <? atoi next) && _); [|discriminate].
      intros H. apply IH in H. cbn in H.
      rewrite set_second_length in H. exact H.
    + intros H. apply IH1 in H. cbn in H.
      rewrite set_all_length in H. exact H.
    + intros H. apply IH in H. exact H.
    + intros H. apply IH1 in H. exact H.
Qed.

(** Without a selecting option the flags stay as they are. *)
Lemma parse_unselective (argv : list string) : forall o o',
  ~ In "--test"%string argv -> ~ In "--all-tests"%string argv ->
  parse atoi argv o = Parsed o' ->
  allTests o' = allTests o /\ second o' = second o.
Proof.
  induction argv as [|arg|arg next rest IH IH1] using args_ind;
    intros o o' Ht Ha.
  - cbn. intros [= <-]. split; reflexivity.
  - branch arg; try discriminate; try (exfalso; cbn in Ht, Ha; tauto);
      cbn; intros [= <-]; split; reflexivity.
  - assert (Ht0 : ~ In "--test"%string rest) by (cbn in Ht |- *; tauto).
    assert (Ha0 : ~ In "--all-tests"%string rest) by (cbn in Ha |- *; tauto).
    assert (Ht1 : ~ In "--test"%string (next :: rest)) by (cbn in Ht |- *; tauto).
    assert (Ha1 : ~ In "--all-tests"%string (next :: rest)) by (cbn in Ha |- *; tauto).
    branch arg; try discriminate; try (exfalso; cbn in Ht, Ha; tauto).
    + intros H. apply IH in H; assumption.
    + intros H. apply IH1 in H; assumption.
Qed.

Lemma parse_exit (argv : list string) : forall o code msg,
  parse atoi argv o = Exit code msg ->
  match msg with
  | Help | Version => code = 0
  | InvalidTestIndex idx =>
      code = -1 /\ ~ (0 < idx <= Z.of_nat (List.length (second o))) /\
      exists next, In next argv /\ idx = atoi next
  | InvalidOption arg => code = -1 /\ In arg argv /\ ~ known arg
  end.
Proof.
  assert (Hweak : forall (l : list string) x msg code n,
            match msg with
            | Help | Version => code = 0
            | InvalidTestIndex idx =>
                code = -1 /\ ~ (0 < idx <= n) /\
                exists next, In next l /\ idx = atoi next
            | InvalidOption arg => code = -1 /\ In arg l /\ ~ known arg
            end ->
            match msg with
            | Help | Version => code = 0
            | InvalidTestIndex idx =>
                code = -1 /\ ~ (0 < idx <= n) /\
                exists next, In next (x :: l) /\ idx = atoi next
            | InvalidOption arg => code = -1 /\ In arg (x :: l) /\ ~ known arg
            end).
  { intros l x [| |idx|arg] code n; try tauto.
    - intros (Hc & Hi & next & Hin & E). repeat split; try assumption.
      exists next. split; [right; assumption|assumption].
    - intros (Hc & Hin & Hk). repeat split; try assumption. right. assumption. }
  assert (Hunknown : forall arg : string,
            arg <> "-h"%string -> arg <> "--help"%string ->
            arg <> "-v"%string -> arg <> "--version"%string ->
            arg <> "--test"%string -> arg <> "--all-tests"%string ->
            arg <> "--size"%string -> arg <> "--check"%string -> ~ known arg).
  { unfold known. tauto. }
  induction argv as [|arg|arg next rest IH IH1] using args_ind;
    intros o code msg.
  - cbn. discriminate.
  - branch arg; cbn; try discriminate; intros [= <- <-]; try reflexivity.
    repeat split; [left; reflexivity|apply Hunknown; assumption].
  - branch arg; try (intros [= <- <-]; reflexivity).
    + destruct ((0 <? atoi next) && _) eqn:Eidx.
      * intros H. apply IH in H. cbn [second] in H.
        rewrite set_second_length in H.
        apply Hweak, Hweak. exact H.
      * intros [= <- <-]. repeat split.
        -- cbn [second] in Eidx. lia.
        -- exists next. split; [right; left; reflexivity|reflexivity].
    + intros H. apply IH1 in H. cbn [second] in H.
      rewrite set_all_length in H. apply Hweak. exact H.
    + intros H. apply IH in H. apply Hweak, Hweak. exact H.
    + intros H. apply IH1 in H. apply Hweak. exact H.
    + intros [= <- <-].
      repeat split; [left; reflexivity|apply Hunknown; assumption].
Qed.

(** A flag that is set was set before, or comes from [--all-tests], or
    from an index given as a value. *)
Lemma parse_selected (i : nat) (argv : list string) : forall o o',
  parse atoi argv o = Parsed o' ->
  nth i (second o') false = true ->
  nth i (second o) false = true \/ In "--all-tests"%string argv \/
  exists next, In next argv /\ atoi next = Z.of_nat i + 1.
Proof.
  assert (Hweak : forall (l : list string) (x : string) (P : Prop),
            P \/ In "--all-tests"%string l \/
            (exists next, In next l /\ atoi next = Z.of_nat i + 1) ->
            P \/ In "--all-tests"%string (x :: l) \/
            (exists next, In next (x :: l) /\ atoi next = Z.of_nat i + 1)).
  { intros l x P [H|[H|(next & Hin & E)]]; [tauto|right; left; right; exact H|].
    right. right. exists next. split; [right; exact Hin|exact E]. }
  induction argv as [|arg|arg next rest IH IH1] using args_ind;
    intros o o'.
  - cbn. intros [= <-]. tauto.
  - branch arg; cbn; try discriminate; intros [= <-]; cbn; try tauto.
  - branch arg; try discriminate.
    + destruct ((0 <? atoi next) && _) eqn:Eidx; [|discriminate].
      intros H Hn. destruct (IH _ _ H Hn) as [Hs|Hrest].
      * cbn [second] in Hs. apply set_second_nth in Hs.
        destruct Hs as [->|Hs]; [|left; exact Hs].
        right. right. exists next. split; [right; left; reflexivity|lia].
      * apply Hweak, Hweak. right. exact Hrest.
    + intros H Hn. destruct (IH1 _ _ H Hn) as [Hs|Hrest].
      * right. left. left. reflexivity.
      * apply Hweak. right. exact Hrest.
    + intros H Hn. apply Hweak, Hweak. exact (IH _ _ H Hn).
    + intros H Hn. apply Hweak. exact (IH1 _ _ H Hn).
Qed.
End OptionsFacts.

(** X14. If neither [--test] nor [--all-tests] is among the arguments and
    the driver gets past its options, all sixteen tests are selected. *)
Theorem default_selects_all (atoi : string -> Z) (argv : list string) (o : options) :
  ~ In "--test"%string argv -> ~ In "--all-tests"%string argv ->
  main_options atoi argv = Parsed o ->
  second o = repeat true 16.
Proof.
  intros Ht Ha. unfold main_options.
  destruct (parse atoi argv defaults) as [code msg|o1] eqn:E; [discriminate|].
  destruct (parse_unselective atoi argv defaults o1 Ht Ha E) as [Eall Esec].
  rewrite Eall. cbn. intros [= <-]. cbn. rewrite Esec. reflexivity.
Qed.

(** X15. The driver stops before running anything only in these cases:
    with code 0 after the help or the version message; with code -1 on the
    value of a [--test] whose [atoi] is not in 1 .. 16; with code -1 on a word
    that is none of its eight options. *)
Theorem exit_reasons (atoi : string -> Z) (argv : list string) (code : Z)
  (msg : message) :
  main_options atoi argv = Exit code msg ->
  match msg with
  | Help | Version => code = 0
  | InvalidTestIndex idx =>
      code = -1 /\ ~ (0 < idx <= 16) /\ exists next, In next argv /\ idx = atoi next
  | InvalidOption arg => code = -1 /\ In arg argv /\ ~ known arg
  end.
Proof.
  unfold main_options.
  destruct (parse atoi argv defaults) as [code' msg'|o1] eqn:E; [|discriminate].
  intros [= <- <-]. exact (parse_exit atoi argv defaults code' msg' E).
Qed.

(** X16. When the driver gets past its options the table still has sixteen
    flags, and a test is selected only if no selecting option was given
    ([allTests] is still set), or [--all-tests] is among the arguments, or
    some argument has the number of the test as its [atoi]. *)
Theorem selected_only_if_named (atoi : string -> Z) (argv : list string)
  (o : options) (i : nat) :
  main_options atoi argv = Parsed o ->
  List.length (second o) = 16%nat /\
  (nth i (second o) false = true ->
   allTests o = true \/ In "--all-tests"%string argv \/
   exists next, In next argv /\ atoi next = Z.of_nat i + 1).
Proof.
  unfold main_options.
  destruct (parse atoi argv defaults) as [code msg|o1] eqn:E; [discriminate|].
  pose proof (parse_length atoi argv defaults o1 E) as Hlen.
  destruct (allTests o1) eqn:Eall; intros [= <-]; cbn [second allTests].
  - split; [rewrite set_all_length; exact Hlen|]. intros _. left. reflexivity.
  - split; [exact Hlen|]. intros Hn.
    destruct (parse_selected atoi i argv defaults o1 E Hn) as [Hd|Hrest];
      [|right; exact Hrest].
    exfalso. cbn [second defaults] in Hd.
    destruct (nth_in_or_default i (repeat false 16) false) as [Hin|Hdef];
      [|congruence].
    apply repeat_spec in Hin. congruence.
Qed.

(** The decimal digits at the head of a word, as [atoi] reads an unsigned
    number. *)
Fixpoint decimal (s : string) (acc : Z) : Z :=
  match s with
  | EmptyString => acc
  | String ch s' =>
      let d := Z.of_N (Ascii.N_of_ascii ch) - 48 in
      if (0 <=? d) && (d <=? 9) then decimal s' (10 * acc + d) else acc
  end.

Lemma default_selects_all_witness :
  second {| allTests := true; second := repeat true 16; size := 64; check := true |}
  = repeat true 16.
Proof.
  apply (default_selects_all (fun s => decimal s 0) ["--check"; "--size"; "64"]%string).
  - cbn. intros [H|[H|[H|[]]]]; discriminate.
  - cbn. intros [H|[H|[H|[]]]]; discriminate.
  - reflexivity.
Defined.

Lemma exit_reasons_witness :
  -1 = -1 /\ ~ (0 < 17 <= 16) /\
  exists next, In next ["--check"; "--test"; "17"]%string /\ 17 = decimal next 0.
Proof.
  apply (exit_reasons (fun s => decimal s 0) ["--check"; "--test"; "17"]%string
           (-1) (InvalidTestIndex 17)).
  reflexivity.
Defined.

Lemma selected_only_if_named_witness :
  List.length (second {| allTests := false; second := set_second 2 (repeat false 16);
                         size := 1024; check := false |}) = 16%nat /\
  (nth 2 (second {| allTests := false; second := set_second 2 (repeat false 16);
                    size := 1024; check := false |}) false = true ->
   false = true \/ In "--all-tests"%string ["--test"; "3"]%string \/
   exists next, In next ["--test"; "3"]%string /\ decimal next 0 = Z.of_nat 2 + 1).
Proof.
  apply (selected_only_if_named (fun s => decimal s 0) ["--test"; "3"]%string).
  reflexivity.
Defined.

(** ** The driver: check mode

    The four vectors of the driver are where the allocator puts them: the
    addresses [input1Data], [input2Data], [output1Data] and [output2Data]
    are parameters, and the contents of the two inputs (filled from
    [rand]) are whatever the memory holds there. *)

Section CheckLoop.
Variable neon : bool.
Variables input1Data input2Data output1Data output2Data : Z.

(** [Matrix x{xData, size, size}] *)
Definition square (xData size : Z) : Matrix :=
  {| data := xData; h := size; w := size |}.

(** [std::vector<float> v(n)]: [n] floats, each [0.0f]. *)
Definition vector (m : mem B32.float) (p n : Z) : mem B32.float :=
  fun q => if (p <=? q) && (q <? p + n) then B32.zero else m q.

(** One pass of the loop for a selected test: the verdict of CheckResult
    and the memory left. *)
Definition check_one (size : Z) (test : kernel) (m : mem B32.float)
  : bool * mem B32.float :=
  let input1 := square input1Data size in
  let input2 := square input2Data size in
  let m := vector m output1Data (size * size) in
  let output1 := square output1Data size in
  let m := vector m output2Data (size * size) in
  let output2 := square output2Data size in
  let m := Origin input1 input2 output1 m in
  let m := test input1 input2 output2 m in
  (CheckResult output1 output2 m, m).

(** [for (int i = 0; i < tests.size(); i++)] from index [i] on; a report
    [(k, true)] is "Optimize<k> passed!", [(k, false)] is
    "Optimize<k> failed!". *)
Fixpoint check_loop (size : Z) (i : nat) (tests : list (kernel * bool))
  (m : mem B32.float) : list (nat * bool) :=
  match tests with
  | [] => []
  | (test, selected) :: rest =>
      if negb selected then check_loop size (S i) rest m
      else
        let '(ok, m') := check_one size test m in
        (S i, ok) :: check_loop size (S i) rest m'
  end.

Lemma vector_zeroed (m : mem B32.float) (p q size : Z) :
  zeroed (square p size) (vector (vector m p (size * size)) q (size * size)) = true.
Proof.
  unfold zeroed. apply forallb_forall. intros i Hi.
  apply forallb_forall. intros j Hj.
  unfold range in Hi, Hj. apply in_map_iff in Hi, Hj.
  destruct Hi as (i' & <- & Hi). destruct Hj as (j' & <- & Hj).
  apply in_seq in Hi, Hj. cbn [h w square] in Hi, Hj.
  unfold vector, elem. cbn [data w square].
  destruct ((q <=? _) && _); [reflexivity|].
  pose proof (index_bounds (Z.of_nat i') (Z.of_nat j') size size).
  destruct (Z.leb_spec p (p + (Z.of_nat i' * size + Z.of_nat j'))); [|lia].
  destruct (Z.ltb_spec (p + (Z.of_nat i' * size + Z.of_nat j')) (p + size * size));
    [reflexivity|lia].
Qed.

Hypothesis Hin1 : input1Data <> null.
Hypothesis Hin2 : input2Data <> null.
Hypothesis Hout1 : output1Data <> null.
Hypothesis Hout2 : output2Data <> null.

Lemma check_one_scalar (size : Z) (test : kernel) (m : mem B32.float) :
  separate (square output1Data size) (square input1Data size) ->
  separate (square output1Data size) (square input2Data size) ->
  separate (square output2Data size) (square input1Data size) ->
  separate (square output2Data size) (square input2Data size) ->
  separate (square output1Data size) (square output2Data size) ->
  implements test (fun _ _ => scalar_step) full ->
  fst (check_one size test m) = true.
Proof.
  intros H11 H12 H21 H22 Hoo Himpl. unfold check_one. cbv zeta. cbn [fst].
  assert (Hck : forall p, p <> null ->
            CheckParam (square input1Data size) (square input2Data size)
              (square p size) = true).
  { intros p Hp. apply CheckParam_true. cbn [data h w square]. tauto. }
  apply (passes_check test _ _ _ _ _ _ _ Himpl).
  - split; [apply Hck; assumption|split; assumption].
  - split; [apply Hck; assumption|split; assumption].
  - assumption.
  - intros i j. apply full_le.
  - intros i j Hi Hj. rewrite full_in_range by assumption.
    rewrite !zeroed_elem.
    + unfold dot. f_equal. lia.
    + rewrite <- (vector_zeroed m output1Data output2Data size).
      reflexivity.
    + exact Hi.
    + exact Hj.
    + unfold zeroed. apply forallb_forall. intros i' Hi'.
      apply forallb_forall. intros j' Hj'.
      unfold range in Hi', Hj'. apply in_map_iff in Hi', Hj'.
      destruct Hi' as (i0 & <- & Hi'). destruct Hj' as (j0 & <- & Hj').
      apply in_seq in Hi', Hj'. cbn [h w square] in Hi', Hj'.
      unfold vector at 1. unfold elem. cbn [data w square].
      pose proof (index_bounds (Z.of_nat i0) (Z.of_nat j0) size size).
      destruct (Z.leb_spec output2Data
                  (output2Data + (Z.of_nat i0 * size + Z.of_nat j0))); [|lia].
      destruct (Z.ltb_spec (output2Data + (Z.of_nat i0 * size + Z.of_nat j0))
                  (output2Data + size * size)); [reflexivity|lia].
    + exact Hi.
    + exact Hj.
Qed.

Lemma check_loop_reports (size : Z) (tests : list (kernel * bool)) :
  forall (i0 : nat) (m : mem B32.float) (k : nat) (ok : bool),
    In (k, ok) (check_loop size i0 tests m) ->
    (i0 < k)%nat /\
    exists test m', nth_error tests (k - 1 - i0) = Some (test, true) /\
                    ok = fst (check_one size test m').
Proof.
  induction tests as [|[test selected] rest IH]; intros i0 m k ok Hin.
  - destruct Hin.
  - cbn [check_loop] in Hin. destruct selected; cbn [negb] in Hin.
    + destruct (check_one size test m) as [ok1 m1] eqn:E1.
      destruct Hin as [[= <- <-]|Hin].
      * split; [lia|]. exists test, m.
        replace (S i0 - 1 - i0)%nat with 0%nat by lia.
        rewrite E1. split; reflexivity.
      * destruct (IH _ _ _ _ Hin) as (Hlt & test' & m' & Hnth & Hok).
        split; [lia|]. exists test', m'. split; [|exact Hok].
        replace (k - 1 - i0)%nat with (S (k - 1 - S i0)) by lia. exact Hnth.
    + destruct (IH _ _ _ _ Hin) as (Hlt & test' & m' & Hnth & Hok).
      split; [lia|]. exists test', m'. split; [|exact Hok].
      replace (k - 1 - i0)%nat with (S (k - 1 - S i0)) by lia. exact Hnth.
Qed.
End CheckLoop.

Lemma nth_error_combine_fst {A B : Type} (l : list A) (l' : list B) :
  forall (n : nat) (x : A) (y : B),
    nth_error (combine l l') n = Some (x, y) -> nth_error l n = Some x.
Proof.
  revert l'. induction l as [|a l IH]; intros [|b l'] [|n] x y; cbn;
    try discriminate.
  - intros [= <- <-]. reflexivity.
  - apply IH.
Qed.

(** X17. In check mode, with the four buffers present and the two output
    buffers overlapping neither each other nor an input, whatever the size,
    the selection, the contents of the inputs and the memory left by the
    passes before: every report about test 1, 2, 3, 4, 7 or 8 is "passed",
    and so is, on a build without [__ARM_NEON], every report about test 5,
    6 or 9. *)
Theorem check_mode_verdicts (neon : bool)
  (input1Data input2Data output1Data output2Data size : Z)
  (selection : list bool) (m : mem B32.float) (k : nat) (ok : bool) :
  input1Data <> null -> input2Data <> null ->
  output1Data <> null -> output2Data <> null ->
  separate (square output1Data size) (square input1Data size) ->
  separate (square output1Data size) (square input2Data size) ->
  separate (square output2Data size) (square input1Data size) ->
  separate (square output2Data size) (square input2Data size) ->
  separate (square output1Data size) (square output2Data size) ->
  In (k, ok) (check_loop input1Data input2Data output1Data output2Data size 0
                (combine (tests neon) selection) m) ->
  In k [1; 2; 3; 4; 7; 8]%nat \/ (neon = false /\ In k [5; 6; 9]%nat) ->
  ok = true.
Proof.
  intros Hin1 Hin2 Hout1 Hout2 H11 H12 H21 H22 Hoo Hrep Hk.
  destruct (check_loop_reports _ _ _ _ _ _ _ _ _ _ Hrep)
    as (_ & test & m' & Hnth & ->).
  apply nth_error_combine_fst in Hnth. unfold tests in Hnth.
  apply check_one_scalar; try assumption.
  destruct Hk as [Hk|[-> Hk]].
  - repeat (destruct Hk as [<-|Hk]); try contradiction;
      cbn [nth_error Nat.sub] in Hnth; injection Hnth as <-.
    + apply Optimize1_implements.
    + apply Optimize2_implements.
    + apply Optimize3_implements.
    + apply Optimize4_implements.
    + apply Optimize7_implements.
    + apply Optimize8_implements.
  - repeat (destruct Hk as [<-|Hk]); try contradiction;
      cbn [nth_error Nat.sub] in Hnth; injection Hnth as <-.
    + exact (Optimize5_implements false).
    + exact (Optimize6_implements false).
    + exact (Optimize9_implements false).
Qed.

Lemma check_mode_verdicts_witness :
  fst (check_one 100 200 300 400 2 Optimize3 mem23) = true.
Proof.
  apply (check_mode_verdicts true 100 200 300 400 2 [false; false; true] mem23 3).
  - unfold null. lia.
  - unfold null. lia.
  - unfold null. lia.
  - unfold null. lia.
  - unfold separate. simpl. lia.
  - unfold separate. simpl. lia.
  - unfold separate. simpl. lia.
  - unfold separate. simpl. lia.
  - unfold separate. simpl. lia.
  - unfold tests. cbn [combine check_loop negb].
    destruct (check_one 100 200 300 400 2 Optimize3 mem23) as [ok m'].
    left. reflexivity.
  - left. do 2 right. left. reflexivity.
Defined.

(** ** What an element depends on, and calls on disjoint outputs *)

Section Composition.
Context {F : Type} {FO : FloatOps F}.

(** A cell is an element of the view, or no progress function changes it. *)
Lemma elem_or_outside (c : Matrix) (p : Z) :
  (exists i j, 0 <= i < h c /\ 0 <= j < w c /\ p = elem c i j) \/
  (forall (a b : Matrix) (m0 : mem F) op N, cell a b c m0 op N p = m0 p).
Proof.
  destruct ((0 <? w c) && (0 <=? (p - data c) / w c) &&
            ((p - data c) / w c <? h c)) eqn:Eb.
  - left. rewrite !andb_true_iff in Eb. destruct Eb as ((Eb1 & Eb2) & Eb3).
    apply Z.ltb_lt in Eb1, Eb3. apply Z.leb_le in Eb2.
    pose proof (Z.mod_pos_bound (p - data c) (w c) Eb1) as Hmod.
    pose proof (Z.div_mod (p - data c) (w c) ltac:(lia)) as Hdm.
    exists ((p - data c) / w c), ((p - data c) mod w c).
    unfold elem. repeat split; lia.
  - right. intros a b m0 op N. unfold cell. rewrite Eb. reflexivity.
Qed.

Lemma covering_elem (neon : bool) (K : kernel) op (a b c : Matrix) (m : mem F)
  (i j : Z) :
  In (K, op) (covering neon) -> valid a b c ->
  0 <= i < h c -> 0 <= j < w c ->
  K a b c m (elem c i j) = dot (op b j) m a b i j (w a) (m (elem c i j)).
Proof.
  intros HK Hv Hi Hj.
  pose proof Hv as (Hck & _).
  destruct (proj1 (CheckParam_true a b c) Hck) as (Hwa & Hha & Hwb & _).
  apply (accumulates_twice K op full a b c m i j); try assumption.
  - apply (covering_implements neon). assumption.
  - apply full_in_range; lia.
Qed.

(** X18. For valid parameters, what Origin or one of Optimize1 ..
    Optimize9 leaves in C[i,j] depends on row i of A, column j of B and
    the former C[i,j] only: two memories that agree there give the same
    element. *)
Theorem element_reads_row_and_column (neon : bool) (K : kernel)
  (op : Matrix -> Z -> step) (a b c : Matrix) (m m' : mem F) (i j : Z) :
  In (K, op) (covering neon) -> valid a b c ->
  0 <= i < h c -> 0 <= j < w c ->
  (forall k, 0 <= k < w a ->
     m (elem a i k) = m' (elem a i k) /\ m (elem b k j) = m' (elem b k j)) ->
  m (elem c i j) = m' (elem c i j) ->
  K a b c m (elem c i j) = K a b c m' (elem c i j).
Proof.
  intros HK Hv Hi Hj Hin Hc.
  rewrite !(covering_elem neon K op a b c _ i j HK Hv Hi Hj).
  rewrite Hc. apply dot_ext. intros k x Hk.
  destruct (Hin k Hk) as [-> ->]. reflexivity.
Qed.

Lemma covering_frame (neon : bool) (K : kernel) op (a b c : Matrix) (m : mem F)
  (p : Z) :
  In (K, op) (covering neon) -> valid a b c -> ~ inC c p -> K a b c m p = m p.
Proof.
  intros HK Hv Hp.
  apply (implements_frame K op full a b c m p); try assumption.
  apply (covering_implements neon). assumption.
Qed.

(** After a call on another output the element is what a call on the
    first memory gives. *)
Lemma covering_after (neon : bool) (K K' : kernel) op op' (a b c c' : Matrix)
  (m : mem F) (i j : Z) :
  In (K, op) (covering neon) -> In (K', op') (covering neon) ->
  valid a b c -> valid a b c' -> separate c c' ->
  0 <= i < h c -> 0 <= j < w c ->
  K a b c (K' a b c' m) (elem c i j) = K a b c m (elem c i j) /\
  K' a b c' (K a b c m) (elem c i j) = K a b c m (elem c i j).
Proof.
  intros HK HK' Hv Hv' Hsep Hi Hj.
  pose proof Hv as (Hck & _).
  destruct (proj1 (CheckParam_true a b c) Hck) as (Hwa & Hha & Hwb & _).
  assert (Hout : ~ inC c' (elem c i j))
    by (apply elem_not_inC; [apply separate_sym; assumption|lia|lia]).
  split.
  - rewrite !(covering_elem neon K op a b c _ i j HK Hv Hi Hj).
    rewrite (covering_frame neon K' op' a b c' m _ HK' Hv' Hout).
    apply (dot_after K' op' full); try assumption; try lia.
    apply (covering_implements neon). assumption.
  - apply (covering_frame neon K' op' a b c' _ _ HK' Hv' Hout).
Qed.

(** X19. Two calls of kernels among Origin, Optimize1 .. Optimize9 on the
    same valid inputs and on outputs that do not overlap can be made in
    either order: the memory left is the same, cell for cell. *)
Theorem disjoint_outputs_commute (neon : bool) (K1 K2 : kernel)
  (op1 op2 : Matrix -> Z -> step) (a b c1 c2 : Matrix) (m : mem F) (p : Z) :
  In (K1, op1) (covering neon) -> In (K2, op2) (covering neon) ->
  valid a b c1 -> valid a b c2 -> separate c1 c2 ->
  K2 a b c2 (K1 a b c1 m) p = K1 a b c1 (K2 a b c2 m) p.
Proof.
  intros H1 H2 Hv1 Hv2 Hsep.
  pose proof (covering_implements neon K1 op1 H1) as I1.
  pose proof (covering_implements neon K2 op2 H2) as I2.
  destruct (elem_or_outside c1 p) as [(i & j & Hi & Hj & ->)|Hout1].
  - destruct (covering_after neon K1 K2 op1 op2 a b c1 c2 m i j)
      as [E1 E2]; try assumption.
    rewrite E1, E2. reflexivity.
  - destruct (elem_or_outside c2 p) as [(i & j & Hi & Hj & ->)|Hout2].
    + destruct (covering_after neon K2 K1 op2 op1 a b c2 c1 m i j)
        as [E1 E2]; try assumption; [apply separate_sym; assumption|].
      rewrite E1, E2. reflexivity.
    + rewrite (I2 a b c2 _ Hv2 p), (I1 a b c1 _ Hv1 p).
      rewrite !Hout1, !Hout2.
      rewrite (I1 a b c1 _ Hv1 p), (I2 a b c2 _ Hv2 p).
      rewrite Hout1, Hout2. reflexivity.
Qed.
End Composition.

Lemma element_reads_row_and_column_witness :
  Optimize4 A23 B32m C22 mem23 (elem C22 0 1) =
    Optimize4 A23 B32m C22 (store mem23 (elem A23 1 0) (B32.of_Z 9)) (elem C22 0 1).
Proof.
  apply (element_reads_row_and_column true Optimize4 (fun _ _ => scalar_step)
           A23 B32m C22 mem23 (store mem23 (elem A23 1 0) (B32.of_Z 9)) 0 1).
  - unfold covering. do 4 right. left. reflexivity.
  - split; [reflexivity|split; unfold separate; simpl; lia].
  - simpl. lia.
  - simpl. lia.
  - intros k Hk.
    assert (Hc : k = 0 \/ k = 1 \/ k = 2) by (simpl in Hk; lia).
    destruct Hc as [-> | [-> | ->]]; split; reflexivity.
  - reflexivity.
Defined.

Lemma disjoint_outputs_commute_witness :
  Optimize7 A57 B73 D53 (Optimize2 A57 B73 C53 mem57) (elem D53 2 2) =
    Optimize2 A57 B73 C53 (Optimize7 A57 B73 D53 mem57) (elem D53 2 2).
Proof.
  apply (disjoint_outputs_commute true Optimize2 Optimize7
           (fun _ _ => scalar_step) (fun _ _ => scalar_step) A57 B73 C53 D53 mem57).
  - unfold covering. do 2 right. left. reflexivity.
  - unfold covering. do 7 right. left. reflexivity.
  - split; [reflexivity|split; unfold separate; simpl; lia].
  - split; [reflexivity|split; unfold separate; simpl; lia].
  - unfold separate. simpl. lia.
Defined.

(** ** Not-a-number operands *)

Definition absorbs_nan (op : B32.float -> B32.float -> B32.float -> B32.float) : Prop :=
  forall z x y, z = S754_nan \/ x = S754_nan \/ y = S754_nan -> op z x y = S754_nan.

Lemma B32_add_nan (x : B32.float) :
  B32.add S754_nan x = S754_nan /\ B32.add x S754_nan = S754_nan.
Proof. split; destruct x; reflexivity. Qed.

Lemma B32_mul_nan (x : B32.float) :
  B32.mul S754_nan x = S754_nan /\ B32.mul x S754_nan = S754_nan.
Proof. split; destruct x; reflexivity. Qed.

Lemma scalar_step_absorbs_nan : absorbs_nan scalar_step.
Proof.
  intros z x y [-> | [-> | ->]]; unfold scalar_step; cbn [fadd fmul binary32].
  - apply B32_add_nan.
  - rewrite (proj1 (B32_mul_nan y)). apply B32_add_nan.
  - rewrite (proj2 (B32_mul_nan x)). apply B32_add_nan.
Qed.

Lemma fmadd_absorbs_nan (z x y : B32.float) :
  z = S754_nan \/ x = S754_nan \/ y = S754_nan -> B32.fmadd z x y = S754_nan.
Proof.
  intros [-> | [-> | ->]].
  - destruct x as [sx|sx| |sx mx ex], y as [sy|sy| |sy my ey]; try reflexivity;
      cbn [B32.fmadd]; apply B32_add_nan.
  - cbn [B32.fmadd]. apply B32_add_nan.
  - destruct x as [sx|sx| |sx mx ex]; cbn [B32.fmadd];
      rewrite ?(proj2 (B32_mul_nan _)); apply B32_add_nan.
Qed.

Lemma fused_step_absorbs_nan : absorbs_nan fused_step.
Proof. intros z x y H. apply fmadd_absorbs_nan. exact H. Qed.

Lemma simd_step_absorbs_nan (neon : bool) (b : Matrix) (j : Z) :
  absorbs_nan (simd_step neon b j).
Proof.
  unfold simd_step. destruct (neon && _);
    [apply fused_step_absorbs_nan|apply scalar_step_absorbs_nan].
Qed.

Lemma accumulate_nan_stays op (A B : Z -> B32.float) (n : nat) :
  absorbs_nan op -> forall k0, accumulate op A B k0 n S754_nan = S754_nan.
Proof.
  intros Hop. induction n as [|n IH]; intros k0; cbn [accumulate]; [reflexivity|].
  rewrite (Hop S754_nan (A k0) (B k0)) by (left; reflexivity). apply IH.
Qed.

Lemma accumulate_nan_hit op (A B : Z -> B32.float) (n : nat) :
  absorbs_nan op ->
  forall k0 z k, k0 <= k < k0 + Z.of_nat n ->
    A k = S754_nan \/ B k = S754_nan ->
    accumulate op A B k0 n z = S754_nan.
Proof.
  intros Hop. induction n as [|n IH]; intros k0 z k Hk Hnan; [lia|].
  cbn [accumulate]. destruct (Z.eq_dec k k0) as [->|Hne].
  - rewrite (Hop z (A k0) (B k0)) by (right; exact Hnan).
    apply accumulate_nan_stays. exact Hop.
  - apply (IH (k0 + 1) _ k); [lia|exact Hnan].
Qed.

Lemma covering_absorbs_nan (neon : bool) (K : kernel) op (b : Matrix) (j : Z) :
  In (K, op) (covering neon) -> absorbs_nan (op b j).
Proof.
  intros HK. unfold covering in HK.
  repeat (destruct HK as [[= <- <-]|HK]); try contradiction;
    first [apply scalar_step_absorbs_nan | apply simd_step_absorbs_nan].
Qed.

(** X20. For valid parameters, under Origin and Optimize1 .. Optimize9, a
    NaN in A[i,k] makes every element of row i of C a NaN, a NaN in B[k,j]
    every element of column j, and a NaN already in C[i,j] stays. *)
Theorem nan_spreads (neon : bool) (K : kernel) (op : Matrix -> Z -> step)
  (a b c : Matrix) (m : mem B32.float) (i j : Z) :
  In (K, op) (covering neon) -> valid a b c ->
  0 <= i < h c -> 0 <= j < w c ->
  m (elem c i j) = S754_nan \/
  (exists k, 0 <= k < w a /\
             (m (elem a i k) = S754_nan \/ m (elem b k j) = S754_nan)) ->
  K a b c m (elem c i j) = S754_nan.
Proof.
  intros HK Hv Hi Hj Hnan.
  rewrite (covering_elem neon K op a b c m i j HK Hv Hi Hj).
  pose proof (covering_absorbs_nan neon K op b j HK) as Hop.
  unfold dot. destruct Hnan as [->|(k & Hk & Hnan)].
  - apply accumulate_nan_stays. exact Hop.
  - apply (accumulate_nan_hit _ _ _ _ Hop 0 _ k); [lia|exact Hnan].
Qed.

Lemma nan_spreads_witness :
  Optimize9 true A23 B32m C22 (store mem23 (elem A23 1 2) S754_nan) (elem C22 1 0)
  = S754_nan.
Proof.
  apply (nan_spreads true (Optimize9 true) (simd_step true) A23 B32m C22
           (store mem23 (elem A23 1 2) S754_nan) 1 0).
  - unfold covering. do 9 right. left. reflexivity.
  - split; [reflexivity|split; unfold separate; simpl; lia].
  - simpl. lia.
  - simpl. lia.
  - right. exists 2. split; [simpl; lia|]. left. reflexivity.
Defined.

(** ** Binary32: a value rounds the same however it is written *)

Section Iter.
Context {A : Type}.
Variable f : A -> A.

Lemma iter_pos_Pos_iter (p : positive) : forall x, iter_pos f p x = Pos.iter f x p.
Proof.
  induction p as [p IH|p IH|]; intros x; cbn [iter_pos Pos.iter].
  - rewrite !IH. rewrite <- !Pos.iter_swap. reflexivity.
  - rewrite !IH. reflexivity.
  - reflexivity.
Qed.
End Iter.

(** [n] halvings of a shift record. *)
Definition shr_n (n : Z) (mrs : shr_record) : shr_record :=
  match n with
  | Zpos p => iter_pos shr_1 p mrs
  | _ => mrs
  end.

Lemma shr_shr_n (mrs : shr_record) (e n : Z) :
  shr mrs e n = (shr_n n mrs, e + Z.max 0 n).
Proof.
  destruct n as [|p|p]; cbn [shr shr_n]; f_equal; lia.
Qed.

Lemma shr_n_add (a b : Z) (mrs : shr_record) :
  0 <= a -> 0 <= b -> shr_n (a + b) mrs = shr_n a (shr_n b mrs).
Proof.
  intros Ha Hb.
  destruct a as [|p|p]; [reflexivity| |lia].
  destruct b as [|q|q]; [rewrite Z.add_0_r; reflexivity| |lia].
  cbn [Z.add shr_n]. rewrite !iter_pos_Pos_iter. apply Pos.iter_add.
Qed.

(** [M * 2^d] *)
Definition shl (M : positive) (d : Z) : positive :=
  match d with
  | Zpos p => Pos.iter xO M p
  | _ => M
  end.

Lemma shl_succ (M : positive) (d : Z) : 0 <= d -> shl M (d + 1) = xO (shl M d).
Proof.
  intros Hd. destruct d as [|p|p]; [reflexivity| |lia].
  cbn [shl Z.add]. rewrite Pos.add_1_r. rewrite Pos.iter_succ. reflexivity.
Qed.

Lemma shl_add (M : positive) (a b : Z) :
  0 <= a -> 0 <= b -> shl (shl M a) b = shl M (a + b).
Proof.
  intros Ha Hb. revert b Hb. apply natlike_ind.
  - rewrite Z.add_0_r. reflexivity.
  - intros b Hb IH. replace (a + Z.succ b) with ((a + b) + 1) by lia.
    rewrite shl_succ by lia. rewrite <- IH.
    replace (Z.succ b) with (b + 1) by lia. apply shl_succ. lia.
Qed.

Lemma shl_digits (M : positive) (d : Z) :
  0 <= d -> Zpos (digits2_pos (shl M d)) = Zpos (digits2_pos M) + d.
Proof.
  revert d. apply natlike_ind.
  - cbn. lia.
  - intros d Hd IH. replace (Z.succ d) with (d + 1) by lia.
    rewrite shl_succ by lia. cbn [digits2_pos]. lia.
Qed.

Lemma shl_Z (M : positive) (d : Z) : 0 <= d -> Zpos (shl M d) = Zpos M * 2 ^ d.
Proof.
  revert d. apply natlike_ind.
  - cbn. lia.
  - intros d Hd IH. replace (Z.succ d) with (d + 1) by lia.
    rewrite shl_succ by lia. rewrite Z.pow_add_r by lia.
    change (Zpos (xO (shl M d))) with (2 * Zpos (shl M d)). rewrite IH. lia.
Qed.

Lemma shl_inj_Z (M M' : positive) : Zpos M = Zpos M' -> M = M'.
Proof. intros [= ->]. reflexivity. Qed.

Lemma shr_n_shl (M : positive) (d : Z) :
  0 <= d ->
  shr_n d {| shr_m := Zpos (shl M d); shr_r := false; shr_s := false |} =
  {| shr_m := Zpos M; shr_r := false; shr_s := false |}.
Proof.
  revert d. apply natlike_ind.
  - reflexivity.
  - intros d Hd IH. replace (Z.succ d) with (d + 1) by lia.
    rewrite shr_n_add by lia. rewrite shl_succ by lia.
    cbn [shr_n iter_pos shr_1 orb]. exact IH.
Qed.

Lemma shl_align_shl (M : positive) (e e' : Z) :
  shl_align M e e' = (shl M (e - e'), Z.min e e').
Proof.
  unfold shl_align, shl.
  destruct (e' - e) as [|p|p] eqn:E.
  - replace (e - e') with 0 by lia. f_equal. lia.
  - destruct (e - e') as [|q|q] eqn:E'; try lia. f_equal. lia.
  - destruct (e - e') as [|q|q] eqn:E'; try lia.
    assert (q = p) by lia. subst q. f_equal. lia.
Qed.

Section Shift.
Variables prec emax : Z.
Let fexp := fexp prec emax.

Lemma binary_round_aux_shift (s : bool) (M : positive) (E d : Z) :
  0 <= d -> E <= fexp (Zpos (digits2_pos M) + E) ->
  binary_round_aux prec emax s (Zpos (shl M d)) (E - d) loc_Exact =
  binary_round_aux prec emax s (Zpos M) E loc_Exact.
Proof.
  intros Hd HE. unfold binary_round_aux, shr_fexp.
  cbn [Zdigits2 shr_record_of_loc].
  rewrite shl_digits by assumption.
  replace (Zpos (digits2_pos M) + d + (E - d)) with (Zpos (digits2_pos M) + E) by lia.
  fold fexp. set (t := fexp (Zpos (digits2_pos M) + E)) in *.
  rewrite !shr_shr_n.
  replace (t - (E - d)) with ((t - E) + d) by lia.
  rewrite shr_n_add by lia. rewrite shr_n_shl by assumption.
  replace (E - d + Z.max 0 (t - E + d)) with (E + Z.max 0 (t - E)) by lia.
  reflexivity.
Qed.

Lemma binary_round_shift (s : bool) (M : positive) (e k : Z) :
  0 <= k ->
  binary_round prec emax s (shl M k) (e - k) = binary_round prec emax s M e.
Proof.
  intros Hk. unfold binary_round.
  rewrite shl_digits by assumption.
  replace (Zpos (digits2_pos M) + k + (e - k)) with (Zpos (digits2_pos M) + e) by lia.
  fold fexp. set (t := fexp (Zpos (digits2_pos M) + e)).
  rewrite !shl_align_shl.
  destruct (Z_lt_le_dec t (e - k)) as [Hlt|Hge].
  - (* both are shifted left to [t] *)
    rewrite shl_add by lia.
    replace (k + (e - k - t)) with (e - t) by lia.
    replace (Z.min (e - k) t) with t by lia.
    replace (Z.min e t) with t by lia. reflexivity.
  - replace (shl (shl M k) (e - k - t)) with (shl M k)
      by (destruct (e - k - t) eqn:E; try reflexivity; lia).
    replace (Z.min (e - k) t) with (e - k) by lia.
    destruct (Z_lt_le_dec t e) as [Hlt|Hge'].
    + replace (Z.min e t) with t by lia.
      replace (shl M k) with (shl (shl M (e - t)) (k - (e - t)))
        by (rewrite shl_add by lia; f_equal; lia).
      replace (e - k) with (t - (k - (e - t))) by lia.
      apply binary_round_aux_shift; [lia|].
      rewrite shl_digits by lia.
      replace (Zpos (digits2_pos M) + (e - t) + t) with (Zpos (digits2_pos M) + e) by lia.
      fold fexp. fold t. lia.
    + replace (Z.min e t) with e by lia.
      replace (shl M (e - t)) with M
        by (destruct (e - t) eqn:E; try reflexivity; lia).
      apply binary_round_aux_shift; [lia|]. fold fexp. fold t. lia.
Qed.

Lemma binary_normalize_shift (n e k : Z) :
  0 <= k ->
  binary_normalize prec emax (n * 2 ^ k) (e - k) false =
  binary_normalize prec emax n e false.
Proof.
  intros Hk. destruct n as [|M|M].
  - reflexivity.
  - rewrite <- shl_Z by assumption. cbn [binary_normalize].
    apply binary_round_shift. assumption.
  - change (Zneg M) with (- Zpos M). rewrite Z.mul_opp_l.
    rewrite <- shl_Z by assumption. cbn [Z.opp binary_normalize].
    apply binary_round_shift. assumption.
Qed.
End Shift.

Section AddShift.
Variables prec emax : Z.

Lemma shl_align_fst_Z (M : positive) (e e' : Z) :
  e' <= e -> Zpos (fst (shl_align M e e')) = Zpos M * 2 ^ (e - e').
Proof.
  intros Hle. rewrite shl_align_shl. cbn [fst]. apply shl_Z. lia.
Qed.

Lemma cond_Zopp_mul (s : bool) (x y : Z) : cond_Zopp s x * y = cond_Zopp s (x * y).
Proof. destruct s; cbn; lia. Qed.

(** The sum does not depend on how the second operand is written. *)
Lemma SFadd_shift (z : spec_float) (s : bool) (M : positive) (e k : Z) :
  0 <= k -> (forall sz, z <> S754_zero sz) ->
  SFadd prec emax z (S754_finite s (shl M k) (e - k)) =
  SFadd prec emax z (S754_finite s M e).
Proof.
  intros Hk Hz. destruct z as [sz|sz| |sz mz ez]; try reflexivity.
  - exfalso. apply (Hz sz). reflexivity.
  - cbn [SFadd]. cbv zeta.
    set (E0 := Z.min ez e). set (E1 := Z.min ez (e - k)).
    assert (HE : E1 = E0 - (E0 - E1)) by lia.
    rewrite HE at 3.
    rewrite <- (binary_normalize_shift prec emax _ E0 (E0 - E1)) by lia.
    f_equal.
    rewrite !shl_align_fst_Z by lia.
    rewrite shl_Z by assumption.
    rewrite Z.mul_add_distr_r, !cond_Zopp_mul.
    rewrite <- !Z.mul_assoc, <- !Z.pow_add_r by lia.
    f_equal; f_equal; f_equal; f_equal; lia.
Qed.
End AddShift.

(** ** Exact products: the fused step and the two-rounding step agree *)

Lemma binary_round_aux_sign (s : bool) (mx ex : Z) (lx : location) (s' : bool)
  (m : positive) (e : Z) :
  binary_round_aux B32.prec B32.emax s mx ex lx = S754_finite s' m e -> s' = s.
Proof.
  unfold binary_round_aux.
  destruct (shr_fexp B32.prec B32.emax mx ex lx) as [mrs' e'].
  destruct (shr_fexp B32.prec B32.emax
              (round_nearest_even (shr_m mrs') (loc_of_shr_record mrs')) e' loc_Exact)
    as [mrs'' e''].
  destruct (shr_m mrs'') as [|p|p]; try discriminate.
  destruct (e'' <=? B32.emax - B32.prec); [|discriminate].
  intros [= <- _ _]. reflexivity.
Qed.

(** The product [x * y] is a binary32 value: rounding it changes nothing. *)
Definition exact_product (x y : B32.float) : bool :=
  match x, y with
  | S754_finite sx mx ex, S754_finite sy my ey =>
      match B32.mul x y with
      | S754_finite s m e =>
          (ex + ey <=? e) && (Zpos m * 2 ^ (e - (ex + ey)) =? Zpos (mx * my))
      | _ => false
      end
  | _, _ => true
  end.

Lemma fmadd_exact (z x y : B32.float) :
  exact_product x y = true -> B32.fmadd z x y = B32.add z (B32.mul x y).
Proof.
  destruct x as [sx|sx| |sx mx ex], y as [sy|sy| |sy my ey]; try reflexivity.
  unfold exact_product.
  destruct (B32.mul (S754_finite sx mx ex) (S754_finite sy my ey))
    as [s|s| |s m e] eqn:Emul; try discriminate.
  intros Hex. apply andb_prop in Hex. destruct Hex as [Hle Hval].
  apply Z.leb_le in Hle. apply Z.eqb_eq in Hval.
  assert (Hs : s = xorb sx sy).
  { unfold B32.mul in Emul. cbn [SFmul] in Emul.
    apply binary_round_aux_sign in Emul. exact Emul. }
  subst s. cbn [B32.fmadd].
  destruct z as [sz|sz| |sz mz ez];
    [rewrite Emul; reflexivity|reflexivity|reflexivity|].
  unfold B32.add.
  assert (Hm : (mx * my)%positive = shl m (e - (ex + ey))).
  { apply shl_inj_Z. rewrite shl_Z by lia. symmetry. exact Hval. }
  rewrite Hm.
  replace (ex + ey) with (e - (e - (ex + ey))) at 2 by lia.
  apply SFadd_shift; [lia|]. intros sz'. discriminate.
Qed.

Lemma fmadd_comm (z x y : B32.float) : B32.fmadd z x y = B32.fmadd z y x.
Proof.
  destruct x as [sx|sx| |sx mx ex], y as [sy|sy| |sy my ey];
    try reflexivity;
    try (cbn [B32.fmadd]; unfold B32.mul; cbn [SFmul];
         rewrite ?(xorb_comm sx sy); reflexivity).
  cbn [B32.fmadd]. unfold B32.mul. cbn [SFmul].
  rewrite (xorb_comm sy sx), (Pos.mul_comm my mx), (Z.add_comm ey ex).
  reflexivity.
Qed.

(** ** Small integers: their products are exact *)

Lemma digits2_bounds (X : positive) :
  2 ^ (Zpos (digits2_pos X) - 1) <= Zpos X < 2 ^ Zpos (digits2_pos X).
Proof.
  induction X as [X IH|X IH|]; cbn [digits2_pos].
  - rewrite Pos2Z.inj_succ.
    replace (Z.succ (Zpos (digits2_pos X)) - 1) with (Z.succ (Zpos (digits2_pos X) - 1)) by lia.
    rewrite !Z.pow_succ_r by lia. lia.
  - rewrite Pos2Z.inj_succ.
    replace (Z.succ (Zpos (digits2_pos X)) - 1) with (Z.succ (Zpos (digits2_pos X) - 1)) by lia.
    rewrite !Z.pow_succ_r by lia. lia.
  - cbn. lia.
Qed.

Lemma digits2_le (X : positive) (n : Z) :
  0 <= n -> Zpos X < 2 ^ n -> Zpos (digits2_pos X) <= n.
Proof.
  intros Hn HX. pose proof (digits2_bounds X) as [Hlo _].
  destruct (Z_le_gt_dec (Zpos (digits2_pos X)) n) as [|Hgt]; [assumption|].
  exfalso.
  assert (2 ^ n <= 2 ^ (Zpos (digits2_pos X) - 1)) by (apply Z.pow_le_mono_r; lia).
  lia.
Qed.

Lemma digits2_mul_ge (X Y : positive) :
  Zpos (digits2_pos X) <= Zpos (digits2_pos (X * Y)).
Proof.
  pose proof (digits2_bounds X) as [HloX _].
  pose proof (digits2_bounds (X * Y)) as [_ HhiP].
  destruct (Z_le_gt_dec (Zpos (digits2_pos X)) (Zpos (digits2_pos (X * Y))))
    as [|Hgt]; [assumption|]. exfalso.
  assert (2 ^ Zpos (digits2_pos (X * Y)) <= 2 ^ (Zpos (digits2_pos X) - 1))
    by (apply Z.pow_le_mono_r; lia).
  rewrite Pos2Z.inj_mul in HhiP. nia.
Qed.

(** A canonical mantissa and exponent are returned as they are. *)
Lemma binary_round_aux_canonical (s : bool) (M : positive) (E : Z) :
  fexp B32.prec B32.emax (Zpos (digits2_pos M) + E) = E ->
  E <= B32.emax - B32.prec ->
  binary_round_aux B32.prec B32.emax s (Zpos M) E loc_Exact = S754_finite s M E.
Proof.
  intros Hcan Hmax.
  assert (Hshr : shr_fexp B32.prec B32.emax (Zpos M) E loc_Exact =
                 ({| shr_m := Zpos M; shr_r := false; shr_s := false |}, E)).
  { unfold shr_fexp. cbn [Zdigits2 shr_record_of_loc].
    change IntDef.Z.add with Z.add. change IntDef.Z.sub with Z.sub.
    rewrite Hcan, shr_shr_n. replace (E - E) with 0 by lia.
    cbn [shr_n Z.max]. f_equal. lia. }
  unfold binary_round_aux. rewrite Hshr.
  cbn [shr_m loc_of_shr_record round_nearest_even]. rewrite Hshr. cbn [shr_m].
  change IntDef.Z.leb with Z.leb.
  destruct (Z.leb_spec E (B32.emax - B32.prec)); [reflexivity|lia].
Qed.

Lemma fexp_small (d : Z) : 0 <= d <= 24 -> fexp B32.prec B32.emax d = d - 24.
Proof. intros Hd. unfold fexp, emin, B32.prec, B32.emax. lia. Qed.

(** The mantissa of [X] written on 24 bits. *)
Definition wide (X : positive) : positive := shl X (24 - Zpos (digits2_pos X)).

Lemma wide_digits (X : positive) :
  Zpos (digits2_pos X) <= 24 -> Zpos (digits2_pos (wide X)) = 24.
Proof. intros HX. unfold wide. rewrite shl_digits by lia. lia. Qed.

(** A nonzero integer below [2^24] in magnitude is a binary32 value. *)
Lemma binary_round_small (s : bool) (X : positive) :
  Zpos (digits2_pos X) <= 24 ->
  binary_round B32.prec B32.emax s X 0 =
  S754_finite s (wide X) (Zpos (digits2_pos X) - 24).
Proof.
  intros HX. unfold binary_round.
  rewrite Z.add_0_r, fexp_small by lia.
  rewrite shl_align_shl.
  replace (0 - (Zpos (digits2_pos X) - 24)) with (24 - Zpos (digits2_pos X)) by lia.
  replace (Z.min 0 (Zpos (digits2_pos X) - 24)) with (Zpos (digits2_pos X) - 24) by lia.
  fold (wide X).
  apply binary_round_aux_canonical.
  - rewrite wide_digits by assumption.
    replace (24 + (Zpos (digits2_pos X) - 24)) with (Zpos (digits2_pos X)) by lia.
    apply fexp_small. lia.
  - unfold B32.emax, B32.prec. lia.
Qed.

Lemma shl_mul (X Y : positive) (a b : Z) :
  0 <= a -> 0 <= b -> (shl X a * shl Y b)%positive = shl (X * Y) (a + b).
Proof.
  intros Ha Hb. apply shl_inj_Z.
  rewrite Pos2Z.inj_mul, !shl_Z by lia.
  rewrite Pos2Z.inj_mul, Z.pow_add_r by lia. lia.
Qed.

Lemma exact_product_small (sx sy : bool) (X Y : positive) :
  Zpos (X * Y) < 2 ^ 24 ->
  exact_product (binary_round B32.prec B32.emax sx X 0)
                (binary_round B32.prec B32.emax sy Y 0) = true.
Proof.
  intros HP.
  pose proof (digits2_le (X * Y) 24 ltac:(lia) HP) as HdP.
  pose proof (digits2_mul_ge X Y) as HdX.
  pose proof (digits2_mul_ge Y X) as HdY. rewrite (Pos.mul_comm Y X) in HdY.
  set (dX := Zpos (digits2_pos X)) in *.
  set (dY := Zpos (digits2_pos Y)) in *.
  set (dP := Zpos (digits2_pos (X * Y))) in *.
  assert (HdX0 : 0 < dX) by (unfold dX; lia).
  assert (HdY0 : 0 < dY) by (unfold dY; lia).
  rewrite !binary_round_small by (fold dX; fold dY; lia). fold dX dY.
  unfold exact_product.
  assert (Emul : B32.mul (S754_finite sx (wide X) (dX - 24))
                         (S754_finite sy (wide Y) (dY - 24)) =
                 S754_finite (xorb sx sy) (wide (X * Y)) (dP - 24)).
  { unfold B32.mul. cbn [SFmul]. unfold wide at 1 2. fold dX dY.
    rewrite shl_mul by lia.
    replace (24 - dX + (24 - dY)) with ((24 - dP) + (24 - dX - dY + dP)) by lia.
    rewrite <- shl_add by lia.
    change (shl (X * Y) (24 - dP)) with (wide (X * Y)).
    replace (dX - 24 + (dY - 24)) with ((dP - 24) - (24 - dX - dY + dP)) by lia.
    rewrite (binary_round_aux_shift B32.prec B32.emax) by
      (try lia; rewrite wide_digits by (fold dP; lia);
       replace (24 + (dP - 24)) with dP by lia;
       rewrite fexp_small by (unfold dP; lia); lia).
    apply binary_round_aux_canonical.
    - rewrite wide_digits by (fold dP; lia).
      replace (24 + (dP - 24)) with dP by lia.
      apply fexp_small. unfold dP. lia.
    - unfold B32.emax, B32.prec. lia. }
  rewrite Emul. apply andb_true_intro. split.
  - apply Z.leb_le. lia.
  - apply Z.eqb_eq. unfold wide at 2 3. fold dX dY.
    rewrite shl_mul by lia. unfold wide. fold dP.
    rewrite <- shl_Z by lia. rewrite shl_add by lia. f_equal. f_equal. lia.
Qed.

Lemma exact_product_of_Z (x y : Z) :
  Z.abs (x * y) < 2 ^ 24 -> exact_product (B32.of_Z x) (B32.of_Z y) = true.
Proof.
  intros Hxy. unfold B32.of_Z.
  destruct x as [|X|X]; [reflexivity| |];
    (destruct y as [|Y|Y];
     [ cbn [binary_normalize];
       destruct (binary_round _ _ _ _ _); reflexivity | | ]);
    cbn [binary_normalize]; apply exact_product_small; cbn in Hxy; exact Hxy.
Qed.

(** Every product [A[i,k] * B[k,j]] of the call is exact. *)
Definition exact_products (a b : Matrix) (m : mem B32.float) : bool :=
  forallb (fun i =>
    forallb (fun j =>
      forallb (fun k => exact_product (m (elem a i k)) (m (elem b k j)))
        (range (w a)))
      (range (w b)))
    (range (h a)).

Lemma exact_products_at (a b : Matrix) (m : mem B32.float) (i j k : Z) :
  exact_products a b m = true ->
  0 <= i < h a -> 0 <= j < w b -> 0 <= k < w a ->
  exact_product (m (elem a i k)) (m (elem b k j)) = true.
Proof.
  intros Hex Hi Hj Hk. unfold exact_products in Hex.
  rewrite forallb_forall in Hex. specialize (Hex i (In_range _ _ Hi)).
  rewrite forallb_forall in Hex. specialize (Hex j (In_range _ _ Hj)).
  rewrite forallb_forall in Hex. exact (Hex k (In_range _ _ Hk)).
Qed.

Lemma steps_exact (neon : bool) (b : Matrix) (j : Z) (z x y : B32.float) :
  exact_product x y = true ->
  fused_step z x y = scalar_step z x y /\
  lane_step z x y = scalar_step z x y /\
  simd_step neon b j z x y = scalar_step z x y.
Proof.
  intros Hex.
  assert (Hf : fused_step z x y = scalar_step z x y)
    by (unfold fused_step, scalar_step; cbn [fma fadd fmul binary32];
        apply fmadd_exact; exact Hex).
  split; [exact Hf|]. split.
  - unfold lane_step. cbn [fma binary32]. rewrite <- fmadd_comm. exact Hf.
  - unfold simd_step. destruct (neon && _); [exact Hf|reflexivity].
Qed.

(** A kernel that applies to every element all the steps of Origin, with
    steps that agree with the scalar step on the operands met, leaves the
    memory of Origin. *)
Lemma same_as_Origin (K : kernel) op N (a b c : Matrix) (m : mem B32.float) (p : Z) :
  implements K op N -> valid a b c ->
  (forall i j, 0 <= i < h a -> 0 <= j < w b -> N a b i j = Z.max 0 (w a)) ->
  (forall i j k z, 0 <= i < h a -> 0 <= j < w b -> 0 <= k < w a ->
     op b j z (m (elem a i k)) (m (elem b k j)) =
     scalar_step z (m (elem a i k)) (m (elem b k j))) ->
  K a b c m p = Origin a b c m p.
Proof.
  intros HK Hv HN Hop.
  pose proof Hv as (Hck & _).
  destruct (proj1 (CheckParam_true a b c) Hck) as (Hwa & Hha & Hwb & _).
  destruct (elem_or_outside (F := B32.float) c p) as [(i & j & Hi & Hj & ->)|Hout].
  - rewrite (implements_elem K op N a b c m i j HK Hv Hi Hj).
    rewrite (implements_elem Origin _ _ a b c m i j Origin_implements Hv Hi Hj).
    rewrite HN, full_in_range by lia.
    apply dot_ext. intros k z Hk. apply Hop; lia.
  - rewrite (HK a b c m Hv p), (Origin_implements a b c m Hv p).
    rewrite !Hout. reflexivity.
Qed.

Lemma exact_products_same (neon : bool) (K : kernel) (a b c : Matrix)
  (m : mem B32.float) (p : Z) :
  In K (simd_variants neon) \/
  (In K aligned_kernels /\ h a mod 4 = 0 /\ w a mod 4 = 0 /\ w b mod 4 = 0) ->
  valid a b c -> exact_products a b m = true ->
  K a b c m p = Origin a b c m p.
Proof.
  intros HK Hv Hex.
  assert (Hsteps : forall i j k z, 0 <= i < h a -> 0 <= j < w b -> 0 <= k < w a ->
            fused_step z (m (elem a i k)) (m (elem b k j)) =
              scalar_step z (m (elem a i k)) (m (elem b k j)) /\
            lane_step z (m (elem a i k)) (m (elem b k j)) =
              scalar_step z (m (elem a i k)) (m (elem b k j)) /\
            simd_step neon b j z (m (elem a i k)) (m (elem b k j)) =
              scalar_step z (m (elem a i k)) (m (elem b k j))).
  { intros i j k z Hi Hj Hk. apply steps_exact.
    apply exact_products_at; assumption. }
  destruct HK as [HK|(HK & Hh4 & Ha4 & Hb4)].
  - apply (same_as_Origin K (simd_step neon) full a b c m p
             (simd_variants_implement neon K HK) Hv).
    + intros i j Hi Hj. apply full_in_range; assumption.
    + intros i j k z Hi Hj Hk. apply Hsteps; assumption.
  - unfold aligned_kernels in HK. destruct HK as [<-|[<-|HK]].
    + apply (same_as_Origin _ _ _ a b c m p Optimize11_implements Hv).
      * intros i j Hi Hj. apply aligned_in_range; assumption.
      * intros i j k z Hi Hj Hk. apply Hsteps; assumption.
    + apply (same_as_Origin _ _ _ a b c m p Optimize12_implements Hv).
      * intros i j Hi Hj. apply aligned_in_range; assumption.
      * intros i j k z Hi Hj Hk. apply Hsteps; assumption.
    + assert (HK' : implements K (fun _ _ => lane_step) aligned_rows4).
      { repeat (destruct HK as [<-|HK]); try contradiction;
          [ apply Optimize13_implements | apply Optimize14_implements
          | apply Optimize15_implements | apply Optimize16_implements ]. }
      apply (same_as_Origin _ _ _ a b c m p HK' Hv).
      * intros i j Hi Hj. unfold aligned_rows4. apply aligned_in_range;
          try assumption. rewrite land_m4_multiple by assumption. assumption.
      * intros i j k z Hi Hj Hk. apply Hsteps; assumption.
Qed.

(** X21. When every product A[i,k] * B[k,j] of the call is itself a
    binary32 value (rounding it changes nothing), a fused step returns what
    the multiply-then-add step returns, whatever the sum: for valid
    parameters Optimize5, Optimize6 and Optimize9 on either build, and
    Optimize11 .. Optimize16 on a build with [__ARM_NEON] when A.h, A.w and
    B.w are multiples of four, then leave exactly the memory that Origin
    leaves, whatever C held. *)
Theorem exact_products_match_Origin (neon : bool) (K : kernel) (a b c : Matrix)
  (m : mem B32.float) (p : Z) :
  In K (simd_variants neon) \/
  (In K aligned_kernels /\ h a mod 4 = 0 /\ w a mod 4 = 0 /\ w b mod 4 = 0) ->
  valid a b c -> exact_products a b m = true ->
  K a b c m p = Origin a b c m p.
Proof. apply exact_products_same. Qed.

Lemma exact_products_match_Origin_witness :
  Optimize13 true A44 B44 C44 mem44 (elem C44 3 2) = Origin A44 B44 C44 mem44 (elem C44 3 2).
Proof.
  apply (exact_products_match_Origin true (Optimize13 true) A44 B44 C44 mem44).
  - right. split; [|split; [|split]]; try reflexivity.
    unfold aligned_kernels. do 2 right. left. reflexivity.
  - split; [reflexivity|split; unfold separate; simpl; lia].
  - vm_compute. reflexivity.
Defined.

Lemma same_refl (x : B32.float) : same x x = true.
Proof.
  destruct x as [s|s| |s p e]; cbn; try reflexivity.
  - destruct s; reflexivity.
  - destruct s; reflexivity.
  - rewrite Pos.eqb_refl, Z.eqb_refl. destruct s; reflexivity.
Qed.

Lemma range_In (n i : Z) : In i (range n) -> 0 <= i < n.
Proof.
  unfold range. intros Hin. apply in_map_iff in Hin.
  destruct Hin as (k & <- & Hk). apply in_seq in Hk. lia.
Qed.

(** X22. The exactness condition of the check-mode results on the
    vectorised kernels ([fused_exact]: each fused step met along the
    accumulation from zero returns what the multiply-then-add step returns)
    holds as soon as every product A[i,k] * B[k,j] is exact. *)
Theorem exact_products_fused_exact (a b : Matrix) (m : mem B32.float) :
  exact_products a b m = true -> fused_exact a b m = true.
Proof.
  intros Hex. unfold fused_exact.
  apply forallb_forall. intros i Hi. apply range_In in Hi.
  apply forallb_forall. intros j Hj. apply range_In in Hj.
  apply forallb_forall. intros k Hk. apply range_In in Hk.
  cbv zeta.
  destruct (steps_exact true b j (dot scalar_step m a b i j k B32.zero)
              (m (elem a i k)) (m (elem b k j))
              (exact_products_at a b m i j k Hex Hi Hj Hk)) as (Ef & El & _).
  rewrite Ef, El. rewrite same_refl. reflexivity.
Qed.

Lemma exact_products_fused_exact_witness : fused_exact A44 B44 mem44 = true.
Proof.
  apply exact_products_fused_exact. vm_compute. reflexivity.
Defined.

(** Every element of the view is an integer of magnitude at most [bound]. *)
Definition integers (x : Matrix) (m : mem B32.float) (bound : Z) : Prop :=
  forall i j, 0 <= i < h x -> 0 <= j < w x ->
    exists n, Z.abs n <= bound /\ m (elem x i j) = B32.of_Z n.

Lemma integers_exact_products (a b : Matrix) (m : mem B32.float) :
  w a = h b -> integers a m 4095 -> integers b m 4095 ->
  exact_products a b m = true.
Proof.
  intros Hwa Ha Hb. unfold exact_products.
  apply forallb_forall. intros i Hi. apply range_In in Hi.
  apply forallb_forall. intros j Hj. apply range_In in Hj.
  apply forallb_forall. intros k Hk. apply range_In in Hk.
  destruct (Ha i k Hi Hk) as (x & Hx & ->).
  destruct (Hb k j ltac:(lia) Hj) as (y & Hy & ->).
  apply exact_product_of_Z. rewrite Z.abs_mul.
  assert (Z.abs x * Z.abs y <= 4095 * 4095) by nia.
  change (2 ^ 24) with 16777216. lia.
Qed.

(** X23. When the elements of A and of B are integers of magnitude at
    most 4095, every product is exact, and for valid parameters Optimize5,
    Optimize6 and Optimize9 on either build, and Optimize11 .. Optimize16 on
    a build with [__ARM_NEON] when A.h, A.w and B.w are multiples of four,
    leave exactly the memory that Origin leaves. *)
Theorem integer_inputs_match_Origin (neon : bool) (K : kernel) (a b c : Matrix)
  (m : mem B32.float) (p : Z) :
  In K (simd_variants neon) \/
  (In K aligned_kernels /\ h a mod 4 = 0 /\ w a mod 4 = 0 /\ w b mod 4 = 0) ->
  valid a b c -> integers a m 4095 -> integers b m 4095 ->
  K a b c m p = Origin a b c m p.
Proof.
  intros HK Hv Ha Hb. apply (exact_products_same neon); try assumption.
  destruct Hv as (Hck & _). apply CheckParam_true in Hck.
  apply integers_exact_products; tauto.
Qed.

Lemma integer_inputs_match_Origin_witness :
  Optimize9 true A23 B32m C22 mem23 (elem C22 1 1) = Origin A23 B32m C22 mem23 (elem C22 1 1).
Proof.
  apply (integer_inputs_match_Origin true (Optimize9 true) A23 B32m C22 mem23).
  - left. unfold simd_variants. do 2 right. left. reflexivity.
  - split; [reflexivity|split; unfold separate; simpl; lia].
  - intros i j Hi Hj.
    assert (Hc : (i = 0 \/ i = 1) /\ (j = 0 \/ j = 1 \/ j = 2))
      by (simpl in Hi, Hj; lia).
    destruct Hc as [[-> | ->] [-> | [-> | ->]]];
      [ exists 1 | exists 2 | exists 3 | exists 4 | exists 5 | exists 6 ];
      (split; [simpl; lia|reflexivity]).
  - intros i j Hi Hj.
    assert (Hc : (i = 0 \/ i = 1 \/ i = 2) /\ (j = 0 \/ j = 1))
      by (simpl in Hi, Hj; lia).
    destruct Hc as [[-> | [-> | ->]] [-> | ->]];
      [ exists 7 | exists 8 | exists 9 | exists 10 | exists 11 | exists 12 ];
      (split; [simpl; lia|reflexivity]).
Defined.

From Stdlib Require Import QArith Qabs.
Local Open Scope Z_scope.

(** * The aligned kernels against Origin *)





(** * Validation *)

(** C6, as the code has it. For each of the seventeen kernels validation
    fails exactly when A.w != B.h, or A.h != C.h, or B.w != C.w, or one of
    the three data pointers is null, and passes otherwise.  When it fails,
    the kernel returns the memory it was given, every cell of C unchanged.
    When it passes and the buffer of C overlaps neither input:
    Origin and Optimize1 .. Optimize9 add to every element C[i,j] the A.w
    products A[i,k] * B[k,j] in ascending k; Optimize10 does so where its
    remainder loop is not reached (A.w < 4, or a build with [__ARM_NEON]
    and B.w a multiple of four); Optimize11 .. Optimize16 add, on a build
    with [__ARM_NEON], the first A.w & ~3 products to the elements of
    their aligned block, and without [__ARM_NEON] return the memory they
    were given. *)
Theorem validation_short_circuit {F : Type} {FO : FloatOps F}
  (neon : bool) (a b c : Matrix) (m : mem F) :
  (CheckParam a b c = false <->
   w a <> h b \/ h a <> h c \/ w b <> w c \/
   data a = null \/ data b = null \/ data c = null) /\
  (CheckParam a b c = true <->
   ~ (w a <> h b \/ h a <> h c \/ w b <> w c \/
      data a = null \/ data b = null \/ data c = null)) /\
  (forall K : kernel,
     In K (Origin :: tests neon) -> CheckParam a b c = false -> K a b c m = m) /\
  (CheckParam a b c = true -> separate c a -> separate c b ->
   forall i j, 0 <= i < h c -> 0 <= j < w c ->
     (forall (K : kernel) op, In (K, op) (covering neon) ->
        K a b c m (elem c i j) =
          dot (op b j) m a b i j (w a) (m (elem c i j))) /\
     (w a < 4 \/ (neon = true /\ w b mod 4 = 0) ->
      Optimize10 neon a b c m (elem c i j) =
        dot (simd_step neon b j) m a b i j (w a) (m (elem c i j))) /\
     (forall (K : kernel) op rows, In (K, op, rows) blocked_extent ->
        i < rows a -> j < Z.land (w b) (-4) ->
        K a b c m (elem c i j) =
          dot (op b j) m a b i j (Z.land (w a) (-4)) (m (elem c i j)))) /\
  (forall K : kernel,
     In K (vector_variants false ++ micro_variants false) -> K a b c m = m).
Proof.
  assert (Hiff : CheckParam a b c = false <->
                 w a <> h b \/ h a <> h c \/ w b <> w c \/
                 data a = null \/ data b = null \/ data c = null).
  { pose proof (CheckParam_true a b c) as Ht.
    destruct (CheckParam a b c).
    - split; [discriminate|]. intros Hc. destruct Ht as [Ht _].
      specialize (Ht eq_refl). tauto.
    - split; [|reflexivity]. intros _.
      destruct (Z.eq_dec (w a) (h b)); [|tauto].
      destruct (Z.eq_dec (h a) (h c)); [|tauto].
      destruct (Z.eq_dec (w b) (w c)); [|tauto].
      destruct (Z.eq_dec (data a) null); [tauto|].
      destruct (Z.eq_dec (data b) null); [tauto|].
      destruct (Z.eq_dec (data c) null); [tauto|].
      destruct Ht as [_ Ht]. discriminate Ht. tauto. }
  split; [exact Hiff|]. split; [|split; [|split]].
  - destruct (CheckParam a b c); split; intros H; try reflexivity;
      try discriminate.
    + intros Hc. apply Hiff in Hc. discriminate.
    + exfalso. apply H. apply Hiff. reflexivity.
  - intros K. apply invalid_returns.
  - intros Hck HsA HsB i j Hi Hj.
    assert (Hv : valid a b c) by (split; [|split]; assumption).
    destruct (proj1 (CheckParam_true a b c) Hck) as (Hwa & Hha & Hwb & _).
    split; [|split].
    + intros K op HK.
      apply (accumulates_twice K op full a b c m i j); try assumption.
      * apply (covering_implements neon). assumption.
      * apply full_in_range; lia.
    + intros Hcase.
      pose proof (Optimize10_implements_cases neon a b c m Hv Hcase) as Hst.
      unfold elem at 1.
      rewrite (state_at a b c m (simd_step neon b) (full a b) _ i j Hst Hi Hj).
      rewrite full_in_range by lia.
      apply (dot_max (simd_step neon b j) m a b i j (w a)).
    + intros K op rows HK Hi' Hj'.
      pose proof (land_m4_bounds (w b)) as Hb4.
      rewrite (implements_elem K op _ a b c m i j
                 (blocked_extent_implements K op rows HK) Hv) by lia.
      rewrite <- (dot_max (op b j) m a b i j (Z.land (w a) (-4))).
      f_equal. unfold aligned, addN. destruct_cmp. lia.
  - intros K. apply aligned_off.
Qed.

(** C6 fails as stated: validation passes and nothing is computed.  On the
    2x3 by 3x2 input, where Origin adds [[58,64],[139,154]] to C,
    Optimize11 .. Optimize16 of a build with [__ARM_NEON] return C as it
    was (no block of four columns exists); and without [__ARM_NEON] they do
    so on the 4x4 product of ones as well. *)
Lemma validation_passes_nothing_computed :
  CheckParam A23 B32m C22 = true /\
  map (Origin A23 B32m C22 mem23) (cells C22) = map B32.of_Z [58; 64; 139; 154] /\
  Forall (fun K : kernel =>
            map (K A23 B32m C22 mem23) (cells C22) = map mem23 (cells C22))
         (skipn 10 (tests true)) /\
  CheckParam A44 B44 C44 = true /\
  Forall (fun K : kernel =>
            map (K A44 B44 C44 mem44) (cells C44) = map mem44 (cells C44))
         (skipn 10 (tests false)).
Proof.
  split; [reflexivity|]. split; [vm_compute; reflexivity|].
  split; [repeat constructor; vm_compute; reflexivity|].
  split; [reflexivity|]. repeat constructor; vm_compute; reflexivity.
Qed.

(** * The comparison of CheckResult *)

(** The test [fabs(x - y) > EPSILON] read off the binary32 difference [d]:
    [d] is infinite, or a finite m * 2^e with e above -40, or with e = -40
    and m above 10995116.  [1e-5f] is 10995116 * 2^-40; the sign of [d]
    plays no part; a NaN and a zero never count. *)
Definition over_tolerance (d : B32.float) : bool :=
  match d with
  | S754_infinity _ => true
  | S754_finite _ m e => (-40 <? e) || ((e =? -40) && (10995116 <? Z.pos m))
  | _ => false
  end.

(** The value of a binary32 number as a rational. *)
Definition value (x : B32.float) : option Q :=
  match x with
  | S754_zero _ => Some 0%Q
  | S754_finite s m e => Some (inject_Z (cond_Zopp s (Z.pos m)) * 2 ^ e)%Q
  | _ => None
  end.

(** The comparison as the documentation words it: the two numbers differ,
    as real numbers, by more than 1e-5. *)
Definition differ_by_more_than_1e5 (x y : B32.float) : bool :=
  match value x, value y with
  | Some p, Some q => negb (Qle_bool (Qabs (p - q)) (1 # 100000))
  | _, _ => false
  end.

(** 10995117 * 2^-40 and 2^-41: their difference 21990233 * 2^-41 lies
    half way between 10995116 * 2^-40 and 10995117 * 2^-40. *)
Definition near_x : B32.float := S754_finite false 10995117 (-40).
Definition near_y : B32.float := S754_finite false 8388608 (-64).
Definition Y11 : Matrix := {| data := 200; h := 1; w := 1 |}.
Definition mem_near : mem B32.float :=
  store (store blank (elem X11 0 0) near_x) (elem Y11 0 0) near_y.

Lemma exceeds_over_tolerance (x y : B32.float) :
  exceeds x y = over_tolerance (B32.sub x y).
Proof.
  unfold exceeds. cbn [fgt fabs fsub EPSILON binary32].
  destruct (B32.sub x y) as [s|s| |s m e]; try reflexivity.
  unfold over_tolerance, B32.gt, B32.abs, B32.eps, SFltb, SFabs, SFcompare.
  change (IntDef.Z.compare (-40) e) with (Z.compare (-40) e).
  destruct (Z.ltb_spec (-40) e) as [Hlt|Hge].
  - rewrite (proj2 (Z.compare_lt_iff (-40) e) Hlt). reflexivity.
  - destruct (Z.eqb_spec e (-40)) as [->|Hne].
    + rewrite Z.compare_refl. cbn [orb andb].
      unfold Z.ltb. cbn [Z.compare]. unfold Pos.compare.
      destruct (Pos.compare_cont Eq 10995116 m); reflexivity.
    + rewrite (proj2 (Z.compare_gt_iff (-40) e)) by lia. reflexivity.
Qed.

(** C7, as the code has it. CheckResult returns false exactly when the
    widths differ, or the heights differ, or a data pointer is null, or for
    some pair of same-position elements the binary32 difference x - y, the
    exact difference rounded to nearest, is over the tolerance: infinite, or
    of magnitude above 10995116 * 2^-40, the binary32 number nearest to 1e-5;
    and it returns true exactly when the shapes match, the buffers are
    present and no pair has such a difference. *)
Theorem CheckResult_spec (a b : Matrix) (m : mem B32.float) :
  (CheckResult a b m = false <->
   w a <> w b \/ h a <> h b \/ data a = null \/ data b = null \/
   exists i j, 0 <= i < h a /\ 0 <= j < w a /\
     over_tolerance (B32.sub (m (elem a i j)) (m (elem b i j))) = true) /\
  (CheckResult a b m = true <->
   w a = w b /\ h a = h b /\ data a <> null /\ data b <> null /\
   forall i j, 0 <= i < h a -> 0 <= j < w a ->
     over_tolerance (B32.sub (m (elem a i j)) (m (elem b i j))) = false).
Proof.
  split.
  - rewrite (CheckResult_false_iff a b m).
    split; intros [H|[H|[H|[H|(i & j & Hi & Hj & H)]]]]; try tauto;
      do 4 right; exists i, j; (split; [exact Hi|split; [exact Hj|]]).
    + rewrite <- exceeds_over_tolerance. exact H.
    + rewrite exceeds_over_tolerance. exact H.
  - rewrite (CheckResult_true_iff a b m).
    split; intros (Hw & Hh & Ha & Hb & Hall); repeat split; try assumption;
      intros i j Hi Hj.
    + rewrite <- exceeds_over_tolerance. apply Hall; assumption.
    + rewrite exceeds_over_tolerance. apply Hall; assumption.
Qed.

(** C7 fails as stated: the two 1x1 views hold numbers that differ by
    21990233 * 2^-41, more than 1e-5, and CheckResult returns true: the
    subtraction rounds the difference to 10995116 * 2^-40, which is the
    tolerance and so not above it. *)
Lemma CheckResult_accepts_more_than_1e5 :
  option_map Qred (value near_x) = Some (10995117 # 1099511627776)%Q /\
  option_map Qred (value near_y) = Some (1 # 2199023255552)%Q /\
  ((1 # 100000) < (10995117 # 1099511627776) - (1 # 2199023255552))%Q /\
  differ_by_more_than_1e5 near_x near_y = true /\
  B32.sub near_x near_y = B32.eps /\
  CheckResult X11 Y11 mem_near = true.
Proof.
  repeat split; vm_compute; reflexivity.
Qed.

